(** * rpmautospec: changelog derivation ([rpmautospec/changelog.py])

    A shallow embedding of [run_command], [produce_changelog] and [main] and
    the properties of the changelog engine proved about it.

    Python [str] values are sequences of Unicode code points, [bytes] values
    are sequences of octets.  The collaborators the module calls (git, the
    file system, the [rpm] subprocess, the clock) are gathered in a [World]
    record; the effects the module has on them are recorded, in order, in a
    trace. *)

From Stdlib Require Import List ZArith NArith Bool Lia Ascii String.
From Stdlib Require Import Permutation.
From Stdlib Require Import Strings.Byte DecimalString.
Import ListNotations.

Local Open Scope Z_scope.
Local Open Scope list_scope.

(** ** Text *)

Module Py.

(** A Python [str]: a list of code points; [bytes]: a list of octets. *)
Abbreviation char := N (only parsing).
Abbreviation str := (list N) (only parsing).
Abbreviation bytes := (list Byte.byte) (only parsing).

(** A literal of the source, written as a Rocq string of ASCII characters. *)
Definition u (s : string) : str :=
  map N_of_ascii (list_ascii_of_string s).

Definition b (s : string) : bytes := list_byte_of_string s.

Definition LF : char := 10%N.
Definition SP : char := 32%N.
Definition DOT : char := 46%N.
Definition DASH : char := 45%N.
Definition SLASH : char := 47%N.

Fixpoint str_eqb (s t : str) : bool :=
  match s, t with
  | [], [] => true
  | a :: s', c :: t' => N.eqb a c && str_eqb s' t'
  | _, _ => false
  end.

(** [str.isspace] on one code point (the characters [str.strip()] removes). *)
Definition isspace (c : char) : bool :=
  ((9 <=? c) && (c <=? 13) || (28 <=? c) && (c <=? 32)
   || (c =? 133) || (c =? 160) || (c =? 5760)
   || (8192 <=? c) && (c <=? 8202)
   || (c =? 8232) || (c =? 8233) || (c =? 8239) || (c =? 8287)
   || (c =? 12288))%N.

Fixpoint lstrip_by (p : char -> bool) (s : str) : str :=
  match s with
  | [] => []
  | c :: s' => if p c then lstrip_by p s' else s
  end.

Definition rstrip_by (p : char -> bool) (s : str) : str :=
  rev (lstrip_by p (rev s)).

Definition strip_by (p : char -> bool) (s : str) : str :=
  rstrip_by p (lstrip_by p s).

(** [s.strip()] *)
Definition strip (s : str) : str := strip_by isspace s.

(** [s.strip(chars)] *)
Definition strip_chars (chars : str) (s : str) : str :=
  strip_by (fun c => existsb (N.eqb c) chars) s.

Fixpoint startswith (p s : str) : bool :=
  match p, s with
  | [], _ => true
  | a :: p', c :: s' => N.eqb a c && startswith p' s'
  | _ :: _, [] => false
  end.

(** [s.endswith(p)] *)
Definition endswith (s p : str) : bool := startswith (rev p) (rev s).

(** [s.endswith((p1, p2, ...))] *)
Definition endswith_any (s : str) (ps : list str) : bool :=
  existsb (endswith s) ps.

(** [s.split(sep, maxsplit)] for a non-empty [sep]; [maxsplit = None] is
    Python's default of [-1].  The scan goes left to right; [skip] counts the
    characters of a separator that has just been matched and is still to be
    passed over, [cur] is the piece being collected. *)
Fixpoint split_go (sep : str) (maxsplit : option nat) (skip : nat)
                  (cur : str) (s : str) : list str :=
  match s with
  | [] => [cur]
  | c :: s' =>
      match skip with
      | S k => split_go sep maxsplit k cur s'
      | O =>
          match maxsplit with
          | Some O => [cur ++ s]
          | _ =>
              if startswith sep s
              then cur :: split_go sep (option_map Nat.pred maxsplit)
                                   (Nat.pred (List.length sep)) [] s'
              else split_go sep maxsplit O (cur ++ [c]) s'
          end
      end
  end.

Definition split_max (sep : str) (maxsplit : option nat) (s : str) : list str :=
  split_go sep maxsplit O [] s.

(** [s.split(sep)] *)
Definition split (sep : str) (s : str) : list str := split_max sep None s.

(** [s.rsplit(sep, maxsplit)]: the same scan from the right end. *)
Definition rsplit (sep : str) (maxsplit : nat) (s : str) : list str :=
  rev (map (@rev char) (split_max (rev sep) (Some maxsplit) (rev s))).

(** [sep.join(parts)] *)
Fixpoint join (sep : str) (parts : list str) : str :=
  match parts with
  | [] => []
  | [p] => p
  | p :: ps => p ++ sep ++ join sep ps
  end.

(** [os.path.basename(p)]: what follows the last slash. *)
Definition basename (p : str) : str :=
  last (split [SLASH] p) [].

(** Decimal digits of an integer, as [str(n)] and ["{}".format(n)] give. *)
Definition str_of_Z (n : Z) : str :=
  match n with
  | Z0 => u "0"
  | Zpos p => u (NilZero.string_of_uint (Pos.to_uint p))
  | Zneg p => u "-" ++ u (NilZero.string_of_uint (Pos.to_uint p))
  end.

(** ** Exceptions and results *)

(** The exception classes the module can meet.  [KeyboardInterrupt] derives
    from [BaseException] only; every other class derives from [Exception]. *)
Inductive exn : Type :=
  | CalledProcessError (returncode : Z) (stdout stderr : bytes)
  | FileNotFoundError
  | PermissionError
  | OSError
  | OverflowError
  | UnicodeDecodeError
  | IndexError
  | ValueError
  | GitError
  | Exception (msg : str)
  | KeyboardInterrupt.

(** [isinstance(e, Exception)] *)
Definition is_Exception (e : exn) : bool :=
  match e with
  | KeyboardInterrupt => false
  | _ => true
  end.

Inductive result (A : Type) : Type :=
  | Ok (a : A)
  | Raise (e : exn).
Arguments Ok {A} a.
Arguments Raise {A} e.

Definition rbind {A B} (r : result A) (k : A -> result B) : result B :=
  match r with
  | Ok a => k a
  | Raise e => Raise e
  end.

(** ** [bytes.decode("utf-8")] *)

Definition continuation (x : Byte.byte) : option N :=
  let n := Byte.to_N x in
  if ((128 <=? n) && (n <=? 191))%N then Some (n - 128)%N else None.

Definition push (c : char) (r : result str) : result str :=
  rbind r (fun s => Ok (c :: s)).

(** Strict decoding: overlong forms, surrogates and code points above
    U+10FFFF raise [UnicodeDecodeError]. *)
Fixpoint decode_utf8 (bs : bytes) : result str :=
  match bs with
  | [] => Ok []
  | b0 :: r0 =>
      let n0 := Byte.to_N b0 in
      if (n0 <? 128)%N then push n0 (decode_utf8 r0)
      else if (n0 <? 224)%N then
        match r0 with
        | b1 :: r1 =>
            match continuation b1 with
            | Some c1 =>
                let cp := ((n0 - 192) * 64 + c1)%N in
                if ((192 <=? n0) && (128 <=? cp))%N
                then push cp (decode_utf8 r1)
                else Raise UnicodeDecodeError
            | None => Raise UnicodeDecodeError
            end
        | [] => Raise UnicodeDecodeError
        end
      else if (n0 <? 240)%N then
        match r0 with
        | b1 :: b2 :: r2 =>
            match continuation b1, continuation b2 with
            | Some c1, Some c2 =>
                let cp := ((n0 - 224) * 4096 + c1 * 64 + c2)%N in
                if ((2048 <=? cp) && negb ((55296 <=? cp) && (cp <=? 57343)))%N
                then push cp (decode_utf8 r2)
                else Raise UnicodeDecodeError
            | _, _ => Raise UnicodeDecodeError
            end
        | _ => Raise UnicodeDecodeError
        end
      else if (n0 <? 248)%N then
        match r0 with
        | b1 :: b2 :: b3 :: r3 =>
            match continuation b1, continuation b2, continuation b3 with
            | Some c1, Some c2, Some c3 =>
                let cp := ((n0 - 240) * 262144 + c1 * 4096 + c2 * 64 + c3)%N in
                if ((65536 <=? cp) && (cp <=? 1114111))%N
                then push cp (decode_utf8 r3)
                else Raise UnicodeDecodeError
            | _, _, _ => Raise UnicodeDecodeError
            end
        | _ => Raise UnicodeDecodeError
        end
      else Raise UnicodeDecodeError
  end.

(** ** [repr] of a [bytes] value, as [str.format] inserts it *)

Definition hexdigit (n : N) : char :=
  if (n <? 10)%N then (48 + n)%N else (87 + n)%N.

Definition repr_byte (quote : char) (x : Byte.byte) : str :=
  let n := Byte.to_N x in
  if ((n =? quote) || (n =? 92))%N then [92%N; n]
  else if (n =? 9)%N then u "\t"
  else if (n =? 10)%N then u "\n"
  else if (n =? 13)%N then u "\r"
  else if ((n <? 32) || (127 <=? n))%N
       then u "\x" ++ [hexdigit (n / 16); hexdigit (n mod 16)]
  else [n].

Definition repr_bytes (bs : bytes) : str :=
  let has q := existsb (fun x => (Byte.to_N x =? q)%N) bs in
  let quote := if has 39%N && negb (has 34%N) then 34%N else 39%N in
  u "b" ++ [quote] ++ flat_map (repr_byte quote) bs ++ [quote].

(** ** [datetime] *)

(** A naive UTC [datetime]: microseconds since the epoch. *)
Abbreviation datetime := Z (only parsing).

Definition MICRO : Z := 1000000.

(** [datetime.timedelta(days=n)], in microseconds. *)
Definition timedelta_days (n : Z) : Z := n * 86400 * MICRO.

(** First and last second a [datetime] can hold:
    0001-01-01T00:00:00 and 9999-12-31T23:59:59. *)
Definition MIN_TIMESTAMP : Z := -62135596800.
Definition MAX_TIMESTAMP : Z := 253402300799.

(** The seconds the C library's [gmtime] converts, those whose year fits a
    C [int], and the seconds a [time_t] holds (64 bits, glibc). *)
Definition MIN_GMTIME : Z := -67768040609740800.
Definition MAX_GMTIME : Z := 67768036191676799.
Definition MIN_TIME_T : Z := -9223372036854775808.
Definition MAX_TIME_T : Z := 9223372036854775807.

(** [datetime.datetime.utcfromtimestamp(t)] for an integer [t]: the
    conversion to [time_t] raises [OverflowError], then [gmtime] fails with
    [EOVERFLOW], raised as [OSError], then the constructor of [datetime]
    raises [ValueError] for a year outside 1 to 9999. *)
Definition utcfromtimestamp (t : Z) : result datetime :=
  if negb ((MIN_TIME_T <=? t) && (t <=? MAX_TIME_T))
  then Raise OverflowError
  else if negb ((MIN_GMTIME <=? t) && (t <=? MAX_GMTIME))
  then Raise OSError
  else if negb ((MIN_TIMESTAMP <=? t) && (t <=? MAX_TIMESTAMP))
  then Raise ValueError
  else Ok (t * MICRO).

(** Year, month and day of the proleptic Gregorian calendar for a number of
    days since 1970-01-01. *)
Definition civil_from_days (days : Z) : Z * Z * Z :=
  let z := days + 719468 in
  let era := z / 146097 in
  let doe := z - era * 146097 in
  let yoe := (doe - doe / 1460 + doe / 36524 - doe / 146096) / 365 in
  let doy := doe - (365 * yoe + yoe / 4 - yoe / 100) in
  let mp := (5 * doy + 2) / 153 in
  let d := doy - (153 * mp + 2) / 5 + 1 in
  let m := if mp <? 10 then mp + 3 else mp - 9 in
  let y := yoe + era * 400 in
  (if m <=? 2 then y + 1 else y, m, d).

Definition day_abbr (wd : Z) : str :=
  nth (Z.to_nat wd)
      (map u ["Sun"; "Mon"; "Tue"; "Wed"; "Thu"; "Fri"; "Sat"]%string) [].

Definition month_abbr (m : Z) : str :=
  nth (Z.to_nat (m - 1))
      (map u ["Jan"; "Feb"; "Mar"; "Apr"; "May"; "Jun";
              "Jul"; "Aug"; "Sep"; "Oct"; "Nov"; "Dec"]%string) [].

(** [%d]: the day of the month on two digits. *)
Definition two_digits (n : Z) : str :=
  if n <? 10 then u "0" ++ str_of_Z n else str_of_Z n.

(** [dt.strftime('%a %b %d %Y')] in the C locale; [%Y] prints the year
    without padding, which is four digits from the year 1000 on. *)
Definition strftime_abdY (dt : datetime) : str :=
  let days := (dt / MICRO) / 86400 in
  let '(y, m, d) := civil_from_days days in
  day_abbr ((days + 4) mod 7) ++ [SP] ++ month_abbr m ++ [SP]
  ++ two_digits d ++ [SP] ++ str_of_Z y.

End Py.

Import Py.

(** ** The data model *)

(** A [pygit2.Commit], as far as the module reads it; [parents] holds the
    identifiers of the parent commits. *)
Record Commit : Type := mkCommit {
  hex : str;
  parents : list str;
  commit_time : Z;
  author_name : str;
  author_email : str;
  message : str
}.

(** A [pygit2.Diff]: [diff.stats.files_changed] and the [new_file.path] of
    each entry of [diff.deltas]. *)
Record Diff : Type := mkDiff {
  files_changed : nat;
  deltas : list str
}.

(** [data = collections.defaultdict(list)]: a dict keeps its keys in the
    order of their first insertion.  A key is the tuple [output]. *)
Abbreviation key := (list (list N)) (only parsing).
Abbreviation dict := (list (list (list N) * list Commit)) (only parsing).

Fixpoint key_eqb (k k' : key) : bool :=
  match k, k' with
  | [], [] => true
  | a :: l, a' :: l' => str_eqb a a' && key_eqb l l'
  | _, _ => false
  end.

(** [data[k].append(c)] *)
Fixpoint dict_append (k : key) (c : Commit) (d : dict) : dict :=
  match d with
  | [] => [(k, [c])]
  | (k', cs) :: d' =>
      if key_eqb k k' then (k', cs ++ [c]) :: d'
      else (k', cs) :: dict_append k c d'
  end.

(** ** The world and the effects on it *)

(** What the run does to its collaborators, in the order it does it:
    the temporary directory made and removed, the repository copied and
    opened, a commit handed over by the walker, a checkout into a
    repository, a test for a path, a subprocess started in a directory, a
    diff asked of a repository, a message logged as an error, a line
    printed. *)
Inductive event : Type :=
  | EvMkdtemp (workdir : str)
  | EvCopytree (src dst : str)
  | EvOpen (path : str)
  | EvNext (c : Commit)
  | EvCheckout (repo : str) (c : Commit)
  | EvExists (path : str)
  | EvRun (command : list str) (cwd : str)
  | EvDiff (repo : str) (c : Commit)
  | EvLogError (msg : str)
  | EvPrint (line : str)
  | EvCleanup (workdir : str).

(** What the collaborators answer.
    - [mkdtemp]: the directory [tempfile.TemporaryDirectory()] makes;
    - [copytree src dst]: [shutil.copytree];
    - [walk path]: the commits [repo_obj.walk(tip, GIT_SORT_TIME)] yields
      for the repository opened at [path], in the order it yields them;
    - [utcnow k]: the clock's answer to the reading number [k];
    - [checkout_tree c]: [repo_obj.checkout_tree(c, ...)];
    - [path_exists t p] and [check_output t command cwd]:
      [os.path.exists] and [subprocess.check_output] when the copy holds the
      tree of the commit [t]; [None] when it holds the tree of no commit of
      the walk for sure: before the first checkout, and after a checkout
      that failed, which may have written a part of the tree;
    - [diff p c]: [repo_obj.diff(p, c)] for the parent [p];
      [diff_to_tree c]: [c.tree.diff_to_tree(swap=True)];
    - [fill]: [textwrap.TextWrapper(width=75, subsequent_indent="  ").fill].
    An operation that can fail answers with the exception it raises. *)
Record World : Type := mkWorld {
  mkdtemp : str;
  copytree : str -> str -> result unit;
  walk : str -> result (list Commit);
  utcnow : nat -> datetime;
  checkout_tree : Commit -> result unit;
  path_exists : option Commit -> str -> bool;
  check_output : option Commit -> list str -> str -> result bytes;
  diff : str -> Commit -> result Diff;
  diff_to_tree : Commit -> result Diff;
  fill : str -> str
}.

(** The trace so far, the number of readings of the clock so far, and the
    commit whose tree the copy holds, when there is one. *)
Record state : Type := mkState {
  trace : list event;
  reads : nat;
  worktree : option Commit
}.

Definition initial : state := mkState [] O None.

(** ** A state and exception monad *)

(** A computation ends with a value or with an exception raised, and with
    a state. *)
Definition M (A : Type) : Type := state -> result A * state.

Definition ret {A} (a : A) : M A := fun s => (Ok a, s).

Definition bind {A B} (m : M A) (k : A -> M B) : M B :=
  fun s =>
    match m s with
    | (Ok a, s') => k a s'
    | (Raise e, s') => (Raise e, s')
    end.

Definition raise {A} (e : exn) : M A := fun s => (Raise e, s).

Definition lift {A} (r : result A) : M A := fun s => (r, s).

Notation "x <- m ;; k" := (bind m (fun x => k))
  (at level 61, m at next level, right associativity).
Notation "m ;; k" := (bind m (fun _ => k))
  (at level 61, right associativity).

Definition emit (ev : event) : M unit :=
  fun s => (Ok tt, mkState (trace s ++ [ev]) (reads s) (worktree s)).

(** [try: m  except Exception: (nothing)]: [None] when an exception of class
    [Exception] was caught; any other exception goes on. *)
Definition try_except_Exception {A} (m : M A) : M (option A) :=
  fun s =>
    match m s with
    | (Ok a, s') => (Ok (Some a), s')
    | (Raise e, s') =>
        if is_Exception e then (Ok None, s') else (Raise e, s')
    end.

(** [with tempfile.TemporaryDirectory() as workdir: body]: the directory is
    removed when the block is left, whichever way. *)
Definition with_TemporaryDirectory {A} (w : World) (body : str -> M A) : M A :=
  fun s =>
    let workdir := mkdtemp w in
    match emit (EvMkdtemp workdir) s with
    | (_, s1) =>
        match body workdir s1 with
        | (r, s2) => (r, snd (emit (EvCleanup workdir) s2))
        end
    end.

(** ** The collaborators' operations, with their effects *)

Definition shutil_copytree (w : World) (src dst : str) : M unit :=
  emit (EvCopytree src dst) ;; lift (copytree w src dst).

(** [pygit2.Repository(path)], the lookup of the head branch and
    [repo_obj.walk(commit.hex, pygit2.GIT_SORT_TIME)]: the commits the walker
    will yield. *)
Definition repo_walk (w : World) (path : str) : M (list Commit) :=
  emit (EvOpen path) ;; lift (walk w path).

(** [datetime.datetime.utcnow()] *)
Definition datetime_utcnow (w : World) : M datetime :=
  fun s => (Ok (utcnow w (reads s)),
            mkState (trace s) (S (reads s)) (worktree s)).

(** [repo_obj.checkout_tree(commit, strategy=...)]: the copy holds the tree
    of [commit] when the checkout returns; when it raises, what the copy
    holds is not known. *)
Definition repo_checkout_tree (w : World) (repo : str) (c : Commit) : M unit :=
  emit (EvCheckout repo c) ;;
  fun s =>
    match checkout_tree w c with
    | Ok _ => (Ok tt, mkState (trace s) (reads s) (Some c))
    | Raise e => (Raise e, mkState (trace s) (reads s) None)
    end.

(** [os.path.join(a, b)] *)
Definition os_path_join (a b : str) : str :=
  if startswith [SLASH] b then b
  else match a with
       | [] => b
       | _ => if endswith a [SLASH] then a ++ b else a ++ [SLASH] ++ b
       end.

(** [os.path.exists(path)] *)
Definition os_path_exists (w : World) (path : str) : M bool :=
  emit (EvExists path) ;;
  fun s => (Ok (path_exists w (worktree s) path), s).

(** [subprocess.check_output(command, cwd=cwd, stderr=subprocess.PIPE)] *)
Definition subprocess_check_output (w : World) (command : list str)
                                   (cwd : str) : M bytes :=
  emit (EvRun command cwd) ;;
  fun s => (check_output w (worktree s) command cwd, s).

(** [_log.error(msg)] *)
Definition log_error (msg : str) : M unit := emit (EvLogError msg).

(** [print(line)] *)
Definition print (line : str) : M unit := emit (EvPrint line).

(** ** [run_command] *)

Definition msg_return_code (command : list str) (returncode : Z) : str :=
  u "Command `" ++ join [SP] command
  ++ u "` return code: `" ++ str_of_Z returncode ++ u "`".

Definition msg_stdout (stdout : bytes) : str :=
  u "stdout:" ++ [LF] ++ u "-------" ++ [LF] ++ repr_bytes stdout.

Definition msg_stderr (stderr : bytes) : str :=
  u "stderr:" ++ [LF] ++ u "-------" ++ [LF] ++ repr_bytes stderr.

Definition run_command (w : World) (command : list str) (cwd : str) : M bytes :=
  fun s =>
    match subprocess_check_output w command cwd s with
    | (Raise (CalledProcessError returncode stdout stderr), s') =>
        (log_error (msg_return_code command returncode) ;;
         log_error (msg_stdout stdout) ;;
         log_error (msg_stderr stderr) ;;
         raise (Exception (u "Command failed to run"))) s'
    | other => other
    end.

(** ** [produce_changelog]: the walk *)

(** How an iteration of the [for] loop ends. *)
Inductive flow : Type :=
  | Continue
  | Break.

Definition rpm_command (name : str) : list str :=
  [ u "rpm"; u "--qf";
    u "%{name}  %{version}  %{release}" ++ [LF];
    u "--specfile"; name ++ u ".spec" ].

(** [text.strip().split("\n")[0].rsplit(".", 1)[0].split("  ")] *)
Definition fields (text : str) : key :=
  split (u "  ")
    (hd [] (rsplit [DOT] 1 (hd [] (split [LF] (strip text))))).

(** Lines 82-84:
    [tuple(output.decode("utf-8").strip().split("\n")[0]
                 .rsplit(".", 1)[0].split("  "))] *)
Definition parse_output (output : bytes) : result key :=
  rbind (decode_utf8 output) (fun text => Ok (fields text)).

(** The [for filename in files_changed] loop over the [ignore] flag. *)
Definition ignore_flag (files : list str) : bool :=
  fold_left
    (fun ignore filename =>
       if endswith_any filename [u ".spec"; u ".patch"] then false else ignore)
    files true.

(** [len(commit.parents) > 1] *)
Definition is_merge (commit : Commit) : bool :=
  (1 <? List.length (parents commit))%nat.

(** Lines 87-100, the relevance filter: the diff against the first parent
    (against the empty tree for a commit without parent), then
    [data[output].append(commit)] unless [ignore] stayed set. *)
Definition record_if_relevant (w : World) (repocopy : str) (commit : Commit)
                              (output : key) (data : dict) : M (flow * dict) :=
  d <- match parents commit with
       | p :: _ => emit (EvDiff repocopy commit) ;; lift (diff w p commit)
       | [] => emit (EvDiff repocopy commit) ;; lift (diff_to_tree w commit)
       end ;;
  if negb (files_changed d =? 0)%nat then
    if negb (ignore_flag (deltas d))
    then ret (Continue, dict_append output commit data)
    else ret (Continue, data)
  else
    ret (Continue, data).

(** Lines 69-100, the branch taken when the spec file is there: the query
    under [try], the parse and the relevance filter. *)
Definition resolve_and_record (w : World) (name repocopy : str)
                              (commit : Commit) (data : dict)
  : M (flow * dict) :=
  caught <- try_except_Exception
              (run_command w (rpm_command name) repocopy) ;;
  match caught with
  | None => ret (Continue, data)
  | Some output =>
      output <- lift (parse_output output) ;;
      let nvr := join [DASH] output in
      record_if_relevant w repocopy commit output data
  end.

(** Lines 65-103: the checkout, the test for the spec file and its two
    branches. *)
Definition process_commit (w : World) (name repocopy : str)
                          (commit : Commit) (data : dict) : M (flow * dict) :=
  repo_checkout_tree w repocopy commit ;;
  present <- os_path_exists w (os_path_join repocopy (name ++ u ".spec")) ;;
  if present : bool then
    resolve_and_record w name repocopy commit data
  else
    print (u "No more spec file, bailing") ;;
    ret (Break, data).

(** The body of [for commit in repo_obj.walk(...)]: lines 56-63, the two
    gates, then [process_commit]. *)
Definition loop_body (w : World) (name repocopy : str)
                     (commit : Commit) (data : dict) : M (flow * dict) :=
  if is_merge commit then
    ret (Continue, data)
  else
    commit_dt <- lift (utcfromtimestamp (commit_time commit)) ;;
    now <- datetime_utcnow w ;;
    if commit_dt <? now - timedelta_days 730 then
      ret (Break, data)
    else
      process_commit w name repocopy commit data.

Fixpoint walk_loop (w : World) (name repocopy : str)
                   (commits : list Commit) (data : dict) : M dict :=
  match commits with
  | [] => ret data
  | commit :: rest =>
      emit (EvNext commit) ;;
      r <- loop_body w name repocopy commit data ;;
      match r with
      | (Continue, data') => walk_loop w name repocopy rest data'
      | (Break, data') => ret data'
      end
  end.

(** ** [produce_changelog]: the rendering *)

(** [t[i]] on a tuple. *)
Definition getitem (t : key) (i : nat) : result str :=
  match nth_error t i with
  | Some x => Ok x
  | None => Raise IndexError
  end.

(** The header without the version and release. *)
Definition header (commit_dt : datetime) (commit : Commit) : str :=
  u "* " ++ strftime_abdY commit_dt ++ [SP] ++ author_name commit
  ++ u " <" ++ author_email commit ++ u ">".

(** What follows it on the header of the last commit of a group. *)
Definition suffix (version release : str) : str :=
  u " - " ++ version ++ [DASH] ++ release.

(** [wrapper.fill(commit.message.split("\n")[0].strip("- "))] *)
Definition wrapped_message (w : World) (commit : Commit) : str :=
  fill w (strip_chars (u "- ") (hd [] (split [LF] (message commit)))).

(** [for idx, commit in enumerate(reversed(commits))], from position [idx]
    on; [n] is [len(commits)] and [todo] what is left of
    [reversed(commits)]. *)
Fixpoint render_commits (w : World) (nvr : key) (n idx : nat)
                        (todo : list Commit) (lines : list str)
  : result (list str) :=
  match todo with
  | [] => Ok lines
  | commit :: todo' =>
      let last_commit := (idx + 1 =? n)%nat in
      rbind (utcfromtimestamp (commit_time commit)) (fun commit_dt =>
      let message := wrapped_message w commit in
      rbind (if last_commit
             then rbind (getitem nvr 1) (fun version =>
                  rbind (getitem nvr 2) (fun release =>
                  Ok (header commit_dt commit ++ suffix version release)))
             else Ok (header commit_dt commit)) (fun head =>
      render_commits w nvr n (S idx) todo'
        (lines ++ [head] ++ [u "- " ++ message] ++ [[]])))
  end.

(** [for nvr, commits in data.items()] *)
Fixpoint render (w : World) (data : dict) (lines : list str)
  : result (list str) :=
  match data with
  | [] => Ok lines
  | (nvr, commits) :: data' =>
      rbind (render_commits w nvr (List.length commits) 0 (rev commits) lines)
            (fun lines' => render w data' lines')
  end.

(** ** [produce_changelog] *)

(** Lines 46-103, the [with] block: what [data] holds when it is left. *)
Definition collect (w : World) (repopath : str) : M dict :=
  let name := basename repopath in
  with_TemporaryDirectory w (fun workdir =>
    let repocopy := workdir ++ u "/" ++ name in
    shutil_copytree w repopath repocopy ;;
    commits <- repo_walk w repocopy ;;
    walk_loop w name repocopy commits []).

Definition produce_changelog (w : World) (repopath : str) : M (list str) :=
  data <- collect w repopath ;;
  lift (render w data []).

(** ** [main] *)

(** [main(args)], where [args.worktree_path] is [worktree_path]: the
    changelog is printed as one text, its lines joined by line feeds. *)
Definition main (w : World) (worktree_path : str) : M unit :=
  let repopath := worktree_path in
  changelog <- produce_changelog w repopath ;;
  print (join [LF] changelog).

(** ** Vocabulary of the statements *)

Definition is_ok {A} (r : result A) : bool :=
  match r with
  | Ok _ => true
  | Raise _ => false
  end.

(** [utcfromtimestamp] accepts the commit's timestamp. *)
Definition representable (c : Commit) : bool :=
  is_ok (utcfromtimestamp (commit_time c)).

(** "Now minus 730 days" at the clock reading the state [s] is about to make. *)
Definition cutoff (w : World) (s : state) : datetime :=
  utcnow w (reads s) - timedelta_days 730.

Definition strictly_older (w : World) (s : state) (c : Commit) : bool :=
  match utcfromtimestamp (commit_time c) with
  | Ok commit_dt => commit_dt <? cutoff w s
  | Raise _ => false
  end.

Definition within_window (w : World) (s : state) (c : Commit) : bool :=
  match utcfromtimestamp (commit_time c) with
  | Ok commit_dt => negb (commit_dt <? cutoff w s)
  | Raise _ => false
  end.

(** The state once the clock has been read. *)
Definition tick (s : state) : state :=
  mkState (trace s) (S (reads s)) (worktree s).

(** The path tested with [os.path.exists]. *)
Definition spec_path (name repocopy : str) : str :=
  os_path_join repocopy (name ++ u ".spec").

(** The commit passes both gates and its checkout succeeds. *)
Definition checked_out (w : World) (s : state) (c : Commit) : bool :=
  negb (is_merge c) && within_window w s c && is_ok (checkout_tree w c).

(** ... and the spec file is there: the commit is handed to the query. *)
Definition queried (w : World) (name repocopy : str) (s : state)
                   (c : Commit) : bool :=
  checked_out w s c && path_exists w (Some c) (spec_path name repocopy).

(** The diff the relevance filter looks at. *)
Definition filter_diff (w : World) (c : Commit) : result Diff :=
  match parents c with
  | p :: _ => diff w p c
  | [] => diff_to_tree w c
  end.

Definition touches_packaging (filename : str) : bool :=
  endswith_any filename [u ".spec"; u ".patch"].

Definition relevant (d : Diff) : bool :=
  negb (files_changed d =? 0)%nat && existsb touches_packaging (deltas d).

Definition dict_commits (data : dict) : list Commit :=
  flat_map snd data.



(** The three lines of one changelog entry; [sfx] is what follows the
    header. *)
Definition entry (w : World) (sfx : str) (c : Commit) : list str :=
  [ header (commit_time c * MICRO) c ++ sfx;
    u "- " ++ wrapped_message w c;
    [] ].

(** The lines of a group whose commits are listed in walk order. *)
Definition group_lines (w : World) (nvr : key) (commits : list Commit)
  : list str :=
  match commits with
  | [] => []
  | first_walked :: later_walked =>
      flat_map (entry w []) (rev later_walked)
      ++ entry w (suffix (nth 1 nvr []) (nth 2 nvr [])) first_walked
  end.

Definition well_formed_group (g : key * list Commit) : bool :=
  (3 <=? List.length (fst g))%nat && forallb representable (snd g).

(** One turn of the [for] loop: the walker yields [c], the body runs. *)
Definition iteration (w : World) (name repocopy : str) (c : Commit)
                     (data : dict) : M (flow * dict) :=
  emit (EvNext c) ;; loop_body w name repocopy c data.

(** The loop after [k] iterations that all went on to the next commit: the
    commits still to come, [data] and the state. *)
Fixpoint after_iterations (w : World) (name repocopy : str) (k : nat)
                          (commits : list Commit) (data : dict) (s : state)
  : option (list Commit * dict * state) :=
  match k with
  | O => Some (commits, data, s)
  | S k' =>
      match commits with
      | [] => None
      | commit :: rest =>
          match iteration w name repocopy commit data s with
          | (Ok (Continue, data'), s') =>
              after_iterations w name repocopy k' rest data' s'
          | _ => None
          end
      end
  end.

(** [repocopy]: where the copy of the repository is. *)
Definition copy_of (w : World) (repopath : str) : str :=
  mkdtemp w ++ u "/" ++ basename repopath.

(** The state in which the walk starts: the directory made, the copy taken
    and the repository opened. *)
Definition at_start (w : World) (repopath : str) (s : state) : state :=
  mkState (trace s ++ [EvMkdtemp (mkdtemp w);
                       EvCopytree repopath (copy_of w repopath);
                       EvOpen (copy_of w repopath)])
          (reads s) (worktree s).

(** The effects one iteration on [c] may have. *)
Definition body_event (name repocopy : str) (c : Commit) (ev : event) : Prop :=
  match ev with
  | EvCheckout repo c' => repo = repocopy /\ c' = c /\ is_merge c = false
  | EvExists p => p = spec_path name repocopy
  | EvRun command cwd => command = rpm_command name /\ cwd = repocopy
  | EvDiff repo c' => repo = repocopy /\ c' = c
  | EvLogError _ | EvPrint _ => True
  | _ => False
  end.

Definition walk_event (name repocopy : str) (cs : list Commit) (ev : event)
  : Prop :=
  exists c, In c cs /\ (ev = EvNext c \/ body_event name repocopy c ev).

(** An effect that stays within the copy. *)
Definition on_copy (name repocopy : str) (ev : event) : Prop :=
  match ev with
  | EvOpen p => p = repocopy
  | EvNext _ => True
  | EvCheckout repo _ => repo = repocopy
  | EvExists p => p = spec_path name repocopy
  | EvRun _ cwd => cwd = repocopy
  | EvDiff repo _ => repo = repocopy
  | EvLogError _ | EvPrint _ => True
  | EvMkdtemp _ | EvCopytree _ _ | EvCleanup _ => False
  end.

(** [m] only appends to the trace, events that satisfy [P], and a value it
    returns satisfies [Q]. *)
Definition steps {A} (P : event -> Prop) (m : M A) (Q : A -> Prop) : Prop :=
  forall s,
    (exists evs, trace (snd (m s)) = trace s ++ evs /\ Forall P evs)
    /\ (forall a, fst (m s) = Ok a -> Q a).

(** What an iteration on [c] can do to [data]. *)
Definition outcome (c : Commit) (data : dict) (r : flow * dict) : Prop :=
  snd r = data
  \/ (is_merge c = false /\ representable c = true
      /\ exists k, snd r = dict_append k c data).


(** The commits in [data] have timestamps [utcfromtimestamp] accepts. *)
Definition all_representable (cs : list Commit) (data : dict) : Prop :=
  forall k l, In (k, l) data -> forallb representable l = true.

(** No commit in [data] is a merge commit. *)
Definition no_merge (cs : list Commit) (data : dict) : Prop :=
  forall x, In x (dict_commits data) -> is_merge x = false.

Definition no_space (s : str) : bool := forallb (fun c => negb (isspace c)) s.

(** What follows the first line of an output: nothing, or a line feed and
    the other lines. *)
Definition line_end (tail : str) : bool :=
  match tail with
  | [] => true
  | c :: _ => N.eqb c LF
  end.

(** What [run_command] logs when [check_output] raises [e]. *)
Definition failure_log (command : list str) (e : exn) : list event :=
  match e with
  | CalledProcessError returncode stdout stderr =>
      [ EvLogError (msg_return_code command returncode);
        EvLogError (msg_stdout stdout);
        EvLogError (msg_stderr stderr) ]
  | _ => []
  end.

(** The state in which the spec file has just been looked for. *)
Definition at_spec_test (name repocopy : str) (c : Commit) (s : state)
  : state :=
  mkState (trace s ++ [EvNext c; EvCheckout repocopy c;
                       EvExists (spec_path name repocopy)])
          (S (reads s)) (Some c).

(** [s] with more events in its trace. *)
Definition record (evs : list event) (s : state) : state :=
  mkState (trace s ++ evs) (reads s) (worktree s).

Definition no_char (x : char) (s : str) : bool :=
  forallb (fun c => negb (N.eqb c x)) s.

(** In the words of the specification, not of the code: the path is some
    text followed by [sfx]; it ends in [.spec] or in [.patch]. *)
Definition ends_in (sfx path : str) : Prop :=
  exists stem, path = stem ++ sfx.

Definition packaging_path (path : str) : Prop :=
  ends_in (u ".spec") path \/ ends_in (u ".patch") path.

(** Every group holds a commit at least, and holds only commits whose
    timestamps [utcfromtimestamp] accepts. *)
Definition sound_groups (cs : list Commit) (data : dict) : Prop :=
  forall k l, In (k, l) data -> l <> [] /\ forallb representable l = true.

(** ** Reading a logged [repr] back

    What a reader of the log does with [b'...']: the value of a hexadecimal
    digit, the octets written between the quotes up to the closing one, with
    the escapes undone, and the octets of a whole [repr]. *)
Definition unhexdigit (c : char) : N :=
  if (c <? 58)%N then (c - 48)%N else (c - 87)%N.

Fixpoint bytes_of_body (quote : char) (s : str) : option (list N) :=
  match s with
  | [] => None
  | c :: r =>
      if (c =? quote)%N then
        match r with
        | [] => Some []
        | _ :: _ => None
        end
      else if (c =? 92)%N then
        match r with
        | [] => None
        | e :: r1 =>
            if ((e =? quote) || (e =? 92))%N
            then option_map (cons e) (bytes_of_body quote r1)
            else if (e =? 116)%N
            then option_map (cons 9%N) (bytes_of_body quote r1)
            else if (e =? 110)%N
            then option_map (cons 10%N) (bytes_of_body quote r1)
            else if (e =? 114)%N
            then option_map (cons 13%N) (bytes_of_body quote r1)
            else if (e =? 120)%N then
              match r1 with
              | h1 :: h2 :: r2 =>
                  option_map (cons (16 * unhexdigit h1 + unhexdigit h2)%N)
                             (bytes_of_body quote r2)
              | _ => None
              end
            else None
        end
      else option_map (cons c) (bytes_of_body quote r)
  end.

Definition bytes_of_repr (s : str) : option (list N) :=
  match s with
  | prefix :: quote :: body =>
      if (prefix =? 98)%N then bytes_of_body quote body else None
  | _ => None
  end.

(** A printable ASCII octet other than the single quote and the
    backslash: [repr] writes it as it is. *)
Definition plain (x : Byte.byte) : bool :=
  let n := Byte.to_N x in
  ((32 <=? n) && (n <? 127) && negb (n =? 39) && negb (n =? 92))%N.

(** ** Scripted worlds

    A world built from a table: for each commit of the walk, what its
    checkout, the test for the spec file, the query and the diff answer. *)

Record Answers : Type := mkAnswers {
  on_checkout : result unit;
  spec_present : bool;
  on_query : result bytes;
  on_diff : result Diff
}.

Abbreviation script := (list (Commit * Answers)) (only parsing).

Fixpoint answers_of (sc : script) (id : str) : option Answers :=
  match sc with
  | [] => None
  | (c, a) :: sc' => if str_eqb (hex c) id then Some a else answers_of sc' id
  end.

Definition scripted (now : datetime) (sc : script) : World :=
  let ask {A} (c : Commit) (f : Answers -> A) (dflt : A) : A :=
    match answers_of sc (hex c) with
    | Some a => f a
    | None => dflt
    end in
  {| mkdtemp := u "/tmp/tmpq1w2e3";
     copytree := fun _ _ => Ok tt;
     walk := fun _ => Ok (map fst sc);
     utcnow := fun _ => now;
     checkout_tree := fun c => ask c on_checkout (Raise GitError);
     path_exists := fun wt _ =>
       match wt with
       | Some c => ask c spec_present false
       | None => false
       end;
     check_output := fun wt _ _ =>
       match wt with
       | Some c => ask c on_query (Raise FileNotFoundError)
       | None => Raise FileNotFoundError
       end;
     diff := fun _ c => ask c on_diff (Raise GitError);
     diff_to_tree := fun c => ask c on_diff (Raise GitError);
     fill := fun s => s |}.

(** ** Concrete histories

    The messages are short single lines, which [textwrap] leaves as they
    are: the scripted worlds take the identity for [fill]. *)

Module Scenario.

Definition nl : string := String "010"%char EmptyString.

(** Sun Sep 13 2020, 12:26:40 UTC. *)
Definition NOW : datetime := 1600000000 * MICRO.

Definition repopath : str := u "/home/me/pkg".
Definition repocopy : str := u "/tmp/tmpq1w2e3/pkg".

Definition alice : Commit :=
  mkCommit (u "a1") [u "b2"] 1599000000
           (u "Alice") (u "alice@example.com") (u "Update to 1.0").
Definition bob : Commit :=
  mkCommit (u "b2") [u "c3"] 1598000000
           (u "Bob") (u "bob@example.com") (u "Add a patch").
Definition carol : Commit :=
  mkCommit (u "c3") [u "d4"] 1597000000
           (u "Carol") (u "carol@example.com") (u "Fix the build").
Definition dave : Commit :=
  mkCommit (u "d4") [u "e5"] 1596000000
           (u "Dave") (u "dave@example.com") (u "Rebuild").
Definition erin : Commit :=
  mkCommit (u "e5") [] 1595000000
           (u "Erin") (u "erin@example.com") (u "Initial import").

(** A merge commit within the window, one outside it, and two commits
    without second parent outside the window (July 2017, May 2014). *)
Definition merged : Commit :=
  mkCommit (u "m0") [u "a1"; u "x9"] 1599500000
           (u "Mallory") (u "mallory@example.com") (u "Merge branch").
Definition old_merge : Commit :=
  mkCommit (u "m1") [u "o2"; u "x8"] 1500000000
           (u "Mallory") (u "mallory@example.com") (u "Merge branch").
Definition ancient : Commit :=
  mkCommit (u "o2") [u "o3"] 1500000000
           (u "Oscar") (u "oscar@example.com") (u "Old change").
Definition older : Commit :=
  mkCommit (u "o3") [] 1400000000
           (u "Oscar") (u "oscar@example.com") (u "Older change").

Definition touching (paths : list str) : result Diff :=
  Ok (mkDiff (List.length paths) paths).

(** The query prints [out]; the diff lists [paths]. *)
Definition answering (out : string) (paths : list str) : Answers :=
  mkAnswers (Ok tt) true (Ok (b out)) (touching paths).

Definition failing (e : exn) : Answers :=
  mkAnswers (Ok tt) true (Raise e) (touching [u "pkg.spec"]).

Definition without_spec : Answers :=
  mkAnswers (Ok tt) false (Raise FileNotFoundError) (touching [u "README"]).

Definition fc32 : string := "pkg  1.0  1.fc32" ++ nl.

(** Two commits of one release. *)
Definition one_release : World :=
  scripted NOW [ (alice, answering fc32 [u "pkg.spec"]);
                 (bob, answering fc32 [u "fix.patch"]) ].

(** The release has no dot. *)
Definition plain_release : bytes := b ("pkg  1.0  1" ++ nl).

Definition no_dist_tag : World :=
  scripted NOW [ (alice, answering ("pkg  1.0  1" ++ nl) [u "pkg.spec"]) ].

(** The query prints two fields only. *)
Definition two_fields : World :=
  scripted NOW [ (alice, answering ("pkg  1" ++ nl) [u "pkg.spec"]) ].

(** The query prints four fields. *)
Definition four_fields : World :=
  scripted NOW
    [ (alice, answering ("pkg  1.0  1  extra.fc32" ++ nl) [u "pkg.spec"]) ].

(** A merge commit older than the cutoff comes before an older commit. *)
Definition merge_beyond_cutoff : World :=
  scripted NOW [ (old_merge, answering fc32 [u "pkg.spec"]);
                 (older, answering fc32 [u "pkg.spec"]) ].

Definition beyond_cutoff : World :=
  scripted NOW [ (alice, answering fc32 [u "pkg.spec"]);
                 (ancient, answering fc32 [u "pkg.spec"]);
                 (older, answering fc32 [u "pkg.spec"]) ].

Definition with_merge : World :=
  scripted NOW [ (merged, answering fc32 [u "pkg.spec"]);
                 (alice, answering fc32 [u "pkg.spec"]) ].

(** [alice] touches the spec file, [bob] a README only, [carol] a patch. *)
Definition mixed_files : World :=
  scripted NOW [ (alice, answering fc32 [u "pkg.spec"]);
                 (bob, answering fc32 [u "README"; u "sources"]);
                 (carol, answering fc32 [u "README"; u "fix.patch"]) ].

(** The query exits with status 1 at [bob]. *)
Definition query_exits_1 : World :=
  scripted NOW
    [ (alice, answering fc32 [u "pkg.spec"]);
      (bob, failing (CalledProcessError 1 (b "pkg") (b "error: bad spec")));
      (carol, answering fc32 [u "pkg.spec"]) ].

(** There is no [rpm] executable when [bob] is queried. *)
Definition no_executable : World :=
  scripted NOW [ (alice, answering fc32 [u "pkg.spec"]);
                 (bob, failing FileNotFoundError);
                 (carol, answering fc32 [u "pkg.spec"]) ].

(** The checkout of [bob] fails. *)
Definition checkout_fails : World :=
  scripted NOW
    [ (alice, answering fc32 [u "pkg.spec"]);
      (bob, mkAnswers (Raise GitError) true (Ok (b fc32))
                      (touching [u "pkg.spec"])) ].

(** The run is interrupted while [bob] is queried. *)
Definition interrupted : World :=
  scripted NOW [ (alice, answering fc32 [u "pkg.spec"]);
                 (bob, failing KeyboardInterrupt);
                 (carol, answering fc32 [u "pkg.spec"]) ].

(** A commit dated one second before the year 1, long before the cutoff,
    after [alice]. *)
Definition year_zero : Commit :=
  mkCommit (u "y0") [] (MIN_TIMESTAMP - 1)
           (u "Yves") (u "yves@example.com") (u "Import history").

Definition before_the_calendar : World :=
  scripted NOW [ (alice, answering fc32 [u "pkg.spec"]);
                 (year_zero, answering fc32 [u "pkg.spec"]) ].

(** A commit dated one second after the year 9999, before [alice]. *)
Definition year_10000 : Commit :=
  mkCommit (u "y1") [u "a1"] (MAX_TIMESTAMP + 1)
           (u "Yves") (u "yves@example.com") (u "From the future").

Definition after_the_calendar : World :=
  scripted NOW [ (year_10000, answering fc32 [u "pkg.spec"]);
                 (alice, answering fc32 [u "pkg.spec"]) ].

(** [alice] has a release without dot; [erin], next, has no [pkg.spec]. *)
Definition no_dist_tag_then_no_spec : World :=
  scripted NOW [ (alice, answering ("pkg  1.0  1" ++ nl) [u "pkg.spec"]);
                 (erin, without_spec) ].

(** The fifth commit back has no [pkg.spec] yet. *)
Definition spec_appears : World :=
  scripted NOW [ (alice, answering fc32 [u "pkg.spec"]);
                 (bob, answering fc32 [u "fix.patch"]);
                 (carol, answering fc32 [u "pkg.spec"]);
                 (dave, answering fc32 [u "pkg.spec"]);
                 (erin, without_spec) ].

End Scenario.

(** ** Vocabulary of the further statements *)

(** The commits the walker handed over, in a piece of trace. *)
Definition visited (evs : list event) : list Commit :=
  flat_map (fun ev => match ev with EvNext c => [c] | _ => [] end) evs.

(** Nothing goes past the turn on [c] once it is queried: the query raises
    an exception the [except] clause catches, or it answers, its output
    decodes and the diff is answered. *)
Definition handled (w : World) (name repocopy : str) (c : Commit) : bool :=
  match check_output w (Some c) (rpm_command name) repocopy with
  | Raise e => is_Exception e
  | Ok output => is_ok (parse_output output) && is_ok (filter_diff w c)
  end.

(** The tuple [c] is recorded under, when it is recorded. *)
Definition kept (w : World) (name repocopy : str) (c : Commit)
  : option (list (list N)) :=
  match check_output w (Some c) (rpm_command name) repocopy with
  | Ok output =>
      match parse_output output, filter_diff w c with
      | Ok nvr, Ok d => if relevant d then Some nvr else None
      | _, _ => None
      end
  | Raise _ => None
  end.

(** What the turn on a queried commit makes of [data]. *)
Definition recorded (w : World) (name repocopy : str) (c : Commit)
                    (data : dict) : dict :=
  match kept w name repocopy c with
  | Some nvr => dict_append nvr c data
  | None => data
  end.

(** The commits recorded under [k]: none when [k] is not a key. *)
Definition group_of (k : key) (data : dict) : list Commit :=
  match find (fun g => key_eqb k (fst g)) data with
  | Some g => snd g
  | None => []
  end.

(** Lines that go by three: one that begins with a star and a blank, one
    that begins with a dash and a blank, an empty one. *)
Fixpoint changelog_shaped (lines : list str) : bool :=
  match lines with
  | [] => true
  | head :: body :: blank :: rest =>
      startswith (u "* ") head && startswith (u "- ") body
      && match blank with [] => true | _ => false end
      && changelog_shaped rest
  | _ => false
  end.

(** A computation that does not read the clock leaves the count of the
    readings as it found it. *)
Definition keeps_clock {A : Type} (m : M A) : Prop :=
  forall s, reads (snd (m s)) = reads s.

(** The commits of a list that are not merge commits. *)
Definition non_merges (cs : list Commit) : list Commit :=
  filter (fun c => negb (is_merge c)) cs.

(** ** Further histories *)

Module Cases.

(** The query of [Scenario.bob] prints a byte that is not UTF-8. *)
Definition undecodable : World :=
  scripted Scenario.NOW
    [ (Scenario.alice, Scenario.answering Scenario.fc32 [u "pkg.spec"]);
      (Scenario.bob, mkAnswers (Ok tt) true (Ok [Byte.xff])
                               (Scenario.touching [u "pkg.spec"]));
      (Scenario.carol, Scenario.answering Scenario.fc32 [u "pkg.spec"]) ].

(** The diff of [Scenario.bob] fails. *)
Definition diff_fails : World :=
  scripted Scenario.NOW
    [ (Scenario.alice, Scenario.answering Scenario.fc32 [u "pkg.spec"]);
      (Scenario.bob, mkAnswers (Ok tt) true (Ok (b Scenario.fc32))
                               (Raise GitError));
      (Scenario.carol, Scenario.answering Scenario.fc32 [u "pkg.spec"]) ].

(** A commit dated after the year 9999. *)
Definition far_future : Commit :=
  mkCommit (u "f0") [u "a1"] (MAX_TIMESTAMP + 1)
           (u "Frank") (u "frank@example.com") (u "From the future").

(** A commit dated at the last second a 64-bit [time_t] holds. *)
Definition end_of_time : Commit :=
  mkCommit (u "f1") [u "a1"] MAX_TIME_T
           (u "Frank") (u "frank@example.com") (u "At the end of time").

Definition with_far_future : World :=
  scripted Scenario.NOW
    [ (far_future, Scenario.answering Scenario.fc32 [u "pkg.spec"]);
      (Scenario.alice, Scenario.answering Scenario.fc32 [u "pkg.spec"]) ].

(** Merge commits only. *)
Definition merges_only : World :=
  scripted Scenario.NOW
    [ (Scenario.merged, Scenario.answering Scenario.fc32 [u "pkg.spec"]);
      (Scenario.old_merge, Scenario.answering Scenario.fc32 [u "pkg.spec"]) ].

(** The copy cannot be taken; the repository cannot be opened. *)
Definition copy_fails : World :=
  mkWorld (mkdtemp Scenario.one_release)
          (fun _ _ => Raise PermissionError)
          (walk Scenario.one_release) (utcnow Scenario.one_release)
          (checkout_tree Scenario.one_release)
          (path_exists Scenario.one_release)
          (check_output Scenario.one_release)
          (diff Scenario.one_release) (diff_to_tree Scenario.one_release)
          (fill Scenario.one_release).

Definition open_fails : World :=
  mkWorld (mkdtemp Scenario.one_release)
          (copytree Scenario.one_release)
          (fun _ => Raise GitError) (utcnow Scenario.one_release)
          (checkout_tree Scenario.one_release)
          (path_exists Scenario.one_release)
          (check_output Scenario.one_release)
          (diff Scenario.one_release) (diff_to_tree Scenario.one_release)
          (fill Scenario.one_release).

(** A message with a body, its first line written as a list item. *)
Definition with_body : Commit :=
  mkCommit (u "g7") [u "a1"] 1599100000
           (u "Grace") (u "grace@example.com")
           (u "- Fix the tests -" ++ [LF] ++ [LF] ++ u "They were broken.").

(** Two releases: [Scenario.alice] and [Scenario.carol] of [1.0-2],
    [Scenario.bob] of [1.0-1] in between. *)
Definition two_releases : World :=
  scripted Scenario.NOW
    [ (Scenario.alice,
       Scenario.answering ("pkg  1.0  2.fc32" ++ Scenario.nl) [u "pkg.spec"]);
      (Scenario.bob,
       Scenario.answering ("pkg  1.0  1.fc32" ++ Scenario.nl) [u "fix.patch"]);
      (Scenario.carol,
       Scenario.answering ("pkg  1.0  2.fc32" ++ Scenario.nl) [u "pkg.spec"]) ].

End Cases.

(** * Properties *)

(** ** The text operations on examples *)

Example split_double_space :
  split (u "  ") (u "a   b") = [u "a"; u " b"]
  /\ split (u "  ") (u "a  ") = [u "a"; []]
  /\ split (u "  ") [] = [[]].
Proof. repeat split. Qed.

Example rsplit_last_dot :
  rsplit [DOT] 1 (u "pkg  1.0  1.fc32") = [u "pkg  1.0  1"; u "fc32"]
  /\ rsplit [DOT] 1 (u "pkg") = [u "pkg"]
  /\ rsplit (u "aa") 1 (u "xaaay") = [u "xa"; u "y"].
Proof. repeat split. Qed.

Example strip_examples :
  strip (u "  a b " ++ [LF]) = u "a b"
  /\ strip_chars (u "- ") (u "- Update to 1.0 -") = u "Update to 1.0".
Proof. repeat split. Qed.

Example endswith_examples :
  touches_packaging (u "fix.patch") = true
  /\ touches_packaging (u "pkg.spec") = true
  /\ touches_packaging (u "spec") = false
  /\ touches_packaging (u "pkg.spec.in") = false.
Proof. repeat split. Qed.

Example basename_examples :
  basename (u "/home/me/pkg") = u "pkg"
  /\ basename (u "pkg") = u "pkg"
  /\ basename (u "/home/me/pkg/") = [].
Proof. repeat split. Qed.

Example decode_utf8_examples :
  decode_utf8 (b "pkg") = Ok (u "pkg")
  /\ decode_utf8 [Byte.xc3; Byte.xa9] = Ok [233%N]
  /\ decode_utf8 [Byte.xe2; Byte.x82; Byte.xac] = Ok [8364%N]
  /\ decode_utf8 [Byte.xc0; Byte.x80] = Raise UnicodeDecodeError
  /\ decode_utf8 [Byte.xed; Byte.xa0; Byte.x80] = Raise UnicodeDecodeError
  /\ decode_utf8 [Byte.xff] = Raise UnicodeDecodeError.
Proof. repeat split. Qed.

Example strftime_examples :
  strftime_abdY 0 = u "Thu Jan 01 1970"
  /\ strftime_abdY Scenario.NOW = u "Sun Sep 13 2020"
  /\ strftime_abdY (951782400 * MICRO) = u "Tue Feb 29 2000"
  /\ strftime_abdY (-1 * MICRO) = u "Wed Dec 31 1969".
Proof. repeat split. Qed.

Example utcfromtimestamp_range :
  utcfromtimestamp MAX_TIMESTAMP = Ok (MAX_TIMESTAMP * MICRO)
  /\ utcfromtimestamp (MAX_TIMESTAMP + 1) = Raise ValueError
  /\ utcfromtimestamp (MIN_TIMESTAMP - 1) = Raise ValueError
  /\ utcfromtimestamp 67768036191676799 = Raise ValueError
  /\ utcfromtimestamp 67768036191676800 = Raise OSError
  /\ utcfromtimestamp (-67768040609740800) = Raise ValueError
  /\ utcfromtimestamp (-67768040609740801) = Raise OSError
  /\ utcfromtimestamp (2 ^ 63 - 1) = Raise OSError
  /\ utcfromtimestamp (2 ^ 63) = Raise OverflowError
  /\ utcfromtimestamp (- 2 ^ 63) = Raise OSError
  /\ utcfromtimestamp (- 2 ^ 63 - 1) = Raise OverflowError.
Proof. repeat split. Qed.

(** ** Lemmas on text *)

Section Strip.

Variable p : char -> bool.

Lemma lstrip_by_all (a : str) :
  forallb p a = true -> lstrip_by p a = [].
Proof.
  induction a as [|c a IH]; simpl; [reflexivity|].
  intros H. apply andb_prop in H as [Hc Ha].
  rewrite Hc. auto.
Qed.

Lemma lstrip_by_app (a t : str) :
  lstrip_by p (a ++ t)
  = if forallb p a then lstrip_by p t else lstrip_by p a ++ t.
Proof.
  induction a as [|c a IH]; simpl; [reflexivity|].
  destruct (p c); simpl; [exact IH | reflexivity].
Qed.

(** Nothing is stripped on the right of a character that stays. *)
Lemma rstrip_by_after (a : str) (z : char) (t : str) :
  p z = false ->
  rstrip_by p ((a ++ [z]) ++ t) = (a ++ [z]) ++ rstrip_by p t.
Proof.
  intros Hz. unfold rstrip_by.
  rewrite rev_app_distr, lstrip_by_app.
  rewrite (rev_app_distr a [z]). simpl rev at 2. simpl app at 1.
  destruct (forallb p (rev t)) eqn:Hall.
  - rewrite (lstrip_by_all _ Hall). simpl lstrip_by. rewrite Hz.
    simpl. rewrite rev_involutive, app_nil_r. reflexivity.
  - rewrite rev_app_distr. simpl rev at 1.
    rewrite rev_involutive. reflexivity.
Qed.

(** What is left of [c :: t] starts with [c], unless nothing is left. *)
Lemma rstrip_by_cons (c : char) (t : str) :
  rstrip_by p (c :: t) = [] \/ exists t', rstrip_by p (c :: t) = c :: t'.
Proof.
  unfold rstrip_by. simpl rev. rewrite lstrip_by_app.
  destruct (forallb p (rev t)).
  - simpl. destruct (p c); [left | right; exists []]; reflexivity.
  - right. rewrite rev_app_distr. simpl. eauto.
Qed.

End Strip.

Lemma no_space_cons (c : char) (s : str) :
  no_space (c :: s) = true -> isspace c = false /\ no_space s = true.
Proof.
  unfold no_space. simpl. intros H. apply andb_prop in H as [Hc Hs].
  split; [now apply negb_true_iff in Hc | exact Hs].
Qed.

Lemma no_space_app (s t : str) :
  no_space (s ++ t) = no_space s && no_space t.
Proof. unfold no_space. apply forallb_app. Qed.

Lemma no_space_no_char (x : char) (s : str) :
  isspace x = true -> no_space s = true -> no_char x s = true.
Proof.
  intros Hx. unfold no_space, no_char.
  induction s as [|c s IH]; simpl; [reflexivity|].
  intros H. apply andb_prop in H as [Hc Hs].
  rewrite (IH Hs), andb_true_r.
  apply negb_true_iff. apply negb_true_iff in Hc.
  destruct (N.eqb_spec c x); [congruence | reflexivity].
Qed.

(** A text without white space that is not empty ends with a character
    that [strip] leaves. *)
Lemma no_space_last (s : str) :
  s <> [] -> no_space s = true ->
  exists a z, s = a ++ [z] /\ isspace z = false.
Proof.
  intros Hne Hs. destruct (exists_last Hne) as [a [z ->]].
  exists a, z. split; [reflexivity|].
  rewrite no_space_app in Hs. apply andb_prop in Hs as [_ Hz].
  now apply no_space_cons in Hz.
Qed.

Section Split.

Variables (d : char) (sep' : str).

(** The scan passes over characters that cannot start the separator. *)
Lemma split_go_pass (m : option nat) (a rest cur : str) :
  no_char d a = true ->
  split_go (d :: sep') m 0 cur (a ++ rest)
  = split_go (d :: sep') m 0 (cur ++ a) rest.
Proof.
  revert cur. induction a as [|x a IH]; intros cur Ha.
  - now rewrite app_nil_r.
  - unfold no_char in Ha. simpl in Ha. apply andb_prop in Ha as [Hx Ha].
    apply negb_true_iff in Hx. rewrite N.eqb_sym in Hx.
    assert (Hnext : split_go (d :: sep') m 0 (cur ++ [x]) (a ++ rest)
                    = split_go (d :: sep') m 0 (cur ++ x :: a) rest).
    { rewrite (IH (cur ++ [x]) Ha), <- app_assoc. reflexivity. }
    destruct m as [[|n]|]; simpl; rewrite ?Hx; simpl.
    + destruct rest; simpl; rewrite <- ?app_assoc, ?app_nil_r; reflexivity.
    + exact Hnext.
    + exact Hnext.
Qed.

Lemma split_go_end (m : option nat) (a cur : str) :
  no_char d a = true ->
  split_go (d :: sep') m 0 cur a = [cur ++ a].
Proof.
  intros Ha. rewrite <- (app_nil_r a) at 1.
  rewrite split_go_pass by exact Ha. reflexivity.
Qed.

End Split.

Lemma no_char_rev (x : char) (s : str) : no_char x (rev s) = no_char x s.
Proof.
  unfold no_char. induction s as [|c s IH]; simpl; [reflexivity|].
  rewrite forallb_app, IH. simpl. rewrite andb_true_r. apply andb_comm.
Qed.

(** One character as separator. *)
Lemma split_go_at_char (d : char) (cur rest : str) :
  split_go [d] None 0 cur (d :: rest) = cur :: split_go [d] None 0 [] rest.
Proof. simpl. rewrite N.eqb_refl. reflexivity. Qed.

Lemma split_go_last_cut (d : char) (cur rest : str) :
  split_go [d] (Some 1%nat) 0 cur (d :: rest) = [cur; rest].
Proof. simpl. rewrite N.eqb_refl. simpl. destruct rest; reflexivity. Qed.

(** The character twice as separator. *)
Lemma split_go_at_pair (d : char) (cur rest : str) :
  split_go [d; d] None 0 cur (d :: d :: rest)
  = cur :: split_go [d; d] None 0 [] rest.
Proof. simpl. rewrite N.eqb_refl. reflexivity. Qed.

(** [split("\n")[0]] of a line followed by nothing or by a line feed. *)
Lemma first_line (line tail : str) :
  no_char LF line = true ->
  tail = [] \/ (exists rest, tail = LF :: rest) ->
  hd [] (split [LF] (line ++ tail)) = line.
Proof.
  intros Hline Htail. unfold split, split_max.
  rewrite split_go_pass by exact Hline. simpl app.
  destruct Htail as [-> | [rest ->]]; [reflexivity|].
  rewrite split_go_at_char. reflexivity.
Qed.

(** [rsplit(".", 1)[0]] when the last dot is followed by [tag]. *)
Lemma before_last_dot (pre tag : str) :
  no_char DOT tag = true ->
  hd [] (rsplit [DOT] 1 (pre ++ DOT :: tag)) = pre.
Proof.
  intros Htag. unfold rsplit, split_max.
  assert (Hrev : rev (pre ++ DOT :: tag) = rev tag ++ DOT :: rev pre).
  { rewrite rev_app_distr. simpl. rewrite <- app_assoc. reflexivity. }
  rewrite Hrev. change (rev [DOT]) with [DOT].
  rewrite split_go_pass.
  2:{ rewrite no_char_rev. exact Htag. }
  simpl app. rewrite split_go_last_cut. simpl.
  rewrite rev_involutive. reflexivity.
Qed.

(** [split("  ")] of three fields without blank. *)
Lemma three_fields (name version release : str) :
  no_char SP name = true -> no_char SP version = true ->
  no_char SP release = true ->
  split (u "  ") (name ++ u "  " ++ version ++ u "  " ++ release)
  = [name; version; release].
Proof.
  intros Hn Hv Hr. unfold split, split_max.
  change (u "  ") with [SP; SP].
  rewrite split_go_pass by exact Hn. simpl app. rewrite split_go_at_pair.
  rewrite split_go_pass by exact Hv. simpl app. rewrite split_go_at_pair.
  rewrite split_go_end by exact Hr. reflexivity.
Qed.

Lemma no_char_app (x : char) (s t : str) :
  no_char x (s ++ t) = no_char x s && no_char x t.
Proof. unfold no_char. apply forallb_app. Qed.

(** [strip] of a line that begins and ends with characters that stay. *)
Lemma strip_line (c : char) (a : str) (z : char) (tail : str) :
  isspace c = false -> isspace z = false ->
  tail = [] \/ (exists rest, tail = LF :: rest) ->
  exists tail',
    strip (((c :: a) ++ [z]) ++ tail) = ((c :: a) ++ [z]) ++ tail'
    /\ (tail' = [] \/ exists rest, tail' = LF :: rest).
Proof.
  intros Hc Hz Htail. unfold strip, strip_by.
  assert (Hl : lstrip_by isspace (((c :: a) ++ [z]) ++ tail)
               = ((c :: a) ++ [z]) ++ tail).
  { simpl. rewrite Hc. reflexivity. }
  rewrite Hl, rstrip_by_after by exact Hz.
  exists (rstrip_by isspace tail). split; [reflexivity|].
  destruct Htail as [-> | [rest ->]]; [left; reflexivity|].
  destruct (rstrip_by_cons isspace LF rest) as [H | [t' H]]; rewrite H; eauto.
Qed.

(** The fields of an output whose first line is
    [name  version  rel.tag]. *)
Lemma fields_of_first_line (name version rel tag tail : str) :
  name <> [] ->
  no_space name = true -> no_space version = true ->
  no_space rel = true -> no_space tag = true ->
  no_char DOT tag = true ->
  tail = [] \/ (exists rest, tail = LF :: rest) ->
  fields ((name ++ u "  " ++ version ++ u "  " ++ rel ++ DOT :: tag) ++ tail)
  = [name; version; rel].
Proof.
  intros Hne Hn Hv Hr Ht Hdot Htail.
  set (pre := name ++ u "  " ++ version ++ u "  " ++ rel).
  assert (Hline : name ++ u "  " ++ version ++ u "  " ++ rel ++ DOT :: tag
                  = pre ++ DOT :: tag).
  { unfold pre. rewrite <- !app_assoc. reflexivity. }
  rewrite Hline.
  assert (HLF : no_char LF (pre ++ DOT :: tag) = true).
  { unfold pre. rewrite !no_char_app.
    change (DOT :: tag) with ([DOT] ++ tag). rewrite no_char_app.
    rewrite (no_space_no_char LF name), (no_space_no_char LF version),
      (no_space_no_char LF rel), (no_space_no_char LF tag)
      by (assumption || reflexivity).
    reflexivity. }
  destruct name as [|c name']; [congruence|].
  destruct (no_space_cons _ _ Hn) as [Hc _].
  destruct (@no_space_last (DOT :: tag)) as [a [z [Hlast Hz]]].
  { discriminate. }
  { change (DOT :: tag) with ([DOT] ++ tag). rewrite no_space_app, Ht.
    reflexivity. }
  assert (Hshape : pre ++ DOT :: tag
                   = (c :: (name' ++ u "  " ++ version ++ u "  " ++ rel) ++ a)
                     ++ [z]).
  { rewrite Hlast. unfold pre. rewrite app_assoc. reflexivity. }
  unfold fields.
  destruct (strip_line c ((name' ++ u "  " ++ version ++ u "  " ++ rel) ++ a)
                       z tail Hc Hz Htail) as [tail' [Hstrip Htail']].
  rewrite Hshape, Hstrip, <- Hshape.
  rewrite first_line by assumption.
  rewrite before_last_dot by exact Hdot.
  unfold pre. apply three_fields;
    apply no_space_no_char; (assumption || reflexivity).
Qed.

(** ** Rules for [steps] *)

Section StepsRules.

Variable P : event -> Prop.

Lemma steps_ret {A} (a : A) (Q : A -> Prop) :
  Q a -> steps P (ret a) Q.
Proof.
  intros Ha s. split.
  - exists []. simpl. rewrite app_nil_r. auto.
  - simpl. intros a' Heq. now inversion Heq; subst.
Qed.

Lemma steps_lift {A} (r : result A) (Q : A -> Prop) :
  (forall a, r = Ok a -> Q a) -> steps P (lift r) Q.
Proof.
  intros Hr s. split.
  - exists []. simpl. rewrite app_nil_r. auto.
  - simpl. exact Hr.
Qed.

Lemma steps_emit (ev : event) :
  P ev -> steps P (emit ev) (fun _ => True).
Proof.
  intros Hev s. split; [|auto].
  exists [ev]. simpl. auto.
Qed.

(** An operation that leaves the trace as it is. *)
Lemma steps_silent {A} (m : M A) (Q : A -> Prop) :
  (forall s, trace (snd (m s)) = trace s) ->
  (forall s a, fst (m s) = Ok a -> Q a) ->
  steps P m Q.
Proof.
  intros Htrace HQ s. split; [|apply HQ].
  exists []. rewrite Htrace, app_nil_r. auto.
Qed.

Lemma steps_bind {A B} (m : M A) (k : A -> M B)
                 (Q : A -> Prop) (R : B -> Prop) :
  steps P m Q -> (forall a, Q a -> steps P (k a) R) ->
  steps P (bind m k) R.
Proof.
  intros Hm Hk s. unfold bind.
  destruct (Hm s) as [[evs [Htr Hevs]] HQ].
  destruct (m s) as [[a|e] s1]; simpl in *.
  - destruct (Hk a (HQ a eq_refl) s1) as [[evs' [Htr' Hevs']] HR].
    split; [|exact HR].
    exists (evs ++ evs'). rewrite Htr', Htr, app_assoc. split; [reflexivity|].
    apply Forall_app. auto.
  - split; [eauto | discriminate].
Qed.

Lemma steps_post {A} (m : M A) (Q Q' : A -> Prop) :
  steps P m Q -> (forall a, Q a -> Q' a) -> steps P m Q'.
Proof.
  intros Hm Himp s. destruct (Hm s) as [Htr HQ]. split; auto.
Qed.

Lemma steps_try {A} (m : M A) (Q : A -> Prop) :
  steps P m Q ->
  steps P (try_except_Exception m)
        (fun caught => match caught with Some a => Q a | None => True end).
Proof.
  intros Hm s. unfold try_except_Exception.
  destruct (Hm s) as [Htr HQ].
  destruct (m s) as [[a|e] s1]; simpl in *.
  - split; [exact Htr|]. intros o Heq. inversion Heq; subst. auto.
  - destruct (is_Exception e); simpl; split; auto; try discriminate.
    intros o Heq. inversion Heq; subst. exact I.
Qed.

End StepsRules.

Lemma steps_events {A} (P P' : event -> Prop) (m : M A) (Q : A -> Prop) :
  (forall ev, P ev -> P' ev) -> steps P m Q -> steps P' m Q.
Proof.
  intros Himp Hm s. destruct (Hm s) as [[evs [Htr Hevs]] HQ].
  split; [|exact HQ].
  exists evs. split; [exact Htr|].
  eapply Forall_impl; eauto.
Qed.

(** ** What one iteration does *)

Section Iteration.

Variables (w : World) (name repocopy : str) (c : Commit).

Lemma run_command_steps :
  steps (body_event name repocopy c)
        (run_command w (rpm_command name) repocopy) (fun _ => True).
Proof.
  intros s. unfold run_command, subprocess_check_output, bind, emit.
  simpl.
  destruct (check_output w (worktree s) (rpm_command name) repocopy)
    as [out|e]; simpl.
  - split; [|auto]. exists [EvRun (rpm_command name) repocopy].
    split; [reflexivity|]. repeat constructor.
  - destruct e; simpl;
      (split; [|auto; discriminate]);
      try (exists [EvRun (rpm_command name) repocopy];
           split; [reflexivity | repeat constructor]).
    eexists. rewrite <- !app_assoc. simpl. split; [reflexivity|].
    repeat constructor.
Qed.

Lemma repo_checkout_tree_steps :
  is_merge c = false ->
  steps (body_event name repocopy c)
        (repo_checkout_tree w repocopy c) (fun _ => True).
Proof.
  intros Hm. unfold repo_checkout_tree.
  eapply steps_bind with (Q := fun _ => True).
  { apply steps_emit. simpl. auto. }
  intros _ _. apply steps_silent; [|auto].
  intros s. destruct (checkout_tree w c); reflexivity.
Qed.

Lemma record_if_relevant_steps (output : key) (data : dict) :
  is_merge c = false -> representable c = true ->
  steps (body_event name repocopy c)
        (record_if_relevant w repocopy c output data) (outcome c data).
Proof.
  intros Hm Hrep. unfold record_if_relevant.
  eapply steps_bind with (Q := fun _ => True).
  { destruct (parents c);
      (eapply steps_bind with (Q := fun _ => True);
       [apply steps_emit; simpl; auto|]);
      intros; apply steps_lift; auto. }
  intros d _.
  destruct (negb (files_changed d =? 0)%nat);
    [destruct (negb (ignore_flag (deltas d)))|];
    apply steps_ret; unfold outcome; simpl; eauto 6.
Qed.

Lemma resolve_and_record_steps (data : dict) :
  is_merge c = false -> representable c = true ->
  steps (body_event name repocopy c)
        (resolve_and_record w name repocopy c data) (outcome c data).
Proof.
  intros Hm Hrep. unfold resolve_and_record.
  eapply steps_bind; [apply steps_try, run_command_steps|].
  intros [output|] _; [|apply steps_ret; left; reflexivity].
  eapply steps_bind with (Q := fun _ => True);
    [apply steps_lift; auto|].
  intros k _. apply record_if_relevant_steps; assumption.
Qed.

Lemma process_commit_steps (data : dict) :
  is_merge c = false -> representable c = true ->
  steps (body_event name repocopy c)
        (process_commit w name repocopy c data) (outcome c data).
Proof.
  intros Hm Hrep. unfold process_commit.
  eapply steps_bind with (Q := fun _ => True);
    [apply repo_checkout_tree_steps; exact Hm|].
  intros _ _. eapply steps_bind with (Q := fun _ => True).
  { unfold os_path_exists. eapply steps_bind with (Q := fun _ => True).
    - apply steps_emit. reflexivity.
    - intros _ _. apply steps_silent; auto. }
  intros [|] _.
  - apply resolve_and_record_steps; assumption.
  - eapply steps_bind with (Q := fun _ => True).
    + apply steps_emit. exact I.
    + intros _ _. apply steps_ret. left; reflexivity.
Qed.

Lemma loop_body_steps (data : dict) :
  steps (body_event name repocopy c)
        (loop_body w name repocopy c data) (outcome c data).
Proof.
  unfold loop_body. destruct (is_merge c) eqn:Hm.
  { apply steps_ret. left; reflexivity. }
  eapply steps_bind
    with (Q := fun dt => utcfromtimestamp (commit_time c) = Ok dt).
  { apply steps_lift. auto. }
  intros dt Hdt. eapply steps_bind with (Q := fun _ => True).
  { apply steps_silent; auto. }
  intros now _. destruct (dt <? now - timedelta_days 730).
  { apply steps_ret. left; reflexivity. }
  apply process_commit_steps; [exact Hm|].
  unfold representable. rewrite Hdt. reflexivity.
Qed.

End Iteration.

(** ** [data] *)

Lemma In_dict_append (k : key) (c : Commit) (data : dict)
                     (k' : key) (l' : list Commit) :
  In (k', l') (dict_append k c data) ->
  In (k', l') data
  \/ (exists l, In (k', l) data /\ l' = l ++ [c])
  \/ l' = [c].
Proof.
  induction data as [|[k0 l0] data IH]; simpl.
  - intros [H|[]]. inversion H. auto.
  - destruct (key_eqb k k0); simpl; intros [H|H].
    + inversion H; subst. right; left. exists l0. auto.
    + auto.
    + inversion H; subst. auto.
    + destruct (IH H) as [Hin | [[l [Hin Hl]] | Hl]]; eauto 6.
Qed.

Lemma In_dict_commits (c : Commit) (data : dict) :
  In c (dict_commits data) <-> exists k l, In (k, l) data /\ In c l.
Proof.
  unfold dict_commits. rewrite in_flat_map. split.
  - intros [[k l] [Hin Hc]]. eauto.
  - intros [k [l [Hin Hc]]]. exists (k, l). auto.
Qed.

(** The commit is in [data] once appended. *)
Lemma dict_append_In (k : key) (c : Commit) (data : dict) :
  In c (dict_commits (dict_append k c data)).
Proof.
  induction data as [|[k0 l0] data IH]; simpl.
  - auto.
  - destruct (key_eqb k k0); simpl; apply in_or_app.
    + left. apply in_or_app. simpl. auto.
    + right. exact IH.
Qed.

(** ** The walk *)

Section Walk.

Variables (w : World) (name repocopy : str).

Lemma iteration_outcome (c : Commit) (data : dict) (s : state)
                        (r : flow * dict) :
  fst (iteration w name repocopy c data s) = Ok r ->
  outcome c data r.
Proof.
  unfold iteration, bind, emit. simpl. intros H.
  eapply (loop_body_steps w name repocopy c data). exact H.
Qed.

Lemma after_iterations_walk (k : nat) :
  forall cs data s cs' data' s',
    after_iterations w name repocopy k cs data s = Some (cs', data', s') ->
    walk_loop w name repocopy cs data s
    = walk_loop w name repocopy cs' data' s'.
Proof.
  induction k as [|k IH]; intros cs data s cs' data' s'; simpl.
  - intros H. inversion H. reflexivity.
  - destruct cs as [|c rest]; [discriminate|].
    intros H. simpl. unfold bind at 1 2.
    unfold iteration, bind at 1 in H.
    destruct (emit (EvNext c) s) as [[[]|e] s0]; [|discriminate].
    destruct (loop_body w name repocopy c data s0) as [[[[|] d1]|e] s1];
      try discriminate.
    apply IH. exact H.
Qed.

Section Invariant.

(** A property of the commits to come and of [data] that every iteration
    maintains holds when the loop is left. *)
Variable Inv : list Commit -> dict -> Prop.

Hypothesis Inv_step :
  forall c rest data r,
    Inv (c :: rest) data -> outcome c data r -> Inv rest (snd r).

Lemma walk_loop_steps (cs : list Commit) :
  forall data,
    Inv cs data ->
    steps (walk_event name repocopy cs)
          (walk_loop w name repocopy cs data)
          (fun data' => exists rest, Inv rest data').
Proof.
  induction cs as [|c rest IH]; intros data HI; simpl.
  - apply steps_ret. eauto.
  - eapply steps_bind with (Q := fun _ => True).
    { apply steps_emit. exists c. simpl. auto. }
    intros _ _.
    eapply steps_bind with (Q := outcome c data).
    { eapply steps_events; [|apply loop_body_steps].
      intros ev Hev. exists c. simpl. auto. }
    intros [[|] data'] Hout.
    + eapply steps_events; [|apply IH].
      * intros ev [c' [Hin Hev]]. exists c'. simpl. auto.
      * apply (Inv_step c rest data (Continue, data')); assumption.
    + apply steps_ret. exists rest.
      apply (Inv_step c rest data (Break, data')); assumption.
Qed.

Lemma after_iterations_invariant (k : nat) :
  forall cs data s cs' data' s',
    Inv cs data ->
    after_iterations w name repocopy k cs data s = Some (cs', data', s') ->
    Inv cs' data'.
Proof.
  induction k as [|k IH]; intros cs data s cs' data' s' HI; simpl.
  - intros H. inversion H; subst. exact HI.
  - destruct cs as [|c rest]; [discriminate|].
    pose proof (iteration_outcome c data s) as Hout.
    destruct (iteration w name repocopy c data s)
      as [[[[|] d1]|e] s1]; try discriminate.
    intros H. eapply IH; [|exact H].
    apply (Inv_step c rest data (Continue, d1)); auto.
Qed.

End Invariant.

End Walk.

(** ** The rendering *)

Lemma utcfromtimestamp_representable (c : Commit) :
  representable c = true ->
  utcfromtimestamp (commit_time c) = Ok (commit_time c * MICRO).
Proof.
  unfold representable, utcfromtimestamp.
  repeat (destruct (negb _); [discriminate|]). reflexivity.
Qed.

Lemma representable_range (c : Commit) :
  representable c = true
  <-> MIN_TIMESTAMP <= commit_time c <= MAX_TIMESTAMP.
Proof.
  unfold representable, utcfromtimestamp.
  destruct (Z.leb_spec MIN_TIME_T (commit_time c)),
           (Z.leb_spec (commit_time c) MAX_TIME_T),
           (Z.leb_spec MIN_GMTIME (commit_time c)),
           (Z.leb_spec (commit_time c) MAX_GMTIME),
           (Z.leb_spec MIN_TIMESTAMP (commit_time c)),
           (Z.leb_spec (commit_time c) MAX_TIMESTAMP);
    cbn [andb negb is_ok];
    unfold MIN_TIME_T, MAX_TIME_T, MIN_GMTIME, MAX_GMTIME, MIN_TIMESTAMP,
      MAX_TIMESTAMP in *;
    split; intros; try discriminate; try reflexivity; lia.
Qed.

(** Outside the years 1 to 9999 the conversion raises, and what it raises
    goes by the size of the timestamp. *)
Lemma utcfromtimestamp_out_of_range (t : Z) :
  t < MIN_TIMESTAMP \/ MAX_TIMESTAMP < t ->
  exists e,
    utcfromtimestamp t = Raise e
    /\ (MIN_GMTIME <= t <= MAX_GMTIME -> e = ValueError)
    /\ (MIN_TIME_T <= t <= MAX_TIME_T ->
        t < MIN_GMTIME \/ MAX_GMTIME < t -> e = OSError)
    /\ (t < MIN_TIME_T \/ MAX_TIME_T < t -> e = OverflowError).
Proof.
  intros Hout. unfold utcfromtimestamp.
  destruct (Z.leb_spec MIN_TIME_T t), (Z.leb_spec t MAX_TIME_T),
           (Z.leb_spec MIN_GMTIME t), (Z.leb_spec t MAX_GMTIME),
           (Z.leb_spec MIN_TIMESTAMP t), (Z.leb_spec t MAX_TIMESTAMP);
    cbn [andb negb];
    unfold MIN_TIME_T, MAX_TIME_T, MIN_GMTIME, MAX_GMTIME, MIN_TIMESTAMP,
      MAX_TIMESTAMP in *;
    try (exfalso; lia);
    eexists; (split; [reflexivity|]);
    repeat split; intros; try reflexivity; exfalso; lia.
Qed.

Lemma getitem_nth (t : key) (i : nat) :
  (i < List.length t)%nat -> getitem t i = Ok (nth i t []).
Proof.
  intros Hi. unfold getitem.
  destruct (nth_error t i) as [x|] eqn:Hx.
  - rewrite (nth_error_nth t i [] Hx). reflexivity.
  - apply nth_error_None in Hx. lia.
Qed.

Section Render.

Variables (w : World) (nvr : key).

Hypothesis three : (3 <= List.length nvr)%nat.

Lemma render_commits_plain (n idx : nat) (c : Commit) (todo : list Commit)
                           (lines : list str) :
  representable c = true -> (idx + 1 =? n)%nat = false ->
  render_commits w nvr n idx (c :: todo) lines
  = render_commits w nvr n (S idx) todo (lines ++ entry w [] c).
Proof.
  intros Hc Hidx. cbn [render_commits].
  rewrite (utcfromtimestamp_representable _ Hc), Hidx.
  cbn [rbind]. unfold entry. rewrite app_nil_r. reflexivity.
Qed.

Lemma render_commits_last (n idx : nat) (c : Commit) (lines : list str) :
  representable c = true -> (idx + 1 =? n)%nat = true ->
  render_commits w nvr n idx [c] lines
  = Ok (lines ++ entry w (suffix (nth 1 nvr []) (nth 2 nvr [])) c).
Proof.
  intros Hc Hidx. cbn [render_commits].
  rewrite (utcfromtimestamp_representable _ Hc), Hidx.
  rewrite !getitem_nth by lia. reflexivity.
Qed.

(** The loop over [reversed(commits)] from position [idx] on: every entry
    but the last is plain, the last carries the version and release. *)
Lemma render_commits_from (n : nat) (last_one : Commit) :
  forall (before : list Commit) (idx : nat) (lines : list str),
    (idx + List.length before + 1 = n)%nat ->
    forallb representable (before ++ [last_one]) = true ->
    render_commits w nvr n idx (before ++ [last_one]) lines
    = Ok (lines ++ flat_map (entry w []) before
                ++ entry w (suffix (nth 1 nvr []) (nth 2 nvr [])) last_one).
Proof.
  induction before as [|c before IH]; intros idx lines Hn Hrep.
  - simpl in Hn, Hrep. apply andb_prop in Hrep as [Hrep _].
    apply render_commits_last; [exact Hrep|]. apply Nat.eqb_eq. lia.
  - simpl in Hn, Hrep. apply andb_prop in Hrep as [Hc Hrep].
    change ((c :: before) ++ [last_one]) with (c :: before ++ [last_one]).
    rewrite render_commits_plain; [|exact Hc|apply Nat.eqb_neq; lia].
    rewrite IH by (assumption || lia).
    cbn [flat_map]. rewrite <- !app_assoc. reflexivity.
Qed.

(** One group: [commits] is in walk order. *)
Lemma render_commits_group (commits : list Commit) (lines : list str) :
  forallb representable commits = true ->
  render_commits w nvr (List.length commits) 0 (rev commits) lines
  = Ok (lines ++ group_lines w nvr commits).
Proof.
  intros Hrep. destruct commits as [|first_walked later].
  - simpl. rewrite app_nil_r. reflexivity.
  - simpl rev. unfold group_lines.
    apply render_commits_from.
    + rewrite length_rev. simpl. lia.
    + simpl in Hrep. apply andb_prop in Hrep as [Hc Hl].
      rewrite forallb_forall in Hl.
      rewrite forallb_app. apply andb_true_intro. split.
      * apply forallb_forall. intros x Hx. apply Hl. now apply in_rev.
      * simpl. rewrite Hc. reflexivity.
Qed.

End Render.

Lemma render_lines (w : World) (data : dict) :
  forall lines,
    forallb well_formed_group data = true ->
    render w data lines
    = Ok (lines ++ flat_map (fun g => group_lines w (fst g) (snd g)) data).
Proof.
  induction data as [|[nvr commits] data IH]; intros lines Hwf; simpl.
  - rewrite app_nil_r. reflexivity.
  - simpl in Hwf. apply andb_prop in Hwf as [Hg Hwf].
    unfold well_formed_group in Hg. cbn [fst snd] in Hg.
    apply andb_prop in Hg as [Hlen Hrep].
    apply Nat.leb_le in Hlen.
    rewrite render_commits_group by assumption. simpl.
    rewrite IH by exact Hwf. rewrite app_assoc. reflexivity.
Qed.

(** Every commit of a group has its entry among the lines of the group. *)
Lemma group_lines_entry (w : World) (nvr : key) (commits : list Commit)
                        (c : Commit) :
  In c commits ->
  exists sfx, incl (entry w sfx c) (group_lines w nvr commits).
Proof.
  destruct commits as [|first_walked later]; [intros []|].
  intros [<- | Hin]; unfold group_lines.
  - eexists. apply incl_appr, incl_refl.
  - exists []. apply incl_appl.
    intros line Hline. apply in_flat_map. exists c.
    split; [now apply in_rev in Hin | exact Hline].
Qed.

(** ** Order within a group *)



(** ** One iteration, case by case *)

Lemma is_ok_unit (r : result unit) : is_ok r = true -> r = Ok tt.
Proof. destruct r as [[]|e]; [reflexivity | discriminate]. Qed.

Lemma ignore_flag_spec (files : list str) :
  ignore_flag files = negb (existsb touches_packaging files).
Proof.
  unfold ignore_flag.
  assert (H : forall ig,
             fold_left
               (fun ignore filename =>
                  if endswith_any filename [u ".spec"; u ".patch"]
                  then false else ignore) files ig
             = ig && negb (existsb touches_packaging files)).
  { induction files as [|f files IH]; intros ig; cbn [fold_left existsb].
    - destruct ig; reflexivity.
    - rewrite IH. fold (touches_packaging f).
      destruct (touches_packaging f); destruct ig; reflexivity. }
  apply H.
Qed.

Ltac run_monad :=
  repeat (progress
            (unfold bind, emit, ret, lift, raise, print, log_error,
               datetime_utcnow, repo_checkout_tree, os_path_exists,
               subprocess_check_output;
             cbn [fst snd trace reads worktree])).

Section Cases.

Variables (w : World) (name repocopy : str) (c : Commit) (data : dict).

Lemma walk_loop_cons (rest : list Commit) (s : state) :
  walk_loop w name repocopy (c :: rest) data s
  = match iteration w name repocopy c data s with
    | (Ok (Continue, data'), s') => walk_loop w name repocopy rest data' s'
    | (Ok (Break, data'), s') => (Ok data', s')
    | (Raise e, s') => (Raise e, s')
    end.
Proof.
  unfold iteration. cbn [walk_loop]. unfold bind at 1 2 3. cbn [emit].
  destruct (loop_body w name repocopy c data _) as [[[[|] d]|e] s'];
    reflexivity.
Qed.

Lemma iteration_merge (s : state) :
  is_merge c = true ->
  iteration w name repocopy c data s
  = (Ok (Continue, data), record [EvNext c] s).
Proof.
  intros Hm. unfold iteration, loop_body.
  rewrite Hm. reflexivity.
Qed.

(** The conversion of the timestamp raises: the turn ends with that
    exception, before the clock is read. *)
Lemma iteration_conversion_raises (s : state) (e : exn) :
  is_merge c = false ->
  utcfromtimestamp (commit_time c) = Raise e ->
  iteration w name repocopy c data s = (Raise e, record [EvNext c] s).
Proof.
  intros Hm He. unfold iteration, loop_body. rewrite Hm. run_monad.
  rewrite He. reflexivity.
Qed.

Lemma iteration_too_old (s : state) :
  is_merge c = false -> strictly_older w s c = true ->
  iteration w name repocopy c data s
  = (Ok (Break, data),
     mkState (trace s ++ [EvNext c]) (S (reads s)) (worktree s)).
Proof.
  intros Hm Hold.
  unfold iteration, loop_body, strictly_older, cutoff in *.
  rewrite Hm. run_monad.
  destruct (utcfromtimestamp (commit_time c)) as [dt|e]; [|discriminate].
  rewrite Hold. reflexivity.
Qed.

Lemma loop_body_within_window (s : state) :
  is_merge c = false -> within_window w s c = true ->
  loop_body w name repocopy c data s
  = process_commit w name repocopy c data (tick s).
Proof.
  intros Hm Hwin. unfold loop_body, within_window, cutoff in *.
  rewrite Hm. run_monad.
  destruct (utcfromtimestamp (commit_time c)) as [dt|e]; [|discriminate].
  apply negb_true_iff in Hwin. rewrite Hwin. reflexivity.
Qed.

Lemma iteration_checked_out (s : state) :
  checked_out w s c = true ->
  iteration w name repocopy c data s
  = (if path_exists w (Some c) (spec_path name repocopy)
     then resolve_and_record w name repocopy c data
     else print (u "No more spec file, bailing") ;; ret (Break, data))
      (at_spec_test name repocopy c s).
Proof.
  unfold checked_out. intros H.
  apply andb_prop in H as [H Hco]. apply andb_prop in H as [Hm Hwin].
  apply negb_true_iff in Hm. apply is_ok_unit in Hco.
  unfold iteration. unfold bind at 1. cbn [emit].
  rewrite loop_body_within_window by assumption.
  unfold process_commit. run_monad. rewrite Hco.
  unfold at_spec_test, spec_path, tick. cbn [trace reads worktree].
  rewrite <- !app_assoc. cbn [app].
  destruct (path_exists w (Some c) _); reflexivity.
Qed.

Lemma iteration_no_spec (s : state) :
  checked_out w s c = true ->
  path_exists w (Some c) (spec_path name repocopy) = false ->
  iteration w name repocopy c data s
  = (Ok (Break, data),
     record [EvPrint (u "No more spec file, bailing")]
            (at_spec_test name repocopy c s)).
Proof.
  intros Hco Habsent. rewrite iteration_checked_out, Habsent by exact Hco.
  reflexivity.
Qed.

Lemma iteration_queried (s : state) :
  queried w name repocopy s c = true ->
  iteration w name repocopy c data s
  = resolve_and_record w name repocopy c data
      (at_spec_test name repocopy c s).
Proof.
  unfold queried. intros H. apply andb_prop in H as [Hco Hpresent].
  rewrite iteration_checked_out, Hpresent by exact Hco. reflexivity.
Qed.

Lemma resolve_raises (s : state) (e : exn) :
  worktree s = Some c ->
  check_output w (Some c) (rpm_command name) repocopy = Raise e ->
  is_Exception e = true ->
  resolve_and_record w name repocopy c data s
  = (Ok (Continue, data),
     record (EvRun (rpm_command name) repocopy
             :: failure_log (rpm_command name) e) s).
Proof.
  destruct s as [t r wt]. cbn [worktree]. intros -> Hq He.
  unfold resolve_and_record, try_except_Exception, run_command.
  run_monad. rewrite Hq. unfold record.
  destruct e; try discriminate; cbn [is_Exception failure_log];
    run_monad; rewrite <- ?app_assoc; reflexivity.
Qed.

Lemma resolve_answers (s : state) (output : bytes) (nvr : key) (d : Diff) :
  worktree s = Some c ->
  check_output w (Some c) (rpm_command name) repocopy = Ok output ->
  parse_output output = Ok nvr ->
  filter_diff w c = Ok d ->
  resolve_and_record w name repocopy c data s
  = (Ok (Continue, if relevant d then dict_append nvr c data else data),
     record [EvRun (rpm_command name) repocopy; EvDiff repocopy c] s).
Proof.
  destruct s as [t r wt]. cbn [worktree]. intros -> Hq Hparse Hd.
  unfold resolve_and_record, try_except_Exception, run_command,
    record_if_relevant.
  run_monad. rewrite Hq. run_monad. rewrite Hparse.
  unfold filter_diff in Hd.
  assert (Hrel : relevant d
                 = if negb (files_changed d =? 0)%nat
                   then negb (ignore_flag (deltas d)) else false).
  { unfold relevant. rewrite ignore_flag_spec, negb_involutive.
    destruct (negb (files_changed d =? 0)%nat); reflexivity. }
  rewrite Hrel. unfold record.
  destruct (parents c) as [|p ps]; run_monad; rewrite Hd;
    rewrite <- !app_assoc;
    destruct (negb (files_changed d =? 0)%nat);
    try destruct (negb (ignore_flag (deltas d))); reflexivity.
Qed.

End Cases.

(** ** The whole run *)

Section Run.

Variables (w : World) (repopath : str).

(** The [with] block, by the ways it can be left. *)
Lemma collect_cases (s : state) :
  collect w repopath s
  = match copytree w repopath (copy_of w repopath) with
    | Raise e =>
        (Raise e,
         record [EvMkdtemp (mkdtemp w);
                 EvCopytree repopath (copy_of w repopath);
                 EvCleanup (mkdtemp w)] s)
    | Ok _ =>
        match walk w (copy_of w repopath) with
        | Raise e =>
            (Raise e,
             record [EvMkdtemp (mkdtemp w);
                     EvCopytree repopath (copy_of w repopath);
                     EvOpen (copy_of w repopath);
                     EvCleanup (mkdtemp w)] s)
        | Ok commits =>
            let run := walk_loop w (basename repopath) (copy_of w repopath)
                                 commits [] (at_start w repopath s) in
            (fst run, record [EvCleanup (mkdtemp w)] (snd run))
        end
    end.
Proof.
  unfold collect, with_TemporaryDirectory, shutil_copytree, repo_walk.
  fold (copy_of w repopath). run_monad. unfold record, at_start.
  cbn [trace reads worktree].
  destruct (copytree w repopath (copy_of w repopath)) as [[]|e];
    [|cbn [trace reads worktree]; rewrite <- !app_assoc; reflexivity].
  destruct (walk w (copy_of w repopath)) as [commits|e];
    [|cbn [trace reads worktree]; rewrite <- !app_assoc; reflexivity].
  rewrite <- !app_assoc. cbn [app].
  destruct (walk_loop w (basename repopath) (copy_of w repopath) commits [] _)
    as [r s'].
  reflexivity.
Qed.

(** Rendering comes after the [with] block and leaves the state alone. *)
Lemma produce_changelog_collect (s : state) :
  produce_changelog w repopath s
  = (match fst (collect w repopath s) with
     | Ok data => render w data []
     | Raise e => Raise e
     end,
     snd (collect w repopath s)).
Proof.
  unfold produce_changelog, bind, lift.
  destruct (collect w repopath s) as [[data|e] s']; reflexivity.
Qed.

(** What a successful [with] block went through. *)
Lemma collect_ok (s : state) (data : dict) :
  fst (collect w repopath s) = Ok data ->
  exists commits,
    walk w (copy_of w repopath) = Ok commits
    /\ fst (walk_loop w (basename repopath) (copy_of w repopath) commits []
                      (at_start w repopath s))
       = Ok data.
Proof.
  rewrite collect_cases.
  destruct (copytree w repopath (copy_of w repopath)) as [[]|e];
    [|discriminate].
  destruct (walk w (copy_of w repopath)) as [commits|e]; [|discriminate].
  cbn [fst]. eauto.
Qed.

(** The shape of the trace of the [with] block. *)
Lemma collect_trace (s : state) :
  exists evs,
    trace (snd (collect w repopath s))
    = trace s
      ++ [EvMkdtemp (mkdtemp w); EvCopytree repopath (copy_of w repopath)]
      ++ evs ++ [EvCleanup (mkdtemp w)]
    /\ Forall (fun ev =>
                 ev = EvOpen (copy_of w repopath)
                 \/ exists cs,
                      walk_event (basename repopath) (copy_of w repopath)
                                 cs ev)
              evs.
Proof.
  rewrite collect_cases.
  destruct (copytree w repopath (copy_of w repopath)) as [[]|e].
  2:{ exists []. split; [reflexivity | constructor]. }
  destruct (walk w (copy_of w repopath)) as [commits|e].
  2:{ exists [EvOpen (copy_of w repopath)].
      split; [reflexivity|]. repeat constructor. }
  destruct (walk_loop_steps w (basename repopath) (copy_of w repopath)
              (fun _ _ => True) (fun _ _ _ _ _ _ => I) commits [] I
              (at_start w repopath s))
    as [[evs [Htr Hevs]] _].
  exists (EvOpen (copy_of w repopath) :: evs). cbn [snd fst record trace].
  rewrite Htr. unfold at_start. cbn [trace].
  rewrite <- !app_assoc. cbn [app].
  split; [reflexivity|].
  constructor; [auto|].
  eapply Forall_impl; [|exact Hevs]. intros ev Hev. right. eauto.
Qed.

End Run.

(** ** Invariants of the walk *)


Lemma all_representable_step (c : Commit) (rest : list Commit) (data : dict)
                             (r : flow * dict) :
  all_representable (c :: rest) data -> outcome c data r ->
  all_representable rest (snd r).
Proof.
  intros Hg Hout k l Hin.
  destruct Hout as [Heq | (Hm & Hrep & k0 & Heq)]; rewrite Heq in Hin.
  { eauto. }
  apply In_dict_append in Hin as [Hin | [[l0 [Hin ->]] | ->]].
  - eauto.
  - rewrite forallb_app, (Hg k l0 Hin). simpl. rewrite Hrep. reflexivity.
  - simpl. rewrite Hrep. reflexivity.
Qed.

Lemma no_merge_step (c : Commit) (rest : list Commit) (data : dict)
                    (r : flow * dict) :
  no_merge (c :: rest) data -> outcome c data r -> no_merge rest (snd r).
Proof.
  intros Hg Hout x Hx.
  destruct Hout as [Heq | (Hm & Hrep & k0 & Heq)]; rewrite Heq in Hx.
  { auto. }
  apply In_dict_commits in Hx as [k [l [Hin Hx]]].
  apply In_dict_append in Hin as [Hin | [[l0 [Hin ->]] | ->]].
  - apply Hg. apply In_dict_commits. eauto.
  - apply in_app_or in Hx as [Hx | [<- | []]]; [|exact Hm].
    apply Hg. apply In_dict_commits. eauto.
  - destruct Hx as [<- | []]. exact Hm.
Qed.

(** The rendering of what a run collected returns the lines of every
    group, as long as each tuple has three fields. *)
Lemma render_collected (w : World) (repopath : str) (s : state)
                       (data : dict) :
  fst (collect w repopath s) = Ok data ->
  forallb (fun g => (3 <=? List.length (fst g))%nat) data = true ->
  render w data []
  = Ok (flat_map (fun g => group_lines w (fst g) (snd g)) data).
Proof.
  intros Hcollect Hthree.
  destruct (collect_ok w repopath s data Hcollect) as [commits [_ Hloop]].
  assert (Hinit : all_representable commits []) by (intros k l []).
  destruct (walk_loop_steps w (basename repopath) (copy_of w repopath)
              all_representable all_representable_step commits [] Hinit
              (at_start w repopath s)) as [_ Hpost].
  destruct (Hpost data Hloop) as [rest Hrep].
  rewrite render_lines; [reflexivity|].
  apply forallb_forall. intros [nvr l] Hin. unfold well_formed_group.
  rewrite forallb_forall in Hthree.
  rewrite (Hthree _ Hin). cbn [snd andb]. exact (Hrep nvr l Hin).
Qed.

(** ** C1: which header carries the version and release *)




(** ** C2: the parse of the query output *)

(** Where C2 holds.  When the release printed on the first line has a
    dot, what follows its last dot is dropped and the name and version are
    kept.  The fields have no white space and the name is not empty; the
    line is the whole output or is followed by a line feed. *)
Lemma release_suffix_stripped
    (output : bytes) (name version rel tag tail : str) :
  decode_utf8 output
  = Ok ((name ++ u "  " ++ version ++ u "  " ++ rel ++ DOT :: tag) ++ tail) ->
  name <> [] ->
  no_space name = true -> no_space version = true ->
  no_space rel = true -> no_space tag = true ->
  no_char DOT tag = true ->
  line_end tail = true ->
  parse_output output = Ok [name; version; rel].
Proof.
  intros Hdec Hne Hn Hv Hr Ht Hdot Hend.
  unfold parse_output. rewrite Hdec. cbn [rbind]. f_equal.
  apply fields_of_first_line; try assumption.
  destruct tail as [|x rest]; [left; reflexivity|].
  right. exists rest. simpl in Hend. apply N.eqb_eq in Hend.
  now rewrite Hend.
Qed.

Lemma release_suffix_stripped_witness :
  parse_output (b Scenario.fc32) = Ok [u "pkg"; u "1.0"; u "1"].
Proof.
  apply (release_suffix_stripped (b Scenario.fc32)
           (u "pkg") (u "1.0") (u "1") (u "fc32") [LF]).
  - reflexivity.
  - discriminate.
  - reflexivity.
  - reflexivity.
  - reflexivity.
  - reflexivity.
  - reflexivity.
  - reflexivity.
Defined.

(** C2 fails on the code.  The output [pkg  1.0  1] has the three fields,
    and its release has no dot: [rsplit] is applied to the line before the
    line is split into fields, the last dot of the line is the one of the
    version, and the parse gives the two fields [pkg] and [1] where C2 has
    the name [pkg], the version [1.0] and the release [1]. *)
Theorem release_without_dot_cuts_version :
  parse_output Scenario.plain_release = Ok [u "pkg"; u "1"]
  /\ parse_output Scenario.plain_release <> Ok [u "pkg"; u "1.0"; u "1"].
Proof. split; [vm_compute; reflexivity | vm_compute; discriminate]. Qed.

(** A run on that output: the commit is recorded under the two fields and
    the rendering, which takes the version and the release at the positions
    1 and 2 of the tuple, raises [IndexError]. *)
Example release_without_dot_run :
  fst (produce_changelog Scenario.no_dist_tag Scenario.repopath initial)
  = Raise IndexError.
Proof. vm_compute. reflexivity. Qed.

(** ** C3: outputs with another number of fields *)

(** C3, as the code has it.  The number of fields is not looked at: a
    commit whose diff touches a packaging file is recorded under the tuple
    the parse gives, whatever its length, and the walk goes on with the next
    commit; the rendering of what a run collected then returns the lines of
    every group as long as each recorded tuple has three fields at least. *)
Theorem field_count_not_validated
    (w : World) (name repocopy : str) (c : Commit) (rest : list Commit)
    (data : dict) (s : state) (output : bytes) (nvr : key) (d : Diff) :
  queried w name repocopy s c = true ->
  check_output w (Some c) (rpm_command name) repocopy = Ok output ->
  parse_output output = Ok nvr ->
  filter_diff w c = Ok d ->
  relevant d = true ->
  walk_loop w name repocopy (c :: rest) data s
  = walk_loop w name repocopy rest (dict_append nvr c data)
      (record [EvRun (rpm_command name) repocopy; EvDiff repocopy c]
              (at_spec_test name repocopy c s))
  /\ forall repopath s0 collected,
       fst (collect w repopath s0) = Ok collected ->
       forallb (fun g => (3 <=? List.length (fst g))%nat) collected = true ->
       render w collected []
       = Ok (flat_map (fun g => group_lines w (fst g) (snd g)) collected).
Proof.
  intros Hq Hout Hparse Hd Hrel. split.
  - rewrite walk_loop_cons, iteration_queried by exact Hq.
    rewrite (resolve_answers w name repocopy c data _ output nvr d)
      by (reflexivity || assumption).
    rewrite Hrel. reflexivity.
  - intros repopath s0 collected. apply render_collected.
Qed.

(** The query prints four fields: the commit is recorded under the four
    and rendered with the second and the third. *)
Lemma field_count_not_validated_witness :
  walk_loop Scenario.four_fields (u "pkg") Scenario.repocopy
            [Scenario.alice] []
            (at_start Scenario.four_fields Scenario.repopath initial)
  = (Ok [([u "pkg"; u "1.0"; u "1"; u "extra"], [Scenario.alice])],
     record [EvRun (rpm_command (u "pkg")) Scenario.repocopy;
             EvDiff Scenario.repocopy Scenario.alice]
            (at_spec_test (u "pkg") Scenario.repocopy Scenario.alice
               (at_start Scenario.four_fields Scenario.repopath initial)))
  /\ render Scenario.four_fields
            [([u "pkg"; u "1.0"; u "1"; u "extra"], [Scenario.alice])] []
     = Ok [ u "* Tue Sep 01 2020 Alice <alice@example.com> - 1.0-1";
            u "- Update to 1.0";
            [] ].
Proof.
  destruct (field_count_not_validated
              Scenario.four_fields (u "pkg") Scenario.repocopy
              Scenario.alice [] []
              (at_start Scenario.four_fields Scenario.repopath initial)
              (b ("pkg  1.0  1  extra.fc32" ++ Scenario.nl))
              [u "pkg"; u "1.0"; u "1"; u "extra"]
              (mkDiff 1 [u "pkg.spec"]))
    as [Hwalk Hrender]; try reflexivity.
  split.
  - exact Hwalk.
  - apply (Hrender Scenario.repopath initial
             [([u "pkg"; u "1.0"; u "1"; u "extra"], [Scenario.alice])]).
    + vm_compute. reflexivity.
    + reflexivity.
Defined.

(** C3 as the claim words it fails.  The query prints two fields; the
    commit is recorded all the same, and rendering raises [IndexError]: the
    run has no output. *)
Lemma two_fields_recorded_then_run_aborts :
  fst (collect Scenario.two_fields Scenario.repopath initial)
  = Ok [([u "pkg"; u "1"], [Scenario.alice])]
  /\ fst (produce_changelog Scenario.two_fields Scenario.repopath initial)
     = Raise IndexError.
Proof. split; vm_compute; reflexivity. Qed.

(** ** C4: the recency window *)

Section AfterTheGates.

Variables (w : World) (name repocopy : str) (c : Commit) (data : dict).

(** The branch taken when the spec file is there always goes on to the next
    commit. *)
Lemma resolve_and_record_continues :
  steps (fun _ => True) (resolve_and_record w name repocopy c data)
        (fun r => fst r = Continue).
Proof.
  unfold resolve_and_record.
  eapply steps_bind with (Q := fun _ => True).
  { eapply steps_post; [|intros; exact I].
    apply steps_try with (Q := fun _ => True).
    eapply steps_events; [|apply (run_command_steps w name repocopy c)].
    auto. }
  intros [output|] _; [|apply steps_ret; reflexivity].
  eapply steps_bind with (Q := fun _ => True); [apply steps_lift; auto|].
  intros k _. unfold record_if_relevant.
  eapply steps_bind with (Q := fun _ => True).
  { destruct (parents c);
      (eapply steps_bind with (Q := fun _ => True);
       [apply steps_emit; exact I|]);
      intros; apply steps_lift; auto. }
  intros d _.
  destruct (negb (files_changed d =? 0)%nat);
    [destruct (negb (ignore_flag (deltas d)))|];
    apply steps_ret; reflexivity.
Qed.

Lemma process_commit_checked_out (s : state) :
  checkout_tree w c = Ok tt ->
  process_commit w name repocopy c data s
  = (if path_exists w (Some c) (spec_path name repocopy)
     then resolve_and_record w name repocopy c data
     else print (u "No more spec file, bailing") ;; ret (Break, data))
      (mkState (trace s ++ [EvCheckout repocopy c;
                            EvExists (spec_path name repocopy)])
               (reads s) (Some c)).
Proof.
  intros Hco. unfold process_commit. run_monad. rewrite Hco.
  unfold spec_path. cbn [trace reads worktree].
  rewrite <- !app_assoc. cbn [app].
  destruct (path_exists w (Some c) _); reflexivity.
Qed.

(** [process_commit] begins with the checkout. *)
Lemma process_commit_trace (s : state) :
  exists evs,
    trace (snd (process_commit w name repocopy c data s))
    = trace s ++ EvCheckout repocopy c :: evs.
Proof.
  destruct (checkout_tree w c) as [[]|e] eqn:Hco.
  - rewrite process_commit_checked_out by exact Hco.
    destruct (path_exists w (Some c) (spec_path name repocopy)).
    + destruct (resolve_and_record_continues
                  (mkState (trace s ++ [EvCheckout repocopy c;
                                        EvExists (spec_path name repocopy)])
                           (reads s) (Some c)))
        as [[evs [Htr _]] _].
      rewrite Htr. cbn [trace]. rewrite <- app_assoc. cbn [app]. eauto.
    + run_monad. cbn [snd trace]. rewrite <- app_assoc. cbn [app]. eauto.
  - unfold process_commit. run_monad. rewrite Hco. cbn [snd trace].
    exists []. reflexivity.
Qed.

(** It leaves the loop only when the spec file is missing. *)
Lemma process_commit_break (s : state) (data' : dict) :
  fst (process_commit w name repocopy c data s) = Ok (Break, data') ->
  path_exists w (Some c) (spec_path name repocopy) = false.
Proof.
  destruct (checkout_tree w c) as [[]|e] eqn:Hco.
  - rewrite process_commit_checked_out by exact Hco.
    destruct (path_exists w (Some c) (spec_path name repocopy));
      [|reflexivity].
    intros H. apply resolve_and_record_continues in H. discriminate.
  - unfold process_commit. run_monad. rewrite Hco. discriminate.
Qed.

End AfterTheGates.

(** C4.  A visited commit is one the test on the parents lets through; its
    timestamp is compared as a [datetime], so it is converted first.
    - When the timestamp lies in the years 1 to 9999: if it is strictly
      older than the cutoff the walk ends there and returns [data], the
      trace gaining the visit of that commit and nothing else, so that no
      commit after it is looked at; if it is at or after the cutoff the
      commit is handed to [process_commit], which begins with its checkout
      and leaves the loop only when the spec file is missing.
    - When it lies outside these years the conversion raises and the walk
      ends with that exception, whatever the cutoff: nothing is compared,
      the clock is not read, the commit is not processed. *)
Theorem recency_cutoff
    (w : World) (name repocopy : str) (c : Commit) (rest : list Commit)
    (data : dict) (s : state) :
  is_merge c = false ->
  (MIN_TIMESTAMP <= commit_time c <= MAX_TIMESTAMP ->
   (commit_time c * MICRO < cutoff w s ->
    walk_loop w name repocopy (c :: rest) data s
    = (Ok data, mkState (trace s ++ [EvNext c]) (S (reads s)) (worktree s)))
   /\ (cutoff w s <= commit_time c * MICRO ->
       loop_body w name repocopy c data s
       = process_commit w name repocopy c data (tick s)
       /\ (exists evs,
             trace (snd (loop_body w name repocopy c data s))
             = trace s ++ EvCheckout repocopy c :: evs)
       /\ (forall data',
             fst (loop_body w name repocopy c data s) = Ok (Break, data') ->
             path_exists w (Some c) (spec_path name repocopy) = false)))
  /\ (commit_time c < MIN_TIMESTAMP \/ MAX_TIMESTAMP < commit_time c ->
      exists e,
        walk_loop w name repocopy (c :: rest) data s
        = (Raise e, record [EvNext c] s)
        /\ In e [ValueError; OSError; OverflowError]).
Proof.
  intros Hm. split.
  - intros Hrange. apply representable_range in Hrange.
    pose proof (utcfromtimestamp_representable c Hrange) as Hdt. split.
    + intros Hold. rewrite walk_loop_cons, iteration_too_old; try assumption.
      * reflexivity.
      * unfold strictly_older. rewrite Hdt. apply Z.ltb_lt. exact Hold.
    + intros Hnew.
      assert (Hwin : within_window w s c = true).
      { unfold within_window. rewrite Hdt. apply negb_true_iff.
        apply Z.ltb_ge. exact Hnew. }
      rewrite loop_body_within_window by assumption.
      split; [reflexivity|]. split.
      * exact (process_commit_trace w name repocopy c data (tick s)).
      * intros data'. apply process_commit_break.
  - intros Hout.
    destruct (utcfromtimestamp_out_of_range (commit_time c) Hout)
      as (e & He & Hvalue & Hos & Hoverflow).
    exists e. split.
    + rewrite walk_loop_cons, (iteration_conversion_raises _ _ _ _ _ _ e)
        by assumption.
      reflexivity.
    + unfold MIN_TIME_T, MAX_TIME_T, MIN_GMTIME, MAX_GMTIME in *.
      destruct (Z_lt_le_dec (commit_time c) (-9223372036854775808));
        [right; right; left; symmetry; apply Hoverflow; lia|].
      destruct (Z_lt_le_dec 9223372036854775807 (commit_time c));
        [right; right; left; symmetry; apply Hoverflow; lia|].
      destruct (Z_lt_le_dec (commit_time c) (-67768040609740800));
        [right; left; symmetry; apply Hos; lia|].
      destruct (Z_lt_le_dec 67768036191676799 (commit_time c));
        [right; left; symmetry; apply Hos; lia|].
      left. symmetry. apply Hvalue. lia.
Qed.

(** In [Scenario.beyond_cutoff] the walk ends at [Scenario.ancient], after
    [Scenario.alice] was processed. *)
Lemma recency_cutoff_witness :
  walk_loop Scenario.beyond_cutoff (u "pkg") Scenario.repocopy
            [Scenario.ancient; Scenario.older] [] initial
  = (Ok [], mkState [EvNext Scenario.ancient] 1 None)
  /\ loop_body Scenario.beyond_cutoff (u "pkg") Scenario.repocopy
               Scenario.alice [] initial
     = process_commit Scenario.beyond_cutoff (u "pkg") Scenario.repocopy
                      Scenario.alice [] (tick initial).
Proof.
  split.
  - refine (proj1 (proj1 (recency_cutoff Scenario.beyond_cutoff (u "pkg")
                            Scenario.repocopy Scenario.ancient
                            [Scenario.older] [] initial eq_refl) _) _).
    + vm_compute. split; discriminate.
    + reflexivity.
  - refine (proj1 (proj2 (proj1 (recency_cutoff Scenario.beyond_cutoff
                                   (u "pkg") Scenario.repocopy Scenario.alice
                                   [] [] initial eq_refl) _) _)).
    + vm_compute. split; discriminate.
    + vm_compute. discriminate.
Defined.

(** C4 as the claim words it fails.  [Scenario.year_zero] is not a merge
    commit and its timestamp is older than the cutoff by far: the walk does
    not end quietly there, it raises [ValueError], and so does the run,
    which returns nothing of [Scenario.alice] collected before.
    [Scenario.year_10000] has a timestamp after the cutoff: it is not
    processed, the walk raises at it before any checkout. *)
Lemma timestamp_outside_calendar_raises :
  (is_merge Scenario.year_zero = false
   /\ commit_time Scenario.year_zero * MICRO
      < cutoff Scenario.before_the_calendar initial
   /\ walk_loop Scenario.before_the_calendar (u "pkg") Scenario.repocopy
                [Scenario.year_zero] [] initial
      = (Raise ValueError, record [EvNext Scenario.year_zero] initial)
   /\ fst (produce_changelog Scenario.before_the_calendar Scenario.repopath
             initial)
      = Raise ValueError)
  /\ (is_merge Scenario.year_10000 = false
      /\ cutoff Scenario.after_the_calendar initial
         <= commit_time Scenario.year_10000 * MICRO
      /\ walk_loop Scenario.after_the_calendar (u "pkg") Scenario.repocopy
                   [Scenario.year_10000; Scenario.alice] [] initial
         = (Raise ValueError, record [EvNext Scenario.year_10000] initial)).
Proof.
  repeat split; try (vm_compute; reflexivity); vm_compute; discriminate.
Qed.

(** ** C5: merge commits *)

(** C5.  The turn of the loop on a merge commit leaves [data] and the state
    as they are, but for the visit in the trace, and the walk goes on with
    the next commit: no checkout, no query.  In a whole run no merge commit
    is ever checked out and none is in [data], from which the output is
    rendered. *)
Theorem merge_commits_excluded
    (w : World) (name repocopy : str) (c : Commit) (rest : list Commit)
    (data : dict) (s : state) (repopath : str) :
  is_merge c = true ->
  walk_loop w name repocopy (c :: rest) data s
  = walk_loop w name repocopy rest data (record [EvNext c] s)
  /\ (forall repo,
        ~ In (EvCheckout repo c)
             (trace (snd (produce_changelog w repopath initial))))
  /\ (forall data',
        fst (collect w repopath initial) = Ok data' ->
        ~ In c (dict_commits data')).
Proof.
  intros Hm. split; [|split].
  - rewrite walk_loop_cons, iteration_merge by exact Hm. reflexivity.
  - intros repo Hin. rewrite produce_changelog_collect in Hin.
    cbn [snd] in Hin.
    destruct (collect_trace w repopath initial) as [evs [Htr Hevs]].
    rewrite Htr in Hin. cbn [trace initial app] in Hin.
    destruct Hin as [Heq | [Heq | Hin]]; try discriminate.
    apply in_app_or in Hin as [Hin | [Heq | []]]; [|discriminate].
    rewrite Forall_forall in Hevs.
    destruct (Hevs _ Hin) as [Heq | [cs [c' [_ [Heq | Hbody]]]]];
      try discriminate.
    simpl in Hbody. destruct Hbody as (_ & <- & Hfalse). congruence.
  - intros data' Hcollect Hin.
    destruct (collect_ok w repopath initial data' Hcollect)
      as [commits [_ Hloop]].
    assert (Hinit : no_merge commits []) by (intros x []).
    destruct (walk_loop_steps w (basename repopath) (copy_of w repopath)
                no_merge no_merge_step commits [] Hinit
                (at_start w repopath initial)) as [_ Hpost].
    destruct (Hpost data' Hloop) as [rest' Hno].
    rewrite (Hno c Hin) in Hm. discriminate.
Qed.

(** The age of a merge commit does not matter: [Scenario.old_merge] is
    passed over like any other and the walk ends at the commit after it. *)
Example old_merge_passed_over :
  walk_loop Scenario.merge_beyond_cutoff (u "pkg") Scenario.repocopy
            [Scenario.old_merge; Scenario.older] [] initial
  = (Ok [], mkState [EvNext Scenario.old_merge; EvNext Scenario.older]
                    1 None).
Proof. reflexivity. Qed.

Lemma merge_commits_excluded_witness :
  walk_loop Scenario.with_merge (u "pkg") Scenario.repocopy
            [Scenario.merged; Scenario.alice] [] initial
  = walk_loop Scenario.with_merge (u "pkg") Scenario.repocopy
              [Scenario.alice] [] (record [EvNext Scenario.merged] initial)
  /\ (forall repo,
        ~ In (EvCheckout repo Scenario.merged)
             (trace (snd (produce_changelog Scenario.with_merge
                            Scenario.repopath initial))))
  /\ (forall data',
        fst (collect Scenario.with_merge Scenario.repopath initial)
        = Ok data' ->
        ~ In Scenario.merged (dict_commits data')).
Proof.
  apply (merge_commits_excluded Scenario.with_merge (u "pkg")
           Scenario.repocopy Scenario.merged [Scenario.alice] [] initial
           Scenario.repopath).
  reflexivity.
Defined.

(** ** C6: the relevance filter *)

Lemma startswith_iff (p s : str) :
  startswith p s = true <-> exists t, s = p ++ t.
Proof.
  revert s. induction p as [|a p IH]; intros s.
  - simpl. split; [exists s; reflexivity | reflexivity].
  - destruct s as [|c s]; simpl.
    + split; [discriminate | intros [t [=]]].
    + rewrite andb_true_iff, N.eqb_eq, IH. split.
      * intros [-> [t ->]]. exists t. reflexivity.
      * intros [t [= -> ->]]. split; [reflexivity | exists t; reflexivity].
Qed.

Lemma endswith_iff (s p : str) :
  endswith s p = true <-> exists stem, s = stem ++ p.
Proof.
  unfold endswith. rewrite startswith_iff. split.
  - intros [t Ht]. exists (rev t).
    rewrite <- (rev_involutive s), Ht, rev_app_distr, rev_involutive.
    reflexivity.
  - intros [stem ->]. exists (rev stem). apply rev_app_distr.
Qed.

Lemma touches_packaging_iff (filename : str) :
  touches_packaging filename = true
  <-> exists stem,
        filename = stem ++ u ".spec" \/ filename = stem ++ u ".patch".
Proof.
  unfold touches_packaging, endswith_any. cbn [existsb].
  rewrite orb_false_r, orb_true_iff, !endswith_iff. split.
  - intros [[stem H]|[stem H]]; exists stem; auto.
  - intros [stem [H|H]]; [left | right]; exists stem; exact H.
Qed.

Lemma packaging_path_iff (filename : str) :
  touches_packaging filename = true <-> packaging_path filename.
Proof.
  rewrite touches_packaging_iff. unfold packaging_path, ends_in. split.
  - intros [stem [H|H]]; [left | right]; exists stem; exact H.
  - intros [[stem H]|[stem H]]; exists stem; auto.
Qed.


(** C6.  A commit that is not a merge commit, is handed to the query and
    resolves to [nvr], with [d] its diff against the first parent (against
    the empty tree when it has no parent).
    - When [d] counts no changed file, or no path it lists is a text
      followed by [.spec] or by [.patch], [data] stays as it is: the commit
      is recorded in no group.
    - When [d] counts a changed file and lists such a path, the commit is
      appended to [data[nvr]].
    - So, when the count of changed files is the number of paths listed
      and the commit was not in [data] before, it is in [data] after the
      turn exactly when one of the paths ends in [.spec] or in [.patch]. *)
Theorem relevance_filter
    (w : World) (name repocopy : str) (c : Commit) (data : dict) (s : state)
    (output : bytes) (nvr : key) (d : Diff) :
  queried w name repocopy s c = true ->
  check_output w (Some c) (rpm_command name) repocopy = Ok output ->
  parse_output output = Ok nvr ->
  filter_diff w c = Ok d ->
  (files_changed d = 0%nat
   \/ (forall path, In path (deltas d) -> ~ packaging_path path) ->
   fst (iteration w name repocopy c data s) = Ok (Continue, data))
  /\ (files_changed d <> 0%nat ->
      (exists path, In path (deltas d) /\ packaging_path path) ->
      fst (iteration w name repocopy c data s)
      = Ok (Continue, dict_append nvr c data)
      /\ In c (dict_commits (dict_append nvr c data)))
  /\ (files_changed d = List.length (deltas d) ->
      ~ In c (dict_commits data) ->
      forall r,
        fst (iteration w name repocopy c data s) = Ok r ->
        (In c (dict_commits (snd r))
         <-> exists path, In path (deltas d) /\ packaging_path path)).
Proof.
  intros Hq Hout Hparse Hd.
  assert (Hrun : fst (iteration w name repocopy c data s)
                 = Ok (Continue,
                       if relevant d then dict_append nvr c data else data)).
  { rewrite iteration_queried by exact Hq.
    rewrite (resolve_answers w name repocopy c data _ output nvr d)
      by (reflexivity || assumption).
    reflexivity. }
  assert (Hsome : existsb touches_packaging (deltas d) = true
                  <-> exists path, In path (deltas d) /\ packaging_path path).
  { rewrite existsb_exists. split; intros [path [Hin Hp]]; exists path;
      (split; [exact Hin|]); apply packaging_path_iff; exact Hp. }
  rewrite Hrun. unfold relevant. split; [|split].
  - intros [Hzero | Hnone].
    + rewrite Hzero. reflexivity.
    + destruct (existsb touches_packaging (deltas d)) eqn:Hex.
      * destruct (proj1 Hsome eq_refl) as [path [Hin Hp]].
        destruct (Hnone path Hin Hp).
      * rewrite andb_false_r. reflexivity.
  - intros Hcount Hpath. apply Hsome in Hpath. rewrite Hpath.
    apply Nat.eqb_neq in Hcount. rewrite Hcount.
    split; [reflexivity | apply dict_append_In].
  - intros Hcount Hnew r [= <-]. cbn [snd]. rewrite <- Hsome.
    destruct (existsb touches_packaging (deltas d)) eqn:Hex.
    + assert (Hne : (files_changed d =? 0)%nat = false).
      { apply Nat.eqb_neq. rewrite Hcount.
        destruct (deltas d); [discriminate | discriminate]. }
      rewrite Hne. cbn [negb andb]. split; [reflexivity|].
      intros _. apply dict_append_In.
    + rewrite andb_false_r. split; [contradiction | discriminate].
Qed.

(** [Scenario.bob] touches a README and the sources file, no path that ends
    in [.spec] or [.patch]: [data], which holds [Scenario.alice], stays as
    it is. *)
Lemma relevance_filter_witness :
  fst (iteration Scenario.mixed_files (u "pkg") Scenario.repocopy
                 Scenario.bob
                 [([u "pkg"; u "1.0"; u "1"], [Scenario.alice])] initial)
  = Ok (Continue, [([u "pkg"; u "1.0"; u "1"], [Scenario.alice])]).
Proof.
  refine (proj1 (relevance_filter Scenario.mixed_files (u "pkg")
                   Scenario.repocopy Scenario.bob
                   [([u "pkg"; u "1.0"; u "1"], [Scenario.alice])] initial
                   (b Scenario.fc32) [u "pkg"; u "1.0"; u "1"]
                   (mkDiff 2 [u "README"; u "sources"])
                   eq_refl eq_refl eq_refl eq_refl) _).
  right. intros path [<- | [<- | []]] Hp;
    apply packaging_path_iff in Hp; discriminate Hp.
Defined.

(** [Scenario.carol] touches a README and a patch: recorded. *)
Example patch_is_recorded :
  fst (iteration Scenario.mixed_files (u "pkg") Scenario.repocopy
                 Scenario.carol [] initial)
  = Ok (Continue, [([u "pkg"; u "1.0"; u "1"], [Scenario.carol])]).
Proof. reflexivity. Qed.

(** [Scenario.bob] touches no packaging file: absent from the output. *)
Example unrelated_files_not_rendered :
  fst (produce_changelog Scenario.mixed_files Scenario.repopath initial)
  = Ok [ u "* Sun Aug 09 2020 Carol <carol@example.com>";
         u "- Fix the build";
         [];
         u "* Tue Sep 01 2020 Alice <alice@example.com> - 1.0-1";
         u "- Update to 1.0";
         [] ].
Proof. vm_compute. reflexivity. Qed.

(** ** C7 and C10: the query fails *)

(** The query raises an exception of class [Exception]: the commit is
    passed over. *)
Lemma query_raises
    (w : World) (name repocopy : str) (c : Commit) (rest : list Commit)
    (data : dict) (s : state) (e : exn) :
  queried w name repocopy s c = true ->
  check_output w (Some c) (rpm_command name) repocopy = Raise e ->
  is_Exception e = true ->
  walk_loop w name repocopy (c :: rest) data s
  = walk_loop w name repocopy rest data
      (record (EvRun (rpm_command name) repocopy
               :: failure_log (rpm_command name) e)
              (at_spec_test name repocopy c s)).
Proof.
  intros Hq Hraise He.
  rewrite walk_loop_cons, iteration_queried by exact Hq.
  rewrite (resolve_raises w name repocopy c data _ e)
    by (reflexivity || assumption).
  reflexivity.
Qed.

(** *** What the log holds *)

(** The exit code is written in decimal digits, as the standard library
    prints an integer. *)
Lemma str_of_Z_decimal (n : Z) :
  str_of_Z n = u (NilZero.string_of_int (Z.to_int n)).
Proof. destruct n; reflexivity. Qed.

(** The first message for the query: the words of the command with a blank
    between them, and the exit code. *)
Lemma msg_return_code_rpm (name : str) (returncode : Z) :
  msg_return_code (rpm_command name) returncode
  = u "Command `rpm --qf %{name}  %{version}  %{release}" ++ [LF]
    ++ u " --specfile " ++ name ++ u ".spec` return code: `"
    ++ u (NilZero.string_of_int (Z.to_int returncode)) ++ u "`".
Proof.
  unfold msg_return_code, rpm_command. rewrite str_of_Z_decimal.
  generalize (u (NilZero.string_of_int (Z.to_int returncode))).
  intros digits. cbn [join]. rewrite <- !app_assoc. reflexivity.
Qed.

Lemma unhexdigit_hexdigit (k : N) :
  (k < 16)%N -> unhexdigit (hexdigit k) = k.
Proof.
  intros Hk. unfold unhexdigit, hexdigit.
  destruct (N.ltb_spec k 10).
  - destruct (N.ltb_spec (48 + k) 58); lia.
  - destruct (N.ltb_spec (87 + k) 58); lia.
Qed.

(** Comparisons of two code points that are both known. *)
Ltac known_eqb :=
  repeat match goal with
         | |- context [N.eqb ?a ?b] =>
             let v := eval vm_compute in (N.eqb a b) in
             match v with
             | true => change (N.eqb a b) with true
             | false => change (N.eqb a b) with false
             end
         end.

(** One octet read back from what [repr] wrote for it. *)
Lemma bytes_of_body_byte (q : char) (x : Byte.byte) (tail : str) :
  q = 34%N \/ q = 39%N ->
  bytes_of_body q (repr_byte q x ++ tail)
  = option_map (cons (Byte.to_N x)) (bytes_of_body q tail).
Proof.
  intros Hq. pose proof (Byte.to_N_bounded x) as Hb.
  unfold repr_byte. cbv zeta.
  generalize dependent (Byte.to_N x). intros n Hb.
  destruct ((n =? q) || (n =? 92))%N eqn:Hescaped.
  { destruct Hq as [-> | ->]; cbn [app bytes_of_body]; known_eqb;
      cbn [orb]; rewrite Hescaped; reflexivity. }
  apply orb_false_iff in Hescaped as [Hnq Hn92].
  destruct (n =? 9)%N eqn:H9.
  { apply N.eqb_eq in H9. subst n. change (u "\t") with [92%N; 116%N].
    destruct Hq as [-> | ->]; cbn [app bytes_of_body]; known_eqb;
      reflexivity. }
  destruct (n =? 10)%N eqn:H10.
  { apply N.eqb_eq in H10. subst n. change (u "\n") with [92%N; 110%N].
    destruct Hq as [-> | ->]; cbn [app bytes_of_body]; known_eqb;
      reflexivity. }
  destruct (n =? 13)%N eqn:H13.
  { apply N.eqb_eq in H13. subst n. change (u "\r") with [92%N; 114%N].
    destruct Hq as [-> | ->]; cbn [app bytes_of_body]; known_eqb;
      reflexivity. }
  destruct ((n <? 32) || (127 <=? n))%N eqn:Hhex.
  { change (u "\x") with [92%N; 120%N].
    assert (Hvalue : (16 * unhexdigit (hexdigit (n / 16))
                      + unhexdigit (hexdigit (n mod 16)))%N = n).
    { rewrite !unhexdigit_hexdigit.
      - symmetry. apply N.div_mod. discriminate.
      - apply N.mod_lt. discriminate.
      - apply N.Div0.div_lt_upper_bound. lia. }
    destruct Hq as [-> | ->]; cbn [app bytes_of_body]; known_eqb;
      cbn [orb]; rewrite Hvalue; reflexivity. }
  cbn [app bytes_of_body]. rewrite Hnq, Hn92. reflexivity.
Qed.

Lemma bytes_of_body_bytes (q : char) (bs : bytes) :
  q = 34%N \/ q = 39%N ->
  bytes_of_body q (flat_map (repr_byte q) bs ++ [q])
  = Some (map Byte.to_N bs).
Proof.
  intros Hq. induction bs as [|x bs IH]; cbn [flat_map map app].
  - cbn [bytes_of_body]. rewrite N.eqb_refl. reflexivity.
  - rewrite <- app_assoc, bytes_of_body_byte, IH by exact Hq. reflexivity.
Qed.

(** The octets can be read back from their [repr], whatever they are. *)
Lemma bytes_of_repr_bytes (bs : bytes) :
  bytes_of_repr (repr_bytes bs) = Some (map Byte.to_N bs).
Proof.
  unfold repr_bytes. cbv zeta.
  match goal with
  | |- context [if ?t then 34%N else 39%N] =>
      generalize (bytes_of_body_bytes (if t then 34%N else 39%N) bs);
      generalize (if t then 34%N else 39%N) (t)
  end.
  intros q t Hbody. change (u "b") with [98%N].
  cbn [app bytes_of_repr]. known_eqb. apply Hbody.
  clear. destruct t; auto.
Qed.

(** Printable text without quote or backslash is written as it is, between
    [b'] and [']. *)
Lemma repr_bytes_plain (bs : bytes) :
  forallb plain bs = true ->
  repr_bytes bs = u "b'" ++ map Byte.to_N bs ++ u "'".
Proof.
  intros Hplain. unfold repr_bytes. cbv zeta.
  assert (Hquote : existsb (fun x => (Byte.to_N x =? 39)%N) bs = false).
  { induction bs as [|x bs IH]; [reflexivity|].
    cbn [forallb existsb] in *. apply andb_prop in Hplain as [Hx Hbs].
    rewrite (IH Hbs), orb_false_r. unfold plain in Hx. cbv zeta in Hx.
    apply andb_prop in Hx as [Hx _]. apply andb_prop in Hx as [_ Hx].
    apply negb_true_iff in Hx. exact Hx. }
  rewrite Hquote. cbn [andb].
  assert (Hbody : flat_map (repr_byte 39%N) bs = map Byte.to_N bs).
  { induction bs as [|x bs IH]; [reflexivity|].
    cbn [forallb existsb flat_map map] in *.
    apply andb_prop in Hplain as [Hx Hbs].
    apply orb_false_iff in Hquote as [_ Hquote].
    rewrite (IH Hbs Hquote). unfold plain in Hx. cbv zeta in Hx.
    unfold repr_byte. cbv zeta.
    generalize dependent (Byte.to_N x). intros n Hx.
    apply andb_prop in Hx as [Hx H92]. apply andb_prop in Hx as [Hx H39].
    apply andb_prop in Hx as [Hlow Hhigh].
    apply negb_true_iff in H92, H39.
    apply N.leb_le in Hlow. apply N.ltb_lt in Hhigh.
    rewrite H39, H92. cbn [orb].
    replace (n =? 9)%N with false by (symmetry; apply N.eqb_neq; lia).
    replace (n =? 10)%N with false by (symmetry; apply N.eqb_neq; lia).
    replace (n =? 13)%N with false by (symmetry; apply N.eqb_neq; lia).
    replace (n <? 32)%N with false by (symmetry; apply N.ltb_ge; lia).
    replace (127 <=? n)%N with false by (symmetry; apply N.leb_gt; lia).
    reflexivity. }
  rewrite Hbody. reflexivity.
Qed.

(** C7.  When the query exits with a status that is not zero,
    [check_output] raises [CalledProcessError].  Three messages are logged
    then, in this order: one with the words of the command and the exit
    code in decimal digits, one with the captured standard output and one
    with the captured standard error; [data] is as before and the walk goes
    on with the next commit.  The output and the error are logged as
    [repr] writes them, from which every octet captured can be read back;
    printable text without quote or backslash stands as it is between [b']
    and [']. *)
Theorem query_failure_logged_and_skipped
    (w : World) (name repocopy : str) (c : Commit) (rest : list Commit)
    (data : dict) (s : state) (returncode : Z) (stdout stderr : bytes) :
  queried w name repocopy s c = true ->
  check_output w (Some c) (rpm_command name) repocopy
  = Raise (CalledProcessError returncode stdout stderr) ->
  walk_loop w name repocopy (c :: rest) data s
  = walk_loop w name repocopy rest data
      (record
         [ EvRun (rpm_command name) repocopy;
           EvLogError
             (u "Command `rpm --qf %{name}  %{version}  %{release}" ++ [LF]
              ++ u " --specfile " ++ name ++ u ".spec` return code: `"
              ++ u (NilZero.string_of_int (Z.to_int returncode)) ++ u "`");
           EvLogError
             (u "stdout:" ++ [LF] ++ u "-------" ++ [LF]
              ++ repr_bytes stdout);
           EvLogError
             (u "stderr:" ++ [LF] ++ u "-------" ++ [LF]
              ++ repr_bytes stderr) ]
         (at_spec_test name repocopy c s))
  /\ bytes_of_repr (repr_bytes stdout) = Some (map Byte.to_N stdout)
  /\ bytes_of_repr (repr_bytes stderr) = Some (map Byte.to_N stderr)
  /\ (forallb plain stdout = true ->
      repr_bytes stdout = u "b'" ++ map Byte.to_N stdout ++ u "'")
  /\ (forallb plain stderr = true ->
      repr_bytes stderr = u "b'" ++ map Byte.to_N stderr ++ u "'").
Proof.
  intros Hq Hraise. split; [|split; [|split; [|split]]].
  - rewrite (query_raises w name repocopy c rest data s _ Hq Hraise eq_refl).
    cbn [failure_log]. rewrite msg_return_code_rpm. reflexivity.
  - apply bytes_of_repr_bytes.
  - apply bytes_of_repr_bytes.
  - apply repr_bytes_plain.
  - apply repr_bytes_plain.
Qed.

(** The query of [Scenario.bob] exits with status 1, having printed [pkg]
    and, on the standard error, [error: bad spec]. *)
Lemma query_failure_logged_and_skipped_witness :
  walk_loop Scenario.query_exits_1 (u "pkg") Scenario.repocopy
            [Scenario.bob; Scenario.carol] [] initial
  = walk_loop Scenario.query_exits_1 (u "pkg") Scenario.repocopy
      [Scenario.carol] []
      (record
         [ EvRun (rpm_command (u "pkg")) Scenario.repocopy;
           EvLogError
             (u "Command `rpm --qf %{name}  %{version}  %{release}" ++ [LF]
              ++ u " --specfile pkg.spec` return code: `1`");
           EvLogError
             (u "stdout:" ++ [LF] ++ u "-------" ++ [LF] ++ u "b'pkg'");
           EvLogError
             (u "stderr:" ++ [LF] ++ u "-------" ++ [LF]
              ++ u "b'error: bad spec'") ]
         (at_spec_test (u "pkg") Scenario.repocopy Scenario.bob initial)).
Proof.
  apply (proj1 (query_failure_logged_and_skipped
                  Scenario.query_exits_1 (u "pkg") Scenario.repocopy
                  Scenario.bob [Scenario.carol] [] initial 1 (b "pkg")
                  (b "error: bad spec") eq_refl eq_refl)).
Defined.

(** The three messages, and the output without [Scenario.bob]. *)
Example query_exits_1_run :
  fst (produce_changelog Scenario.query_exits_1 Scenario.repopath initial)
  = Ok [ u "* Sun Aug 09 2020 Carol <carol@example.com>";
         u "- Fix the build";
         [];
         u "* Tue Sep 01 2020 Alice <alice@example.com> - 1.0-1";
         u "- Update to 1.0";
         [] ]
  /\ failure_log (rpm_command (u "pkg"))
                 (CalledProcessError 1 (b "pkg") (b "error: bad spec"))
     = [ EvLogError
           (u "Command `rpm --qf %{name}  %{version}  %{release}" ++ [LF]
            ++ u " --specfile pkg.spec` return code: `1`");
         EvLogError (u "stdout:" ++ [LF] ++ u "-------" ++ [LF]
                     ++ u "b'pkg'");
         EvLogError (u "stderr:" ++ [LF] ++ u "-------" ++ [LF]
                     ++ u "b'error: bad spec'") ].
Proof. split; vm_compute; reflexivity. Qed.

(** C10.  Whatever exception of class [Exception] the invocation of the
    query raises, [FileNotFoundError] for a missing executable as well as
    [CalledProcessError], the commit is passed over: [data] is as before,
    nothing is raised and the walk goes on with the next commit. *)
Theorem query_exception_skips_commit
    (w : World) (name repocopy : str) (c : Commit) (rest : list Commit)
    (data : dict) (s : state) (e : exn) :
  queried w name repocopy s c = true ->
  check_output w (Some c) (rpm_command name) repocopy = Raise e ->
  is_Exception e = true ->
  fst (iteration w name repocopy c data s) = Ok (Continue, data)
  /\ walk_loop w name repocopy (c :: rest) data s
     = walk_loop w name repocopy rest data
         (record (EvRun (rpm_command name) repocopy
                  :: failure_log (rpm_command name) e)
                 (at_spec_test name repocopy c s)).
Proof.
  intros Hq Hraise He. split.
  - rewrite iteration_queried by exact Hq.
    rewrite (resolve_raises w name repocopy c data _ e)
      by (reflexivity || assumption).
    reflexivity.
  - apply query_raises; assumption.
Qed.

(** No [rpm] executable at [Scenario.bob]. *)
Lemma query_exception_skips_commit_witness :
  fst (iteration Scenario.no_executable (u "pkg") Scenario.repocopy
                 Scenario.bob [] initial) = Ok (Continue, [])
  /\ walk_loop Scenario.no_executable (u "pkg") Scenario.repocopy
               [Scenario.bob; Scenario.carol] [] initial
     = walk_loop Scenario.no_executable (u "pkg") Scenario.repocopy
         [Scenario.carol] []
         (record [EvRun (rpm_command (u "pkg")) Scenario.repocopy]
                 (at_spec_test (u "pkg") Scenario.repocopy Scenario.bob
                               initial)).
Proof.
  apply (query_exception_skips_commit
           Scenario.no_executable (u "pkg") Scenario.repocopy Scenario.bob
           [Scenario.carol] [] initial FileNotFoundError).
  - reflexivity.
  - reflexivity.
  - reflexivity.
Defined.

Example no_executable_run :
  fst (produce_changelog Scenario.no_executable Scenario.repopath initial)
  = Ok [ u "* Sun Aug 09 2020 Carol <carol@example.com>";
         u "- Fix the build";
         [];
         u "* Tue Sep 01 2020 Alice <alice@example.com> - 1.0-1";
         u "- Update to 1.0";
         [] ].
Proof. vm_compute. reflexivity. Qed.

(** ** C8: no spec file *)

Lemma sound_groups_step (c : Commit) (rest : list Commit) (data : dict)
                        (r : flow * dict) :
  sound_groups (c :: rest) data -> outcome c data r ->
  sound_groups rest (snd r).
Proof.
  intros Hd [-> | (_ & Hc & k & ->)]; [exact Hd|].
  intros k0 l Hl.
  apply In_dict_append in Hl as [Hl | [[l0 [Hl ->]] | ->]].
  - exact (Hd k0 l Hl).
  - destruct (Hd k0 l0 Hl) as [_ Hrep]. split.
    + destruct l0; discriminate.
    + rewrite forallb_app, Hrep. cbn. rewrite Hc. reflexivity.
  - split; [discriminate|]. cbn. rewrite Hc. reflexivity.
Qed.

Lemma render_commits_short_key
    (w : World) (nvr : key) (n : nat) (last_one : Commit) :
  (List.length nvr < 3)%nat ->
  forall (before : list Commit) (idx : nat) (lines : list str),
    (idx + List.length before + 1 = n)%nat ->
    forallb representable (before ++ [last_one]) = true ->
    render_commits w nvr n idx (before ++ [last_one]) lines
    = Raise IndexError.
Proof.
  intros Hshort.
  induction before as [|c before IH]; intros idx lines Hn Hrep.
  - simpl in Hn, Hrep. apply andb_prop in Hrep as [Hrep _].
    cbn [app render_commits].
    rewrite (utcfromtimestamp_representable _ Hrep).
    replace (idx + 1 =? n)%nat with true by (symmetry; apply Nat.eqb_eq; lia).
    cbn [rbind]. unfold getitem.
    destruct nvr as [|f0 [|f1 [|f2 t]]]; simpl in *; try reflexivity; lia.
  - simpl in Hn, Hrep. apply andb_prop in Hrep as [Hc Hrep].
    change ((c :: before) ++ [last_one]) with (c :: before ++ [last_one]).
    rewrite render_commits_plain; [|exact Hc|apply Nat.eqb_neq; lia].
    apply IH; [lia | exact Hrep].
Qed.

Lemma render_outcome (w : World) (data : dict) :
  (forall k l, In (k, l) data ->
               l <> [] /\ forallb representable l = true) ->
  forall lines,
    render w data lines
    = if forallb (fun g => (3 <=? List.length (fst g))%nat) data
      then Ok (lines ++ flat_map (fun g => group_lines w (fst g) (snd g)) data)
      else Raise IndexError.
Proof.
  induction data as [|[nvr commits] data IH]; intros Hsound lines.
  - simpl. rewrite app_nil_r. reflexivity.
  - destruct (Hsound nvr commits (or_introl eq_refl)) as [Hne Hrep].
    assert (Htail : forall k l, In (k, l) data ->
                                l <> [] /\ forallb representable l = true).
    { intros k l Hin. apply (Hsound k l). now right. }
    cbn [render forallb fst flat_map snd].
    destruct (3 <=? List.length nvr)%nat eqn:Hlen.
    + apply Nat.leb_le in Hlen.
      rewrite render_commits_group by assumption. cbn [rbind andb].
      rewrite (IH Htail).
      destruct (forallb _ data); [rewrite app_assoc|]; reflexivity.
    + apply Nat.leb_gt in Hlen. cbn [andb].
      destruct commits as [|first_walked later]; [congruence|].
      cbn [rev]. rewrite (render_commits_short_key w nvr _ first_walked).
      * reflexivity.
      * exact Hlen.
      * rewrite length_rev. simpl. lia.
      * simpl in Hrep. apply andb_prop in Hrep as [Hc Hl].
        rewrite forallb_forall in Hl.
        rewrite forallb_app. apply andb_true_intro. split.
        -- apply forallb_forall. intros x Hx. apply Hl. now apply in_rev.
        -- simpl. rewrite Hc. reflexivity.
Qed.


(** C8.  The walk has made [k] turns and collected [data] when it comes to
    a commit whose checkout leaves no spec file in the copy.  The walk ends
    there without raising: the trace shows the visit, the checkout, the test
    for the file and the message, then the removal of the directory, and no
    later commit.  The run returns the rendering of [data], and that has
    two outcomes.  When each tuple recorded has three fields at least,
    these are the lines of every group, and every commit collected has its
    entry among them.  When one tuple has fewer, the rendering raises
    [IndexError] and the run returns no line, of no commit. *)
Theorem missing_spec_ends_walk
    (w : World) (repopath : str) (k : nat) (cs : list Commit) (c : Commit)
    (rest : list Commit) (data : dict) (s s0 : state) :
  copytree w repopath (copy_of w repopath) = Ok tt ->
  walk w (copy_of w repopath) = Ok cs ->
  after_iterations w (basename repopath) (copy_of w repopath) k cs []
                   (at_start w repopath s0)
  = Some (c :: rest, data, s) ->
  checked_out w s c = true ->
  path_exists w (Some c) (spec_path (basename repopath) (copy_of w repopath))
  = false ->
  fst (collect w repopath s0) = Ok data
  /\ produce_changelog w repopath s0
     = (render w data [],
        record [EvPrint (u "No more spec file, bailing");
                EvCleanup (mkdtemp w)]
               (at_spec_test (basename repopath) (copy_of w repopath) c s))
  /\ (forallb (fun g => (3 <=? List.length (fst g))%nat) data = true ->
      render w data []
      = Ok (flat_map (fun g => group_lines w (fst g) (snd g)) data)
      /\ forall nvr commits x,
           In (nvr, commits) data -> In x commits ->
           exists sfx,
             incl (entry w sfx x)
                  (flat_map (fun g => group_lines w (fst g) (snd g)) data))
  /\ (forallb (fun g => (3 <=? List.length (fst g))%nat) data = false ->
      render w data [] = Raise IndexError).
Proof.
  intros Hcopy Hwalk Hafter Hco Habsent.
  assert (Hsound : sound_groups (c :: rest) data).
  { apply (after_iterations_invariant w (basename repopath)
             (copy_of w repopath) sound_groups sound_groups_step
             k cs [] (at_start w repopath s0) (c :: rest) data s);
      [intros g l [] | exact Hafter]. }
  assert (Hcollect : collect w repopath s0
                     = (Ok data,
                        record [EvPrint (u "No more spec file, bailing");
                                EvCleanup (mkdtemp w)]
                               (at_spec_test (basename repopath)
                                  (copy_of w repopath) c s))).
  { rewrite collect_cases, Hcopy, Hwalk. cbv zeta.
    rewrite (after_iterations_walk _ _ _ _ _ _ _ _ _ _ Hafter).
    rewrite walk_loop_cons, iteration_no_spec by assumption.
    cbn [fst snd]. unfold record. cbn [trace reads worktree].
    rewrite <- app_assoc. reflexivity. }
  split; [rewrite Hcollect; reflexivity|].
  split; [rewrite produce_changelog_collect, Hcollect; reflexivity|].
  rewrite (render_outcome w data Hsound). split.
  - intros Hthree. rewrite Hthree. split; [reflexivity|].
    intros nvr commits x Hin Hx.
    destruct (group_lines_entry w nvr commits x Hx) as [sfx Hincl].
    exists sfx. intros line Hline. apply in_flat_map.
    exists (nvr, commits). split; [exact Hin | apply Hincl, Hline].
  - intros Hshort. rewrite Hshort. reflexivity.
Qed.

(** [Scenario.spec_appears]: the fifth commit back has no [pkg.spec]; the
    four before it are rendered. *)
Lemma missing_spec_ends_walk_witness :
  fst (produce_changelog Scenario.spec_appears Scenario.repopath initial)
  = Ok [ u "* Wed Jul 29 2020 Dave <dave@example.com>";
         u "- Rebuild";
         [];
         u "* Sun Aug 09 2020 Carol <carol@example.com>";
         u "- Fix the build";
         [];
         u "* Fri Aug 21 2020 Bob <bob@example.com>";
         u "- Add a patch";
         [];
         u "* Tue Sep 01 2020 Alice <alice@example.com> - 1.0-1";
         u "- Update to 1.0";
         [] ].
Proof.
  pose proof
    (fun data s H =>
       missing_spec_ends_walk Scenario.spec_appears Scenario.repopath 4
         [Scenario.alice; Scenario.bob; Scenario.carol; Scenario.dave;
          Scenario.erin]
         Scenario.erin [] data s initial eq_refl eq_refl H)
    as Hthm.
  edestruct Hthm as [_ [Hrun _]].
  - vm_compute. reflexivity.
  - reflexivity.
  - reflexivity.
  - rewrite Hrun. vm_compute. reflexivity.
Defined.

(** C8 as the claim words it fails.  In [Scenario.no_dist_tag_then_no_spec]
    the release of [Scenario.alice] has no dot, so she is recorded under a
    tuple of two fields (C2); the checkout of [Scenario.erin], next, leaves
    no [pkg.spec].  The walk ends there without raising, as the claim has
    it, with [Scenario.alice] collected; but she is not rendered: the run
    raises [IndexError] and returns no line. *)
Lemma collected_commit_not_rendered :
  fst (collect Scenario.no_dist_tag_then_no_spec Scenario.repopath initial)
  = Ok [([u "pkg"; u "1"], [Scenario.alice])]
  /\ last (removelast
             (trace (snd (collect Scenario.no_dist_tag_then_no_spec
                            Scenario.repopath initial))))
          (EvPrint [])
     = EvPrint (u "No more spec file, bailing")
  /\ fst (produce_changelog Scenario.no_dist_tag_then_no_spec
            Scenario.repopath initial)
     = Raise IndexError.
Proof. repeat split; vm_compute; reflexivity. Qed.

(** ** C9: the temporary directory *)

Lemma walk_event_on_copy (name repocopy : str) (cs : list Commit)
                         (ev : event) :
  walk_event name repocopy cs ev -> on_copy name repocopy ev.
Proof.
  intros [c [_ [-> | Hbody]]]; [exact I|].
  destruct ev; simpl in *; tauto.
Qed.

(** C9.  Whatever way the run ends, with the lines or with an exception
    raised by the copy, by the walk or by the rendering, its trace is: the
    directory made, the copy of the repository taken into it, effects that
    all stay within that copy (no other directory is made, nothing else is
    copied), and the removal of the directory as the last effect.  So the
    directory is made once and removed once; the rendering, which comes
    after the [with] block, finds the state as the block left it. *)
Theorem workspace_released_once (w : World) (repopath : str) (s : state) :
  snd (produce_changelog w repopath s) = snd (collect w repopath s)
  /\ exists evs,
       trace (snd (produce_changelog w repopath s))
       = trace s
         ++ [EvMkdtemp (mkdtemp w); EvCopytree repopath (copy_of w repopath)]
         ++ evs ++ [EvCleanup (mkdtemp w)]
       /\ Forall (on_copy (basename repopath) (copy_of w repopath)) evs.
Proof.
  rewrite produce_changelog_collect. cbn [snd]. split; [reflexivity|].
  destruct (collect_trace w repopath s) as [evs [Htr Hevs]].
  exists evs. split; [exact Htr|].
  eapply Forall_impl; [|exact Hevs].
  intros ev [-> | [cs Hev]]; [reflexivity|].
  eapply walk_event_on_copy. exact Hev.
Qed.

(** An error of the checkout, and an interruption, which is not of class
    [Exception] and goes past the [except] clause: the run ends there, the
    directory removed. *)
Example cleanup_on_uncaught_errors :
  fst (produce_changelog Scenario.checkout_fails Scenario.repopath initial)
  = Raise GitError
  /\ last (trace (snd (produce_changelog Scenario.checkout_fails
                         Scenario.repopath initial)))
          (EvPrint [])
     = EvCleanup (u "/tmp/tmpq1w2e3")
  /\ fst (produce_changelog Scenario.interrupted Scenario.repopath initial)
     = Raise KeyboardInterrupt
  /\ last (trace (snd (produce_changelog Scenario.interrupted
                         Scenario.repopath initial)))
          (EvPrint [])
     = EvCleanup (u "/tmp/tmpq1w2e3").
Proof. repeat split. Qed.

(** The rendering raises: the directory was removed before. *)
Example cleanup_before_rendering_raises :
  fst (produce_changelog Scenario.two_fields Scenario.repopath initial)
  = Raise IndexError
  /\ last (trace (snd (produce_changelog Scenario.two_fields
                         Scenario.repopath initial)))
          (EvPrint [])
     = EvCleanup (u "/tmp/tmpq1w2e3").
Proof. split; vm_compute; reflexivity. Qed.

(** * Further properties *)

(** ** [run_command] *)

(** X1.  [run_command] returns what [check_output] returns and logs nothing
    then.  It never raises [CalledProcessError]: that one is logged and a
    bare [Exception] raised in its place, so the exit code reaches the log
    and not the caller.  Any other exception goes through as it is, without
    a message in the log.  The clock and the working tree are left alone. *)
Theorem run_command_outcomes
    (w : World) (command : list str) (cwd : str) (s : state) :
  (forall output,
     fst (run_command w command cwd s) = Ok output
     <-> check_output w (worktree s) command cwd = Ok output)
  /\ (forall returncode stdout stderr,
        fst (run_command w command cwd s)
        <> Raise (CalledProcessError returncode stdout stderr))
  /\ (forall returncode stdout stderr,
        check_output w (worktree s) command cwd
        = Raise (CalledProcessError returncode stdout stderr) ->
        fst (run_command w command cwd s)
        = Raise (Exception (u "Command failed to run")))
  /\ (forall e,
        check_output w (worktree s) command cwd = Raise e ->
        (forall returncode stdout stderr,
           e <> CalledProcessError returncode stdout stderr) ->
        fst (run_command w command cwd s) = Raise e)
  /\ snd (run_command w command cwd s)
     = record (EvRun command cwd
               :: match check_output w (worktree s) command cwd with
                  | Ok _ => []
                  | Raise e => failure_log command e
                  end) s.
Proof.
  unfold run_command. run_monad.
  destruct (check_output w (worktree s) command cwd) as [out|e] eqn:Hq.
  - cbn [fst snd]. repeat split; try discriminate; try congruence.
  - destruct e; run_monad; cbn [fst snd failure_log]; unfold record;
      cbn [trace reads worktree]; rewrite <- ?app_assoc;
      (repeat split; try discriminate; try congruence;
       try (intros e' He' Hnot; inversion He'; subst;
            try reflexivity; exfalso; eapply Hnot; reflexivity)).
Qed.

(** ** Errors the walk does not catch *)

(** X2.  The [try] block holds the query only.  When the output of the
    query is not UTF-8 the decoding, which comes after the block, raises:
    the walk ends there with that exception, [data] is lost with it and the
    commits after this one are not looked at. *)
Theorem undecodable_output_aborts
    (w : World) (name repocopy : str) (c : Commit) (rest : list Commit)
    (data : dict) (s : state) (output : bytes) (e : exn) :
  queried w name repocopy s c = true ->
  check_output w (Some c) (rpm_command name) repocopy = Ok output ->
  decode_utf8 output = Raise e ->
  walk_loop w name repocopy (c :: rest) data s
  = (Raise e,
     record [EvRun (rpm_command name) repocopy]
            (at_spec_test name repocopy c s)).
Proof.
  intros Hq Hout Hdec.
  rewrite walk_loop_cons, iteration_queried by exact Hq.
  unfold resolve_and_record, try_except_Exception, run_command, parse_output,
    at_spec_test, record.
  run_monad. rewrite Hout. run_monad. rewrite Hdec.
  cbn [rbind]. rewrite <- app_assoc. reflexivity.
Qed.

Lemma undecodable_output_aborts_witness :
  walk_loop Cases.undecodable (u "pkg") Scenario.repocopy
            [Scenario.bob; Scenario.carol] [] initial
  = (Raise UnicodeDecodeError,
     record [EvRun (rpm_command (u "pkg")) Scenario.repocopy]
            (at_spec_test (u "pkg") Scenario.repocopy Scenario.bob initial)).
Proof.
  apply (undecodable_output_aborts
           Cases.undecodable (u "pkg") Scenario.repocopy Scenario.bob
           [Scenario.carol] [] initial [Byte.xff] UnicodeDecodeError).
  - reflexivity.
  - reflexivity.
  - reflexivity.
Defined.

(** X3.  An error of the diff is not caught either: the walk ends with it,
    after the query has run. *)
Theorem diff_error_aborts
    (w : World) (name repocopy : str) (c : Commit) (rest : list Commit)
    (data : dict) (s : state) (output : bytes) (nvr : key) (e : exn) :
  queried w name repocopy s c = true ->
  check_output w (Some c) (rpm_command name) repocopy = Ok output ->
  parse_output output = Ok nvr ->
  filter_diff w c = Raise e ->
  walk_loop w name repocopy (c :: rest) data s
  = (Raise e,
     record [EvRun (rpm_command name) repocopy; EvDiff repocopy c]
            (at_spec_test name repocopy c s)).
Proof.
  intros Hq Hout Hparse Hd.
  rewrite walk_loop_cons, iteration_queried by exact Hq.
  unfold resolve_and_record, try_except_Exception, run_command,
    record_if_relevant, at_spec_test, record.
  run_monad. rewrite Hout. run_monad. rewrite Hparse.
  unfold filter_diff in Hd.
  destruct (parents c) as [|p ps]; run_monad; rewrite Hd;
    rewrite <- !app_assoc; reflexivity.
Qed.

Lemma diff_error_aborts_witness :
  walk_loop Cases.diff_fails (u "pkg") Scenario.repocopy
            [Scenario.bob; Scenario.carol] [] initial
  = (Raise GitError,
     record [EvRun (rpm_command (u "pkg")) Scenario.repocopy;
             EvDiff Scenario.repocopy Scenario.bob]
            (at_spec_test (u "pkg") Scenario.repocopy Scenario.bob initial)).
Proof.
  apply (diff_error_aborts
           Cases.diff_fails (u "pkg") Scenario.repocopy Scenario.bob
           [Scenario.carol] [] initial (b Scenario.fc32)
           [u "pkg"; u "1.0"; u "1"] GitError).
  - reflexivity.
  - reflexivity.
  - reflexivity.
  - reflexivity.
Defined.

(** X4.  An error of the checkout ends the walk with that error, once the
    clock has been read: after the visit and the checkout the trace holds
    nothing, so the spec file is not looked for, nothing is queried or
    compared, and no later commit is taken. *)
Theorem checkout_error_aborts
    (w : World) (name repocopy : str) (c : Commit) (rest : list Commit)
    (data : dict) (s : state) (e : exn) :
  is_merge c = false ->
  within_window w s c = true ->
  checkout_tree w c = Raise e ->
  fst (walk_loop w name repocopy (c :: rest) data s) = Raise e
  /\ trace (snd (walk_loop w name repocopy (c :: rest) data s))
     = trace s ++ [EvNext c; EvCheckout repocopy c]
  /\ reads (snd (walk_loop w name repocopy (c :: rest) data s))
     = S (reads s).
Proof.
  intros Hm Hwin Hco.
  assert (Hrun : walk_loop w name repocopy (c :: rest) data s
                 = (Raise e,
                    mkState (trace s ++ [EvNext c; EvCheckout repocopy c])
                            (S (reads s)) None)).
  { rewrite walk_loop_cons.
    unfold iteration. unfold bind at 1. cbn [emit].
    rewrite loop_body_within_window by assumption.
    unfold process_commit. run_monad. rewrite Hco.
    unfold tick. cbn [trace reads worktree].
    rewrite <- app_assoc. reflexivity. }
  rewrite Hrun. auto.
Qed.

Lemma checkout_error_aborts_witness :
  fst (walk_loop Scenario.checkout_fails (u "pkg") Scenario.repocopy
                 [Scenario.bob; Scenario.carol] [] initial)
  = Raise GitError
  /\ trace (snd (walk_loop Scenario.checkout_fails (u "pkg")
                   Scenario.repocopy [Scenario.bob; Scenario.carol] []
                   initial))
     = trace initial
       ++ [EvNext Scenario.bob; EvCheckout Scenario.repocopy Scenario.bob]
  /\ reads (snd (walk_loop Scenario.checkout_fails (u "pkg")
                   Scenario.repocopy [Scenario.bob; Scenario.carol] []
                   initial))
     = S (reads initial).
Proof.
  apply (checkout_error_aborts
           Scenario.checkout_fails (u "pkg") Scenario.repocopy Scenario.bob
           [Scenario.carol] [] initial GitError).
  - reflexivity.
  - reflexivity.
  - reflexivity.
Defined.

(** X5.  A commit that is not a merge commit and whose timestamp lies
    outside the years 1 to 9999 makes [utcfromtimestamp] raise, and the
    walk ends with what it raises, before the clock is read and before
    anything is checked out: [ValueError] as long as the C library's
    [gmtime] converts the timestamp, [OSError] beyond that, and
    [OverflowError] for a timestamp that a [time_t] does not hold. *)
Theorem timestamp_out_of_range_aborts
    (w : World) (name repocopy : str) (c : Commit) (rest : list Commit)
    (data : dict) (s : state) :
  is_merge c = false ->
  commit_time c < MIN_TIMESTAMP \/ MAX_TIMESTAMP < commit_time c ->
  exists e,
    walk_loop w name repocopy (c :: rest) data s
    = (Raise e, record [EvNext c] s)
    /\ (MIN_GMTIME <= commit_time c <= MAX_GMTIME -> e = ValueError)
    /\ (MIN_TIME_T <= commit_time c <= MAX_TIME_T ->
        commit_time c < MIN_GMTIME \/ MAX_GMTIME < commit_time c ->
        e = OSError)
    /\ (commit_time c < MIN_TIME_T \/ MAX_TIME_T < commit_time c ->
        e = OverflowError).
Proof.
  intros Hm Hrange.
  destruct (utcfromtimestamp_out_of_range (commit_time c) Hrange)
    as (e & He & Hcases).
  exists e. split; [|exact Hcases].
  rewrite walk_loop_cons, (iteration_conversion_raises _ _ _ _ _ _ e)
    by assumption.
  reflexivity.
Qed.

(** [Cases.far_future] is dated in the year 10000, [Cases.end_of_time] at
    the largest 64-bit timestamp. *)
Lemma timestamp_out_of_range_aborts_witness :
  walk_loop Cases.with_far_future (u "pkg") Scenario.repocopy
            [Cases.far_future; Scenario.alice] [] initial
  = (Raise ValueError, record [EvNext Cases.far_future] initial)
  /\ walk_loop Cases.with_far_future (u "pkg") Scenario.repocopy
               [Cases.end_of_time; Scenario.alice] [] initial
     = (Raise OSError, record [EvNext Cases.end_of_time] initial).
Proof.
  split.
  - destruct (timestamp_out_of_range_aborts
                Cases.with_far_future (u "pkg") Scenario.repocopy
                Cases.far_future [Scenario.alice] [] initial eq_refl
                (or_intror eq_refl))
      as (e & Hrun & Hvalue & _).
    rewrite Hrun, Hvalue; [reflexivity|].
    vm_compute. split; discriminate.
  - destruct (timestamp_out_of_range_aborts
                Cases.with_far_future (u "pkg") Scenario.repocopy
                Cases.end_of_time [Scenario.alice] [] initial eq_refl
                (or_intror eq_refl))
      as (e & Hrun & _ & Hos & _).
    rewrite Hrun, Hos; [reflexivity | |].
    + vm_compute. split; discriminate.
    + right. reflexivity.
Defined.

(** X6.  An exception of the query that is not of class [Exception], an
    interruption for one, goes past the [except] clause and ends the
    walk. *)
Theorem interruption_not_caught
    (w : World) (name repocopy : str) (c : Commit) (rest : list Commit)
    (data : dict) (s : state) (e : exn) :
  queried w name repocopy s c = true ->
  check_output w (Some c) (rpm_command name) repocopy = Raise e ->
  is_Exception e = false ->
  walk_loop w name repocopy (c :: rest) data s
  = (Raise e,
     record [EvRun (rpm_command name) repocopy]
            (at_spec_test name repocopy c s)).
Proof.
  intros Hq Hraise He.
  rewrite walk_loop_cons, iteration_queried by exact Hq.
  unfold resolve_and_record, try_except_Exception, run_command,
    at_spec_test, record.
  run_monad. rewrite Hraise.
  destruct e; try discriminate. cbn [is_Exception].
  rewrite <- app_assoc. reflexivity.
Qed.

Lemma interruption_not_caught_witness :
  walk_loop Scenario.interrupted (u "pkg") Scenario.repocopy
            [Scenario.bob; Scenario.carol] [] initial
  = (Raise KeyboardInterrupt,
     record [EvRun (rpm_command (u "pkg")) Scenario.repocopy]
            (at_spec_test (u "pkg") Scenario.repocopy Scenario.bob initial)).
Proof.
  apply (interruption_not_caught
           Scenario.interrupted (u "pkg") Scenario.repocopy Scenario.bob
           [Scenario.carol] [] initial KeyboardInterrupt).
  - reflexivity.
  - reflexivity.
  - reflexivity.
Defined.

(** ** The groups *)

Lemma str_eqb_eq (s t : str) : str_eqb s t = true <-> s = t.
Proof.
  revert t. induction s as [|a s IH]; intros [|c t]; simpl;
    try (split; [discriminate | discriminate]); [tauto|].
  rewrite andb_true_iff, N.eqb_eq, IH. split.
  - intros [-> ->]. reflexivity.
  - intros H. inversion H. auto.
Qed.

Lemma key_eqb_eq (k k' : key) : key_eqb k k' = true <-> k = k'.
Proof.
  revert k'. induction k as [|a k IH]; intros [|c k']; simpl;
    try (split; [discriminate | discriminate]); [tauto|].
  rewrite andb_true_iff, str_eqb_eq, IH. split.
  - intros [-> ->]. reflexivity.
  - intros H. inversion H. auto.
Qed.

Lemma key_eqb_refl (k : key) : key_eqb k k = true.
Proof. now apply key_eqb_eq. Qed.

Lemma existsb_key_In (k : key) (ks : list key) :
  existsb (key_eqb k) ks = true <-> In k ks.
Proof.
  rewrite existsb_exists. split.
  - intros [k' [Hin Heq]]. apply key_eqb_eq in Heq. now subst.
  - intros Hin. exists k. split; [exact Hin | apply key_eqb_refl].
Qed.

Lemma dict_append_keys (k : key) (c : Commit) (data : dict) :
  map fst (dict_append k c data)
  = if existsb (key_eqb k) (map fst data)
    then map fst data else map fst data ++ [k].
Proof.
  induction data as [|[k0 l0] data IH]; simpl; [reflexivity|].
  destruct (key_eqb k k0); simpl; [reflexivity|].
  rewrite IH. destruct (existsb (key_eqb k) (map fst data)); reflexivity.
Qed.

(** X7.  [data[k].append(c)] puts [c] at the end of the commits recorded
    under [k] and leaves every other key with the commits it had.  The keys
    stay in the order in which they were first met: a key already there
    keeps its place, a new one goes last. *)
Theorem dict_append_group (k : key) (c : Commit) (data : dict) :
  group_of k (dict_append k c data) = group_of k data ++ [c]
  /\ (forall k', k' <> k ->
        group_of k' (dict_append k c data) = group_of k' data)
  /\ map fst (dict_append k c data)
     = if existsb (key_eqb k) (map fst data)
       then map fst data else map fst data ++ [k].
Proof.
  split; [|split].
  - unfold group_of. induction data as [|[k0 l0] data IH]; simpl.
    + rewrite key_eqb_refl. reflexivity.
    + destruct (key_eqb k k0) eqn:Hk; simpl; rewrite Hk; [reflexivity|].
      exact IH.
  - intros k' Hneq. unfold group_of.
    induction data as [|[k0 l0] data IH]; simpl.
    + destruct (key_eqb k' k) eqn:Hk; [|reflexivity].
      apply key_eqb_eq in Hk. contradiction.
    + destruct (key_eqb k k0) eqn:Hk; simpl.
      * apply key_eqb_eq in Hk. subst k0.
        destruct (key_eqb k' k) eqn:Hk'; [|reflexivity].
        apply key_eqb_eq in Hk'. contradiction.
      * destruct (key_eqb k' k0); [reflexivity | exact IH].
  - apply dict_append_keys.
Qed.

Lemma dict_append_Permutation (k : key) (c : Commit) (data : dict) :
  Permutation (dict_commits (dict_append k c data)) (c :: dict_commits data).
Proof.
  unfold dict_commits.
  induction data as [|[k0 l0] data IH]; simpl; [reflexivity|].
  destruct (key_eqb k k0); simpl.
  - rewrite <- app_assoc. simpl.
    symmetry. apply Permutation_middle.
  - rewrite IH. symmetry. apply Permutation_middle.
Qed.

Lemma dict_append_keys_NoDup (k : key) (c : Commit) (data : dict) :
  NoDup (map fst data) -> NoDup (map fst (dict_append k c data)).
Proof.
  intros Hnd. rewrite dict_append_keys.
  destruct (existsb (key_eqb k) (map fst data)) eqn:Hex; [exact Hnd|].
  apply NoDup_app; [exact Hnd | repeat constructor; auto |].
  intros x Hx [<- | []].
  apply existsb_key_In in Hx. congruence.
Qed.

(** ** Each commit once *)

(** X8.  When the walker hands over each commit once, a commit is recorded
    once at most: no commit is in two groups or twice in one.  Whatever the
    walk, the keys of [data] are distinct, no group is empty, and every
    commit recorded is one the walker handed over. *)
Theorem collected_once
    (w : World) (repopath : str) (s : state) (cs : list Commit)
    (data : dict) :
  walk w (copy_of w repopath) = Ok cs ->
  fst (collect w repopath s) = Ok data ->
  (NoDup cs -> NoDup (dict_commits data))
  /\ NoDup (map fst data)
  /\ incl (dict_commits data) cs
  /\ (forall k l, In (k, l) data -> l <> []).
Proof.
  intros Hwalk Hcollect.
  destruct (collect_ok w repopath s data Hcollect) as [cs0 [Hw Hloop]].
  rewrite Hwalk in Hw. inversion Hw; subst cs0. clear Hw.
  set (Inv := fun (rest : list Commit)
                  (d : list (list (list N) * list Commit)) =>
                incl rest cs
                /\ incl (dict_commits d) cs
                /\ (NoDup cs -> NoDup (dict_commits d ++ rest))
                /\ NoDup (map fst d)
                /\ (forall k l, In (k, l) d -> l <> [])).
  assert (Hstep : forall c rest d r,
             Inv (c :: rest) d -> outcome c d r -> Inv rest (snd r)).
  { intros c rest d r (Hrest & Hin & Hnd & Hkeys & Hne) Hout.
    assert (Hrest' : incl rest cs) by (intros x Hx; apply Hrest; now right).
    destruct Hout as [-> | (_ & _ & k & ->)].
    - repeat split; try assumption.
      intros Hcs. eapply NoDup_remove_1. exact (Hnd Hcs).
    - repeat split; try assumption.
      + intros x Hx.
        apply (Permutation_in _ (dict_append_Permutation k c d)) in Hx.
        destruct Hx as [<- | Hx]; [apply Hrest; now left | now apply Hin].
      + intros Hcs.
        eapply Permutation_NoDup; [|exact (Hnd Hcs)].
        rewrite (dict_append_Permutation k c d). simpl.
        symmetry. apply Permutation_middle.
      + now apply dict_append_keys_NoDup.
      + intros k0 l Hl.
        apply In_dict_append in Hl as [Hl | [[l0 [Hl ->]] | ->]].
        * eauto.
        * destruct l0; discriminate.
        * discriminate. }
  assert (Hinit : Inv cs []).
  { repeat split.
    - apply incl_refl.
    - intros x [].
    - auto.
    - constructor.
    - intros k l []. }
  destruct (walk_loop_steps w (basename repopath) (copy_of w repopath)
              Inv Hstep cs [] Hinit (at_start w repopath s)) as [_ Hpost].
  destruct (Hpost data Hloop) as [rest (_ & Hin & Hnd & Hkeys & Hne)].
  repeat split; try assumption.
  intros Hcs. eapply NoDup_app_remove_r. exact (Hnd Hcs).
Qed.

Lemma collected_once_witness :
  (NoDup [Scenario.alice; Scenario.bob; Scenario.carol] ->
   NoDup (dict_commits
            [([u "pkg"; u "1.0"; u "2"], [Scenario.alice; Scenario.carol]);
             ([u "pkg"; u "1.0"; u "1"], [Scenario.bob])]))
  /\ NoDup (map fst
              [([u "pkg"; u "1.0"; u "2"], [Scenario.alice; Scenario.carol]);
               ([u "pkg"; u "1.0"; u "1"], [Scenario.bob])])
  /\ incl (dict_commits
             [([u "pkg"; u "1.0"; u "2"], [Scenario.alice; Scenario.carol]);
              ([u "pkg"; u "1.0"; u "1"], [Scenario.bob])])
          [Scenario.alice; Scenario.bob; Scenario.carol]
  /\ (forall k l,
        In (k, l)
           [([u "pkg"; u "1.0"; u "2"], [Scenario.alice; Scenario.carol]);
            ([u "pkg"; u "1.0"; u "1"], [Scenario.bob])] ->
        l <> []).
Proof.
  apply (collected_once Cases.two_releases Scenario.repopath initial
           [Scenario.alice; Scenario.bob; Scenario.carol]).
  - reflexivity.
  - vm_compute. reflexivity.
Defined.

(** ** The walk as a fold *)

Section Fold.

Variables (w : World) (name repocopy : str).

Lemma turn_recorded (c : Commit) (data : dict) (s : state) :
  queried w name repocopy s c = true ->
  handled w name repocopy c = true ->
  fst (iteration w name repocopy c data s)
  = Ok (Continue, recorded w name repocopy c data).
Proof.
  intros Hq Hh. rewrite iteration_queried by exact Hq.
  unfold handled in Hh. unfold recorded, kept.
  destruct (check_output w (Some c) (rpm_command name) repocopy)
    as [output|e] eqn:Hout.
  - apply andb_prop in Hh as [Hparse Hd].
    destruct (parse_output output) as [nvr|e] eqn:Hp; [|discriminate].
    destruct (filter_diff w c) as [d|e] eqn:Hdiff; [|discriminate].
    rewrite (resolve_answers w name repocopy c data _ output nvr d)
      by (reflexivity || assumption).
    cbn [fst]. destruct (relevant d); reflexivity.
  - rewrite (resolve_raises w name repocopy c data _ e)
      by (reflexivity || assumption).
    reflexivity.
Qed.

Lemma recorded_In (c x : Commit) (data : dict) :
  In x (dict_commits (recorded w name repocopy c data))
  <-> In x (dict_commits data)
      \/ (x = c /\ kept w name repocopy c <> None).
Proof.
  unfold recorded. destruct (kept w name repocopy c) as [nvr|].
  - split.
    + intros Hx.
      apply (Permutation_in _ (dict_append_Permutation nvr c data)) in Hx.
      destruct Hx as [<- | Hx]; [right; split; [reflexivity|discriminate]|].
      now left.
    + intros Hx.
      apply (Permutation_in _
               (Permutation_sym (dict_append_Permutation nvr c data))).
      destruct Hx as [Hx | [-> _]]; [now right | now left].
  - split; [now left|]. intros [Hx | [_ Hk]]; [exact Hx | congruence].
Qed.

(** X9.  In a history whose commits are all handed to the query, and where
    each query either fails with an exception the [except] clause catches
    or is followed by a decoding and a diff that succeed, the walk returns
    and [data] is what the turns make of it one after the other.  A commit
    is then in [data] exactly when it was there before or it is a commit of
    the walk whose query answered and whose diff counts a changed file and
    lists a path ending in [.spec] or [.patch]. *)
Theorem walk_records_every_relevant_commit
    (cs : list Commit) (data : dict) (s : state) :
  Forall (fun c => (forall s', queried w name repocopy s' c = true)
                   /\ handled w name repocopy c = true) cs ->
  fst (walk_loop w name repocopy cs data s)
  = Ok (fold_left (fun d c => recorded w name repocopy c d) cs data)
  /\ forall x,
       In x (dict_commits
               (fold_left (fun d c => recorded w name repocopy c d) cs data))
       <-> In x (dict_commits data)
           \/ (In x cs /\ kept w name repocopy x <> None).
Proof.
  intros Hall. split.
  - revert data s. induction Hall as [|c rest [Hq Hh] _ IH]; intros data s.
    + reflexivity.
    + rewrite walk_loop_cons.
      pose proof (turn_recorded c data s (Hq s) Hh) as Hturn.
      destruct (iteration w name repocopy c data s) as [r s1].
      cbn [fst] in Hturn. subst r. cbn [fold_left]. apply IH.
  - clear Hall. revert data.
    induction cs as [|c rest IH]; intros data x; cbn [fold_left].
    + simpl. tauto.
    + rewrite IH, recorded_In. simpl. split.
      * intros [[Hx | [-> Hk]] | [Hx Hk]]; auto.
      * intros [Hx | [[-> | Hx] Hk]]; auto.
Qed.

End Fold.

(** [Scenario.query_exits_1]: the query of [Scenario.bob] fails, the two
    other commits are recorded. *)
Lemma walk_records_every_relevant_commit_witness :
  fst (walk_loop Scenario.query_exits_1 (u "pkg") Scenario.repocopy
                 [Scenario.alice; Scenario.bob; Scenario.carol] [] initial)
  = Ok [([u "pkg"; u "1.0"; u "1"], [Scenario.alice; Scenario.carol])].
Proof.
  refine (proj1 (walk_records_every_relevant_commit
                   Scenario.query_exits_1 (u "pkg") Scenario.repocopy
                   [Scenario.alice; Scenario.bob; Scenario.carol] []
                   initial _)).
  repeat (constructor; [split; [intros s'; reflexivity | reflexivity]|]).
  constructor.
Defined.

(** ** What the rendering returns *)

Lemma collected_sound (w : World) (repopath : str) (s : state)
                      (data : dict) :
  fst (collect w repopath s) = Ok data -> sound_groups [] data.
Proof.
  intros Hcollect.
  destruct (collect_ok w repopath s data Hcollect) as [cs [Hw Hloop]].
  assert (Hinit : sound_groups cs []) by (intros k l []).
  destruct (walk_loop_steps w (basename repopath) (copy_of w repopath)
              sound_groups sound_groups_step cs [] Hinit
              (at_start w repopath s)) as [_ Hpost].
  destruct (Hpost data Hloop) as [rest Hdata]. exact Hdata.
Qed.

(** X10.  The rendering of what a run collected has two outcomes.  When
    every tuple recorded has three fields or more, it returns the lines of
    the groups, one group after the other in the order of the keys.  When
    one tuple has fewer, it raises [IndexError] and no line is returned,
    those of the other groups no more than the rest.  It raises nothing
    else: the timestamps were converted once in the walk already. *)
Theorem rendering_of_collected
    (w : World) (repopath : str) (s : state) (data : dict) :
  fst (collect w repopath s) = Ok data ->
  fst (produce_changelog w repopath s) = render w data []
  /\ render w data []
     = if forallb (fun g => (3 <=? List.length (fst g))%nat) data
       then Ok (flat_map (fun g => group_lines w (fst g) (snd g)) data)
       else Raise IndexError.
Proof.
  intros Hcollect. split.
  - rewrite produce_changelog_collect. cbn [fst]. rewrite Hcollect.
    reflexivity.
  - apply render_outcome. exact (collected_sound w repopath s data Hcollect).
Qed.

(** One release is rendered, the other has a tuple of two fields. *)
Lemma rendering_of_collected_witness :
  fst (produce_changelog Scenario.two_fields Scenario.repopath initial)
  = render Scenario.two_fields [([u "pkg"; u "1"], [Scenario.alice])] []
  /\ render Scenario.two_fields [([u "pkg"; u "1"], [Scenario.alice])] []
     = Raise IndexError.
Proof.
  apply (rendering_of_collected Scenario.two_fields Scenario.repopath initial
           [([u "pkg"; u "1"], [Scenario.alice])]).
  vm_compute. reflexivity.
Defined.

(** ** The shape of the output *)

Lemma startswith_app (p t : str) : startswith p (p ++ t) = true.
Proof.
  induction p as [|a p IH]; [destruct t; reflexivity|].
  simpl. rewrite N.eqb_refl. exact IH.
Qed.

Lemma changelog_shaped_entry (w : World) (sfx : str) (c : Commit)
                             (rest : list str) :
  changelog_shaped (entry w sfx c ++ rest) = changelog_shaped rest.
Proof.
  unfold entry. cbn [app changelog_shaped].
  unfold header. rewrite <- !app_assoc.
  rewrite !startswith_app. reflexivity.
Qed.

Lemma changelog_shaped_entries (w : World) (cs : list Commit)
                               (rest : list str) :
  changelog_shaped (flat_map (entry w []) cs ++ rest)
  = changelog_shaped rest.
Proof.
  induction cs as [|c cs IH]; [reflexivity|].
  cbn [flat_map]. rewrite <- app_assoc, changelog_shaped_entry. exact IH.
Qed.

Lemma changelog_shaped_group (w : World) (nvr : key) (commits : list Commit)
                             (rest : list str) :
  changelog_shaped (group_lines w nvr commits ++ rest)
  = changelog_shaped rest.
Proof.
  destruct commits as [|first_walked later]; [reflexivity|].
  unfold group_lines.
  rewrite <- app_assoc, changelog_shaped_entries, changelog_shaped_entry.
  reflexivity.
Qed.

Lemma length_group_lines (w : World) (nvr : key) (commits : list Commit) :
  List.length (group_lines w nvr commits) = (3 * List.length commits)%nat.
Proof.
  destruct commits as [|first_walked later]; [reflexivity|].
  unfold group_lines. rewrite length_app.
  assert (H : forall l, List.length (flat_map (entry w []) l)
                        = (3 * List.length l)%nat).
  { induction l as [|x l IH]; [reflexivity|].
    cbn [flat_map]. rewrite length_app, IH. simpl. lia. }
  rewrite H, length_rev. simpl. lia.
Qed.

(** X11.  The lines [produce_changelog] returns go by three, a header that
    begins with a star and a blank, a line that begins with a dash and a
    blank, then an empty line; there are three lines for each commit
    recorded, so the last line of a changelog that is not empty is an empty
    one. *)
Theorem changelog_is_shaped
    (w : World) (repopath : str) (s : state) (lines : list str) :
  fst (produce_changelog w repopath s) = Ok lines ->
  changelog_shaped lines = true
  /\ exists data,
       fst (collect w repopath s) = Ok data
       /\ List.length lines = (3 * List.length (dict_commits data))%nat.
Proof.
  intros Hrun. rewrite produce_changelog_collect in Hrun. cbn [fst] in Hrun.
  destruct (fst (collect w repopath s)) as [data|e] eqn:Hcollect;
    [|discriminate].
  pose proof (collected_sound w repopath s data Hcollect) as Hsound.
  rewrite (render_outcome w data Hsound) in Hrun. clear Hsound.
  destruct (forallb _ data); [|discriminate].
  inversion Hrun; subst lines. clear Hrun Hcollect. cbn [app]. split.
  - clear. induction data as [|[nvr commits] data IH]; [reflexivity|].
    cbn [flat_map fst snd]. rewrite changelog_shaped_group. exact IH.
  - exists data. split; [reflexivity|].
    clear. unfold dict_commits.
    induction data as [|[nvr commits] data IH]; [reflexivity|].
    cbn [flat_map fst snd]. rewrite !length_app, length_group_lines, IH.
    lia.
Qed.

(** Two releases, three commits, nine lines. *)
Lemma changelog_is_shaped_witness :
  let lines :=
    match fst (produce_changelog Cases.two_releases Scenario.repopath
                 initial) with
    | Ok l => l
    | Raise _ => []
    end in
  changelog_shaped lines = true
  /\ exists data,
       fst (collect Cases.two_releases Scenario.repopath initial) = Ok data
       /\ List.length lines = (3 * List.length (dict_commits data))%nat.
Proof.
  intros lines.
  apply (changelog_is_shaped Cases.two_releases Scenario.repopath initial
           lines).
  vm_compute. reflexivity.
Defined.

(** ** What the header suffix reads *)

(** X12.  The rendering of a group reads two fields of its tuple, those at
    index 1 and 2: two tuples that agree there (or both lack one of them)
    give the same lines and the same error, what the package name at index
    0 and any field after the third may be. *)
Theorem rendering_reads_two_fields (w : World) (nvr nvr' : key) :
  nth_error nvr 1 = nth_error nvr' 1 ->
  nth_error nvr 2 = nth_error nvr' 2 ->
  forall (todo : list Commit) (n idx : nat) (lines : list str),
    render_commits w nvr n idx todo lines
    = render_commits w nvr' n idx todo lines.
Proof.
  intros Hversion Hrelease.
  induction todo as [|c todo IH]; intros n idx lines; [reflexivity|].
  cbn [render_commits].
  destruct (utcfromtimestamp (commit_time c)) as [commit_dt|e];
    [|reflexivity].
  cbn [rbind]. unfold getitem. rewrite Hversion, Hrelease.
  destruct (idx + 1 =? n)%nat.
  - destruct (nth_error nvr' 1) as [version|]; [|reflexivity].
    destruct (nth_error nvr' 2) as [release|]; [|reflexivity].
    cbn [rbind]. apply IH.
  - cbn [rbind]. apply IH.
Qed.

(** Another name, and a fourth field. *)
Lemma rendering_reads_two_fields_witness :
  render_commits Scenario.one_release [u "pkg"; u "1.0"; u "1"] 1 0
    [Scenario.alice] []
  = render_commits Scenario.one_release
      [u "other"; u "1.0"; u "1"; u "fc32"] 1 0 [Scenario.alice] [].
Proof.
  apply (rendering_reads_two_fields Scenario.one_release
           [u "pkg"; u "1.0"; u "1"] [u "other"; u "1.0"; u "1"; u "fc32"]);
    reflexivity.
Defined.

(** ** The text of an entry *)

Lemma lstrip_by_head (p : char -> bool) (s : str) :
  lstrip_by p s = []
  \/ exists x t, lstrip_by p s = x :: t /\ p x = false.
Proof.
  induction s as [|c s IH]; [now left|].
  simpl. destruct (p c) eqn:Hc; [exact IH|].
  right. exists c, s. split; [reflexivity | exact Hc].
Qed.

Lemma strip_by_ends (p : char -> bool) (s : str) (d : char) :
  strip_by p s <> [] ->
  p (hd d (strip_by p s)) = false /\ p (last (strip_by p s) d) = false.
Proof.
  unfold strip_by.
  destruct (lstrip_by_head p s) as [->|(x & t & -> & Hx)].
  - intros H. exfalso. apply H. reflexivity.
  - intros _. unfold rstrip_by. cbn [rev].
    rewrite lstrip_by_app.
    destruct (forallb p (rev t)) eqn:Hall.
    + simpl. rewrite Hx. simpl. split; exact Hx.
    + destruct (lstrip_by_head p (rev t)) as [Hnil|(y & t' & Hy & Hpy)].
      * exfalso. clear - Hall Hnil.
        induction (rev t) as [|a l IH]; [discriminate|].
        simpl in Hall, Hnil. destruct (p a); [auto | discriminate].
      * rewrite Hy. rewrite rev_app_distr. cbn [rev app hd].
        split; [exact Hx|].
        change (x :: rev t' ++ [y]) with ((x :: rev t') ++ [y]).
        rewrite last_last. exact Hpy.
Qed.

(** X13.  The second line of an entry carries the first line of the commit
    message and nothing of what follows it, with the dashes and blanks at
    its two ends removed, then wrapped: what is wrapped neither begins nor
    ends with a dash or a blank.  Dashes and blanks inside stay. *)
Theorem entry_text_is_first_line
    (w : World) (c : Commit) (first tail : str) :
  message c = first ++ tail ->
  no_char LF first = true ->
  tail = [] \/ (exists rest, tail = LF :: rest) ->
  wrapped_message w c = fill w (strip_chars (u "- ") first)
  /\ (strip_chars (u "- ") first <> [] ->
      ~ In (hd DASH (strip_chars (u "- ") first)) [DASH; SP]
      /\ ~ In (last (strip_chars (u "- ") first) DASH) [DASH; SP]).
Proof.
  intros Hmsg Hline Htail. split.
  - unfold wrapped_message. rewrite Hmsg, (first_line first tail Hline Htail).
    reflexivity.
  - intros Hne. unfold strip_chars in *.
    destruct (strip_by_ends _ first DASH Hne) as [Hhd Hlast].
    assert (Hout : forall x,
               existsb (N.eqb x) (u "- ") = false -> ~ In x [DASH; SP]).
    { intros x Hx [<-|[<-|[]]]; vm_compute in Hx; discriminate. }
    split; apply Hout; assumption.
Qed.

(** A message with a body. *)
Lemma entry_text_is_first_line_witness :
  wrapped_message Scenario.one_release Cases.with_body
  = fill Scenario.one_release
      (strip_chars (u "- ") (u "- Fix the tests -"))
  /\ (strip_chars (u "- ") (u "- Fix the tests -") <> [] ->
      ~ In (hd DASH (strip_chars (u "- ") (u "- Fix the tests -")))
          [DASH; SP]
      /\ ~ In (last (strip_chars (u "- ") (u "- Fix the tests -")) DASH)
            [DASH; SP]).
Proof.
  apply (entry_text_is_first_line Scenario.one_release Cases.with_body
           (u "- Fix the tests -") (LF :: LF :: u "They were broken.")).
  - reflexivity.
  - reflexivity.
  - right. exists (LF :: u "They were broken."). reflexivity.
Defined.

(** ** [main] *)

(** X14.  [main] prints once, the lines joined by line feeds, and it prints
    after the temporary directory is removed; when [produce_changelog]
    raises, [main] raises the same exception and prints nothing after the
    removal.  All that happens between the copy and the removal is on the
    copy. *)
Theorem main_prints_after_cleanup
    (w : World) (worktree_path : str) (s : state) :
  fst (main w worktree_path s)
  = match fst (produce_changelog w worktree_path s) with
    | Ok _ => Ok tt
    | Raise e => Raise e
    end
  /\ exists evs,
       Forall (on_copy (basename worktree_path) (copy_of w worktree_path))
         evs
       /\ trace (snd (main w worktree_path s))
          = trace s
            ++ [EvMkdtemp (mkdtemp w);
                EvCopytree worktree_path (copy_of w worktree_path)]
            ++ evs ++ [EvCleanup (mkdtemp w)]
            ++ match fst (produce_changelog w worktree_path s) with
               | Ok changelog => [EvPrint (join [LF] changelog)]
               | Raise _ => []
               end.
Proof.
  destruct (collect_trace w worktree_path s) as [evs [Htrace Hevs]].
  assert (Hsnd : snd (produce_changelog w worktree_path s)
                 = snd (collect w worktree_path s))
    by (rewrite produce_changelog_collect; reflexivity).
  rewrite <- Hsnd in Htrace. clear Hsnd.
  unfold main, bind.
  destruct (produce_changelog w worktree_path s) as [[changelog|e] s'].
  - cbn [fst snd] in *. split; [reflexivity|].
    exists evs. split.
    + eapply Forall_impl; [|exact Hevs].
      intros ev [->|[cs Hev]]; [reflexivity|].
      exact (walk_event_on_copy _ _ _ _ Hev).
    + unfold print, emit. cbn [snd trace]. rewrite Htrace.
      rewrite <- !app_assoc. reflexivity.
  - cbn [fst snd] in *. split; [reflexivity|].
    exists evs. split.
    + eapply Forall_impl; [|exact Hevs].
      intros ev [->|[cs Hev]]; [reflexivity|].
      exact (walk_event_on_copy _ _ _ _ Hev).
    + rewrite Htrace. cbn [app]. reflexivity.
Qed.

(** ** A history of merge commits *)

Lemma walk_loop_merges (w : World) (name repocopy : str)
                       (cs : list Commit) :
  forallb is_merge cs = true ->
  forall (data : dict) (s : state),
    walk_loop w name repocopy cs data s
    = (Ok data, record (map EvNext cs) s).
Proof.
  induction cs as [|c cs IH]; intros Hall data s.
  - destruct s as [t r wt]. unfold record. cbn. rewrite app_nil_r.
    reflexivity.
  - simpl in Hall. apply andb_prop in Hall as [Hc Hall].
    rewrite walk_loop_cons, (iteration_merge _ _ _ _ _ _ Hc).
    rewrite (IH Hall). unfold record. cbn [trace reads worktree map].
    rewrite <- app_assoc. reflexivity.
Qed.

(** X15.  A walk that yields merge commits only, or no commit at all, gives
    the empty changelog: every commit is taken from the walk and none is
    checked out, queried or compared; the clock is not read. *)
Theorem merges_only_history
    (w : World) (repopath : str) (s : state) (cs : list Commit) :
  copytree w repopath (copy_of w repopath) = Ok tt ->
  walk w (copy_of w repopath) = Ok cs ->
  forallb is_merge cs = true ->
  produce_changelog w repopath s
  = (Ok [],
     record ([EvMkdtemp (mkdtemp w);
              EvCopytree repopath (copy_of w repopath);
              EvOpen (copy_of w repopath)]
             ++ map EvNext cs ++ [EvCleanup (mkdtemp w)]) s).
Proof.
  intros Hcopy Hwalk Hall.
  rewrite produce_changelog_collect, collect_cases, Hcopy, Hwalk.
  cbv zeta. rewrite (walk_loop_merges _ _ _ _ Hall). cbn [fst snd render].
  f_equal. unfold record, at_start. cbn [trace reads worktree].
  rewrite <- !app_assoc. reflexivity.
Qed.

(** Two merge commits. *)
Lemma merges_only_history_witness :
  produce_changelog Cases.merges_only Scenario.repopath initial
  = (Ok [],
     record ([EvMkdtemp (mkdtemp Cases.merges_only);
              EvCopytree Scenario.repopath
                (copy_of Cases.merges_only Scenario.repopath);
              EvOpen (copy_of Cases.merges_only Scenario.repopath)]
             ++ map EvNext [Scenario.merged; Scenario.old_merge]
             ++ [EvCleanup (mkdtemp Cases.merges_only)]) initial).
Proof.
  apply (merges_only_history Cases.merges_only Scenario.repopath initial
           [Scenario.merged; Scenario.old_merge]); reflexivity.
Defined.

(** ** When the setup fails *)

Lemma visited_app (a b : list event) :
  visited (a ++ b) = visited a ++ visited b.
Proof. apply flat_map_app. Qed.

(** X16.  When the copy of the work tree or the opening of the copy raises,
    [main] raises the same exception: no commit is taken from the walk,
    nothing is printed, and the temporary directory is removed all the
    same.  The copy is not opened when it could not be made. *)
Theorem setup_failure
    (w : World) (worktree_path : str) (s : state) (e : exn) :
  copytree w worktree_path (copy_of w worktree_path) = Raise e
  \/ (copytree w worktree_path (copy_of w worktree_path) = Ok tt
      /\ walk w (copy_of w worktree_path) = Raise e) ->
  fst (main w worktree_path s) = Raise e
  /\ visited (trace (snd (main w worktree_path s))) = visited (trace s)
  /\ trace (snd (main w worktree_path s))
     = trace s
       ++ [EvMkdtemp (mkdtemp w);
           EvCopytree worktree_path (copy_of w worktree_path)]
       ++ match copytree w worktree_path (copy_of w worktree_path) with
          | Ok _ => [EvOpen (copy_of w worktree_path)]
          | Raise _ => []
          end
       ++ [EvCleanup (mkdtemp w)].
Proof.
  intros Hfail. unfold main, bind.
  rewrite produce_changelog_collect, collect_cases.
  destruct Hfail as [Hcopy|[Hcopy Hwalk]].
  - rewrite Hcopy. cbn [fst snd record trace].
    rewrite visited_app. cbn. rewrite app_nil_r. auto.
  - rewrite Hcopy, Hwalk. cbn [fst snd record trace].
    rewrite visited_app. cbn. rewrite app_nil_r. auto.
Qed.

(** The copy is refused. *)
Lemma setup_failure_witness :
  fst (main Cases.copy_fails Scenario.repopath initial)
  = Raise PermissionError
  /\ visited (trace (snd (main Cases.copy_fails Scenario.repopath initial)))
     = visited (trace initial)
  /\ trace (snd (main Cases.copy_fails Scenario.repopath initial))
     = trace initial
       ++ [EvMkdtemp (mkdtemp Cases.copy_fails);
           EvCopytree Scenario.repopath
             (copy_of Cases.copy_fails Scenario.repopath)]
       ++ match copytree Cases.copy_fails Scenario.repopath
                  (copy_of Cases.copy_fails Scenario.repopath) with
          | Ok _ => [EvOpen (copy_of Cases.copy_fails Scenario.repopath)]
          | Raise _ => []
          end
       ++ [EvCleanup (mkdtemp Cases.copy_fails)].
Proof.
  apply (setup_failure Cases.copy_fails Scenario.repopath initial
           PermissionError).
  left. reflexivity.
Defined.

(** ** The commits taken from the walk *)

Lemma visited_body (name repocopy : str) (c : Commit) (evs : list event) :
  Forall (body_event name repocopy c) evs -> visited evs = [].
Proof.
  induction 1 as [|ev evs Hev _ IH]; [reflexivity|].
  cbn [visited flat_map]. fold (visited evs). rewrite IH.
  destruct ev; try reflexivity; destruct Hev.
Qed.

Lemma iteration_visited (w : World) (name repocopy : str) (c : Commit)
                        (data : dict) (s : state) :
  visited (trace (snd (iteration w name repocopy c data s)))
  = visited (trace s) ++ [c].
Proof.
  unfold iteration, bind, emit.
  destruct (loop_body_steps w name repocopy c data
              (mkState (trace s ++ [EvNext c]) (reads s) (worktree s)))
    as [[evs [Htrace Hevs]] _].
  destruct (loop_body w name repocopy c data _) as [[r|e] s'];
    cbn [snd trace] in *; rewrite Htrace, !visited_app,
      (visited_body _ _ _ _ Hevs), app_nil_r; reflexivity.
Qed.

Lemma walk_loop_visited (w : World) (name repocopy : str)
                        (cs : list Commit) :
  forall (data : dict) (s : state),
  exists k,
    visited (trace (snd (walk_loop w name repocopy cs data s)))
    = visited (trace s) ++ firstn k cs
    /\ forall data',
         fst (walk_loop w name repocopy cs data s) = Ok data' ->
         forall x, In x (dict_commits data') ->
                   In x (dict_commits data) \/ In x (firstn k cs).
Proof.
  induction cs as [|c cs IH]; intros data s.
  - exists 0%nat. cbn. rewrite app_nil_r. split; [reflexivity|].
    intros data' [= <-] x Hx. now left.
  - rewrite walk_loop_cons.
    pose proof (iteration_visited w name repocopy c data s) as Hvis.
    pose proof (iteration_outcome w name repocopy c data s) as Hout.
    destruct (iteration w name repocopy c data s) as [[[f data1]|e] s1];
      cbn [fst snd] in *.
    + assert (Hdata1 : forall x, In x (dict_commits data1) ->
                                 In x (dict_commits data) \/ x = c).
      { destruct (Hout _ eq_refl) as [Hsame|(_ & _ & k & Hk)];
          cbn [snd] in *; subst data1; [now left|].
        intros x Hx. apply In_dict_commits in Hx as (k' & l' & Hin & Hxl).
        destruct (In_dict_append _ _ _ _ _ Hin)
          as [Hold|[(l & Hold & ->)| ->]].
        - left. apply In_dict_commits. eauto.
        - apply in_app_or in Hxl as [Hxl|[<-|[]]]; [|now right].
          left. apply In_dict_commits. eauto.
        - destruct Hxl as [<-|[]]. now right. }
      destruct f.
      * destruct (IH data1 s1) as [k [Hk Hrec]].
        exists (S k). cbn [firstn]. split.
        -- rewrite Hk, Hvis, <- app_assoc. reflexivity.
        -- intros data' Hrun x Hx.
           destruct (Hrec data' Hrun x Hx) as [Hx1|Hx1];
             [|right; now right].
           destruct (Hdata1 x Hx1) as [Hold| ->];
             [now left | right; now left].
      * exists 1%nat. cbn [firstn fst snd]. split; [exact Hvis|].
        intros data' [= <-] x Hx.
        destruct (Hdata1 x Hx) as [Hold| ->];
          [now left | right; now left].
    + exists 1%nat. cbn [firstn fst snd]. split; [exact Hvis|].
      intros data' [=].
Qed.

(** X17.  The commits a run takes from the walk are the first ones the walk
    yields, in its order, without a gap: an exception or the end of the
    loop stops the walk, nothing skips ahead.  The commits recorded are
    among those taken. *)
Theorem visited_is_a_prefix
    (w : World) (repopath : str) (s : state) (cs : list Commit) :
  walk w (copy_of w repopath) = Ok cs ->
  exists k,
    visited (trace (snd (produce_changelog w repopath s)))
    = visited (trace s) ++ firstn k cs
    /\ forall data,
         fst (collect w repopath s) = Ok data ->
         incl (dict_commits data) (firstn k cs).
Proof.
  intros Hwalk.
  rewrite produce_changelog_collect, collect_cases, Hwalk.
  destruct (copytree w repopath (copy_of w repopath)) as [[]|e].
  - cbv zeta.
    destruct (walk_loop_visited w (basename repopath) (copy_of w repopath)
                cs [] (at_start w repopath s)) as [k [Hk Hrec]].
    exists k. cbn [fst snd record trace]. split.
    + rewrite visited_app, Hk. unfold at_start. cbn [trace].
      rewrite visited_app. cbn. rewrite !app_nil_r. reflexivity.
    + intros data Hrun x Hx.
      destruct (Hrec data Hrun x Hx) as [[]|Hin]. exact Hin.
  - exists 0%nat. cbn [fst snd record trace firstn]. split.
    + rewrite visited_app. cbn. rewrite !app_nil_r. reflexivity.
    + intros data [=].
Qed.

(** The third commit is too old: two commits are taken, one is recorded. *)
Lemma visited_is_a_prefix_witness :
  exists k,
    visited (trace (snd (produce_changelog Scenario.beyond_cutoff
                           Scenario.repopath initial)))
    = visited (trace initial)
      ++ firstn k [Scenario.alice; Scenario.ancient; Scenario.older]
    /\ forall data,
         fst (collect Scenario.beyond_cutoff Scenario.repopath initial)
         = Ok data ->
         incl (dict_commits data)
           (firstn k [Scenario.alice; Scenario.ancient; Scenario.older]).
Proof.
  apply (visited_is_a_prefix Scenario.beyond_cutoff Scenario.repopath
           initial [Scenario.alice; Scenario.ancient; Scenario.older]).
  reflexivity.
Defined.

(** ** The test on the files of a commit *)

Lemma existsb_rev_eq {A : Type} (f : A -> bool) (l : list A) :
  existsb f (rev l) = existsb f l.
Proof.
  induction l as [|a l IH]; [reflexivity|].
  cbn [rev existsb]. rewrite existsb_app, IH. cbn [existsb].
  rewrite orb_false_r. apply orb_comm.
Qed.

(** X18.  The flag computed over the files of a diff does not depend on the
    order in which the diff lists them: it is the conjunction of the flags
    of any two parts of the list, so it is the same for the list reversed
    or cut and swapped, and one file of the packaging is enough to clear
    it wherever the file stands. *)
Theorem ignore_flag_order (files files' : list str) :
  ignore_flag (files ++ files') = ignore_flag files && ignore_flag files'
  /\ ignore_flag (files ++ files') = ignore_flag (files' ++ files)
  /\ ignore_flag (rev files) = ignore_flag files.
Proof.
  rewrite !ignore_flag_spec, !existsb_app, existsb_rev_eq.
  repeat split.
  - apply negb_orb.
  - rewrite orb_comm. reflexivity.
Qed.

(** X19.  A diff is relevant exactly when it counts a changed file and one
    of the names it lists is some text, the empty one too, followed by
    [.spec] or by [.patch], in these letters: a name that has the
    extension in the middle, or in capitals, does not count. *)
Theorem relevant_names (d : Diff) :
  relevant d = true
  <-> files_changed d <> 0%nat
      /\ exists stem,
           In (stem ++ u ".spec") (deltas d)
           \/ In (stem ++ u ".patch") (deltas d).
Proof.
  unfold relevant.
  rewrite andb_true_iff, negb_true_iff, Nat.eqb_neq, existsb_exists.
  split; intros [Hcount Hname]; (split; [exact Hcount|]).
  - destruct Hname as [f [Hin Hf]].
    apply touches_packaging_iff in Hf as [stem [->| ->]];
      exists stem; auto.
  - destruct Hname as [stem [Hin|Hin]]; eexists; (split; [exact Hin|]);
      apply touches_packaging_iff; exists stem; auto.
Qed.

(** ** The paths *)

Lemma split_go_not_nil (sep : str) (m : option nat) (s : str) :
  forall (skip : nat) (cur : str), split_go sep m skip cur s <> [].
Proof.
  induction s as [|c s IH]; intros skip cur; simpl; [discriminate|].
  destruct skip as [|k]; [|apply IH].
  destruct m as [[|n]|]; try discriminate;
    destruct (startswith sep (c :: s)); try discriminate; apply IH.
Qed.

Lemma last_cons_not_nil {A : Type} (a d : A) (l : list A) :
  l <> [] -> last (a :: l) d = last l d.
Proof. destruct l; [congruence | reflexivity]. Qed.

Lemma basename_after_slash (dir name : str) :
  no_char SLASH name = true -> basename (dir ++ SLASH :: name) = name.
Proof.
  intros Hname. unfold basename, split, split_max.
  enough (H : forall cur,
             last (split_go [SLASH] None 0 cur (dir ++ SLASH :: name)) []
             = name) by apply H.
  induction dir as [|c dir IH]; intros cur.
  - cbn [app]. rewrite split_go_at_char, split_go_end by exact Hname.
    reflexivity.
  - cbn [app split_go startswith].
    destruct (SLASH =? c)%N; cbn [andb List.length Nat.pred option_map].
    + rewrite last_cons_not_nil by apply split_go_not_nil. apply IH.
    + apply IH.
Qed.

(** X20.  For a work tree given as a directory, a slash and a last
    component without slash, the copy is the temporary directory, a slash
    and that component, and the spec file is looked for in the copy under
    the component followed by [.spec].  A path that ends with a slash has
    the empty component: the copy is then the temporary directory with a
    slash, and the file looked for is [.spec] inside it. *)
Theorem spec_path_of_worktree (w : World) (dir name : str) :
  no_char SLASH name = true ->
  basename (dir ++ SLASH :: name) = name
  /\ copy_of w (dir ++ SLASH :: name) = mkdtemp w ++ SLASH :: name
  /\ spec_path (basename (dir ++ SLASH :: name))
       (copy_of w (dir ++ SLASH :: name))
     = mkdtemp w ++ SLASH
       :: match name with
          | [] => u ".spec"
          | _ :: _ => name ++ SLASH :: name ++ u ".spec"
          end.
Proof.
  intros Hname. unfold copy_of.
  rewrite (basename_after_slash dir name Hname).
  split; [reflexivity|]. split; [reflexivity|].
  unfold spec_path, os_path_join.
  change (u "/" ++ name) with (SLASH :: name).
  assert (Hstart : startswith [SLASH] (name ++ u ".spec") = false).
  { destruct name as [|c name]; [reflexivity|].
    unfold no_char in Hname. cbn [forallb] in Hname.
    apply andb_prop in Hname as [Hc _]. apply negb_true_iff in Hc.
    cbn [app startswith]. rewrite N.eqb_sym, Hc. reflexivity. }
  rewrite Hstart.
  destruct (mkdtemp w ++ SLASH :: name) as [|a0 body] eqn:Hcopy;
    [destruct (mkdtemp w); discriminate|].
  rewrite <- Hcopy. clear a0 body Hcopy.
  unfold endswith. rewrite rev_app_distr. cbn [rev].
  destruct name as [|c name].
  - cbn. rewrite <- app_assoc. reflexivity.
  - assert (Hlast : no_char SLASH (rev (c :: name)) = true)
      by (rewrite no_char_rev; exact Hname).
    destruct (rev (c :: name)) as [|z t] eqn:Hrev.
    + apply (f_equal (@List.length _)) in Hrev.
      rewrite length_rev in Hrev. discriminate.
    + unfold no_char in Hlast. cbn [forallb] in Hlast.
      apply andb_prop in Hlast as [Hz _].
      apply negb_true_iff in Hz. rewrite N.eqb_sym in Hz.
      cbn [app startswith]. rewrite Hz. cbn [andb].
      rewrite <- !app_assoc. reflexivity.
Qed.

(** A path with a slash at its end. *)
Lemma spec_path_of_worktree_witness :
  basename (u "/home/user/pkg" ++ SLASH :: []) = []
  /\ copy_of Scenario.one_release (u "/home/user/pkg" ++ SLASH :: [])
     = mkdtemp Scenario.one_release ++ SLASH :: []
  /\ spec_path (basename (u "/home/user/pkg" ++ SLASH :: []))
       (copy_of Scenario.one_release (u "/home/user/pkg" ++ SLASH :: []))
     = mkdtemp Scenario.one_release ++ SLASH :: u ".spec".
Proof.
  apply (spec_path_of_worktree Scenario.one_release (u "/home/user/pkg") []).
  reflexivity.
Defined.

(** ** The lines of the answer *)

(** X21.  Of the answer of the query only the first line is read, after the
    white space around the whole text is removed: what follows the first
    line feed changes no field. *)
Theorem later_lines_ignored (c : char) (a : str) (z : char) (rest : str) :
  isspace c = false ->
  isspace z = false ->
  no_char LF ((c :: a) ++ [z]) = true ->
  fields (((c :: a) ++ [z]) ++ LF :: rest) = fields ((c :: a) ++ [z]).
Proof.
  intros Hc Hz Hline. unfold fields.
  destruct (strip_line c a z (LF :: rest) Hc Hz) as [tail [-> Htail]];
    [right; eexists; reflexivity|].
  rewrite (first_line _ tail Hline Htail).
  destruct (strip_line c a z [] Hc Hz) as [tail0 [Hstrip Htail0]];
    [now left|].
  rewrite app_nil_r in Hstrip. rewrite Hstrip.
  rewrite (first_line _ tail0 Hline Htail0). reflexivity.
Qed.

(** A second line after the answer. *)
Lemma later_lines_ignored_witness :
  fields (((N.of_nat 112 :: u "kg  1.0  1.fc3") ++ [N.of_nat 50])
          ++ LF :: u "warning: line 3")
  = fields ((N.of_nat 112 :: u "kg  1.0  1.fc3") ++ [N.of_nat 50]).
Proof.
  apply (later_lines_ignored (N.of_nat 112) (u "kg  1.0  1.fc3")
           (N.of_nat 50) (u "warning: line 3")); reflexivity.
Defined.

(** ** The readings of the clock *)

Lemma keeps_clock_bind {A B : Type} (m : M A) (k : A -> M B) :
  keeps_clock m -> (forall a, keeps_clock (k a)) ->
  keeps_clock (bind m k).
Proof.
  intros Hm Hk s. unfold bind. specialize (Hm s).
  destruct (m s) as [[a|e] s']; cbn [snd] in *; [rewrite (Hk a s')|];
    exact Hm.
Qed.

Lemma keeps_clock_emit (ev : event) : keeps_clock (emit ev).
Proof. intros s. reflexivity. Qed.

Lemma keeps_clock_ret {A : Type} (a : A) : keeps_clock (ret a).
Proof. intros s. reflexivity. Qed.

Lemma keeps_clock_lift {A : Type} (r : result A) : keeps_clock (lift r).
Proof. intros s. reflexivity. Qed.

Lemma keeps_clock_try {A : Type} (m : M A) :
  keeps_clock m -> keeps_clock (try_except_Exception m).
Proof.
  intros Hm s. unfold try_except_Exception. specialize (Hm s).
  destruct (m s) as [[a|e] s']; [exact Hm|].
  destruct (is_Exception e); exact Hm.
Qed.

Lemma keeps_clock_run_command (w : World) (command : list str) (cwd : str) :
  keeps_clock (run_command w command cwd).
Proof.
  intros s. unfold run_command, subprocess_check_output, bind, emit.
  cbn [worktree].
  destruct (check_output w (worktree s) command cwd) as [output|[]];
    reflexivity.
Qed.

Lemma keeps_clock_record_if_relevant
    (w : World) (repocopy : str) (c : Commit) (output : key) (data : dict) :
  keeps_clock (record_if_relevant w repocopy c output data).
Proof.
  unfold record_if_relevant. apply keeps_clock_bind.
  - destruct (parents c); apply keeps_clock_bind;
      auto using keeps_clock_emit, keeps_clock_lift.
  - intros d. destruct (negb _); [destruct (negb _)|];
      apply keeps_clock_ret.
Qed.

Lemma keeps_clock_resolve_and_record
    (w : World) (name repocopy : str) (c : Commit) (data : dict) :
  keeps_clock (resolve_and_record w name repocopy c data).
Proof.
  unfold resolve_and_record. apply keeps_clock_bind.
  - apply keeps_clock_try, keeps_clock_run_command.
  - intros [output|]; [|apply keeps_clock_ret].
    apply keeps_clock_bind; [apply keeps_clock_lift|].
    intros nvr. apply keeps_clock_record_if_relevant.
Qed.

Lemma keeps_clock_process_commit
    (w : World) (name repocopy : str) (c : Commit) (data : dict) :
  keeps_clock (process_commit w name repocopy c data).
Proof.
  unfold process_commit. apply keeps_clock_bind.
  - unfold repo_checkout_tree. apply keeps_clock_bind;
      [apply keeps_clock_emit|]. intros _ s.
    destruct (checkout_tree w c); reflexivity.
  - intros _. apply keeps_clock_bind.
    + unfold os_path_exists. apply keeps_clock_bind;
        [apply keeps_clock_emit|]. intros _ s. reflexivity.
    + intros [|]; [apply keeps_clock_resolve_and_record|].
      apply keeps_clock_bind; [apply keeps_clock_emit|].
      intros _. apply keeps_clock_ret.
Qed.

Lemma iteration_reads (w : World) (name repocopy : str) (c : Commit)
                      (data : dict) (s : state) :
  reads (snd (iteration w name repocopy c data s))
  = if is_merge c || negb (representable c) then reads s
    else S (reads s).
Proof.
  unfold iteration, bind, emit, loop_body.
  destruct (is_merge c); [reflexivity|]. cbn [orb].
  destruct (representable c) eqn:Hrep; cbn [negb].
  - unfold bind, lift. rewrite (utcfromtimestamp_representable c Hrep).
    unfold datetime_utcnow. cbn [reads trace worktree].
    destruct (_ <? _)%Z; [reflexivity|].
    rewrite keeps_clock_process_commit. reflexivity.
  - unfold bind, lift. unfold representable in Hrep.
    destruct (utcfromtimestamp (commit_time c)) as [dt|e];
      [discriminate | reflexivity].
Qed.

(** A turn that returns was on a merge commit or on a commit whose
    timestamp converts. *)
Lemma iteration_returns (w : World) (name repocopy : str) (c : Commit)
                        (data : dict) (s : state) (r : flow * dict) :
  fst (iteration w name repocopy c data s) = Ok r ->
  forallb representable (non_merges [c]) = true.
Proof.
  intros Hrun. unfold non_merges. cbn [filter].
  destruct (is_merge c) eqn:Hm; [reflexivity|]. cbn [negb forallb].
  rewrite andb_true_r. unfold representable.
  destruct (utcfromtimestamp (commit_time c)) as [dt|e] eqn:Hdt;
    [reflexivity|].
  rewrite (iteration_conversion_raises w name repocopy c data s e Hm Hdt)
    in Hrun.
  discriminate.
Qed.

Lemma walk_loop_clock (w : World) (name repocopy : str) (cs : list Commit) :
  forall (data : dict) (s : state),
  exists k,
    visited (trace (snd (walk_loop w name repocopy cs data s)))
    = visited (trace s) ++ firstn k cs
    /\ reads (snd (walk_loop w name repocopy cs data s))
       = (reads s
          + List.length (filter representable (non_merges (firstn k cs))))%nat
    /\ (is_ok (fst (walk_loop w name repocopy cs data s)) = true ->
        forallb representable (non_merges (firstn k cs)) = true).
Proof.
  induction cs as [|c cs IH]; intros data s.
  - exists 0%nat. cbn. rewrite app_nil_r.
    split; [reflexivity | split; [lia | reflexivity]].
  - rewrite walk_loop_cons.
    pose proof (iteration_visited w name repocopy c data s) as Hvis.
    pose proof (iteration_reads w name repocopy c data s) as Hreads.
    pose proof (iteration_returns w name repocopy c data s) as Hret.
    assert (Hone : reads (snd (iteration w name repocopy c data s))
                   = (reads s
                      + List.length
                          (filter representable (non_merges [c])))%nat).
    { rewrite Hreads. unfold non_merges. cbn [filter].
      destruct (is_merge c); cbn [negb orb filter List.length]; [lia|].
      destruct (representable c); cbn [negb List.length]; lia. }
    destruct (iteration w name repocopy c data s) as [[[[|] data1]|e] s1];
      cbn [fst snd] in *.
    + destruct (IH data1 s1) as [k [Hk [Hclock Hall]]].
      exists (S k). cbn [firstn].
      change (c :: firstn k cs) with ([c] ++ firstn k cs).
      unfold non_merges in *.
      rewrite !filter_app, forallb_app, length_app.
      split; [|split].
      * rewrite Hk, Hvis, <- app_assoc. reflexivity.
      * rewrite Hclock, Hone. lia.
      * intros Hok. rewrite (Hret _ eq_refl), (Hall Hok). reflexivity.
    + exists 1%nat. cbn [firstn].
      split; [exact Hvis | split; [exact Hone|]].
      intros _. exact (Hret _ eq_refl).
    + exists 1%nat. cbn [firstn is_ok].
      split; [exact Hvis | split; [exact Hone | discriminate]].
Qed.

(** X22.  The clock is read once for every commit taken from the walk that
    is not a merge commit and whose timestamp converts, and at no other
    point of a run: the date the age of a commit is measured from is taken
    anew for each commit, not once for the run.  A commit whose timestamp
    does not convert ends the run before the clock is read for it; when
    the walk returns there was none, and the clock was read once for every
    commit taken that is not a merge commit. *)
Theorem clock_read_for_each_commit
    (w : World) (repopath : str) (s : state) (cs : list Commit) :
  copytree w repopath (copy_of w repopath) = Ok tt ->
  walk w (copy_of w repopath) = Ok cs ->
  exists k,
    visited (trace (snd (main w repopath s)))
    = visited (trace s) ++ firstn k cs
    /\ reads (snd (main w repopath s))
       = (reads s
          + List.length (filter representable (non_merges (firstn k cs))))%nat
    /\ (is_ok (fst (collect w repopath s)) = true ->
        forallb representable (non_merges (firstn k cs)) = true
        /\ reads (snd (main w repopath s))
           = (reads s + List.length (non_merges (firstn k cs)))%nat).
Proof.
  intros Hcopy Hwalk.
  destruct (walk_loop_clock w (basename repopath) (copy_of w repopath) cs
              [] (at_start w repopath s)) as [k [Hk [Hclock Hall]]].
  exists k.
  assert (Hmain : visited (trace (snd (main w repopath s)))
                  = visited (trace (snd (walk_loop w (basename repopath)
                                           (copy_of w repopath) cs []
                                           (at_start w repopath s))))
                  /\ reads (snd (main w repopath s))
                     = reads (snd (walk_loop w (basename repopath)
                                     (copy_of w repopath) cs []
                                     (at_start w repopath s)))).
  { unfold main, bind.
    rewrite produce_changelog_collect, collect_cases, Hcopy, Hwalk.
    cbv zeta. cbn [fst snd].
    destruct (fst (walk_loop w (basename repopath) (copy_of w repopath) cs
                     [] (at_start w repopath s))) as [data|e].
    - destruct (render w data []) as [changelog|e]; cbn;
        rewrite ?visited_app; cbn; rewrite ?app_nil_r; split; reflexivity.
    - cbn. rewrite visited_app. cbn. rewrite app_nil_r. split; reflexivity. }
  destruct Hmain as [Hv Hr]. rewrite Hv, Hr, Hk.
  assert (Hfst : fst (collect w repopath s)
                 = fst (walk_loop w (basename repopath) (copy_of w repopath)
                          cs [] (at_start w repopath s))).
  { rewrite collect_cases, Hcopy, Hwalk. reflexivity. }
  rewrite Hfst. split; [|split; [|intros Hok; split]].
  - unfold at_start. cbn [trace]. rewrite visited_app. cbn.
    rewrite app_nil_r. reflexivity.
  - exact Hclock.
  - exact (Hall Hok).
  - rewrite Hclock. f_equal. f_equal.
    pose proof (Hall Hok) as Hrep. clear - Hrep.
    induction (non_merges (firstn k cs)) as [|x l IH]; [reflexivity|].
    cbn [forallb filter] in *. apply andb_prop in Hrep as [Hx Hl].
    rewrite Hx, (IH Hl). reflexivity.
Qed.

(** After a merge commit and a commit the clock has been read once; the
    walk that meets a commit dated in the year 10000 ends with no reading
    of the clock. *)
Lemma clock_read_for_each_commit_witness :
  (exists k,
     visited (trace (snd (main Scenario.with_merge Scenario.repopath
                            initial)))
     = visited (trace initial)
       ++ firstn k [Scenario.merged; Scenario.alice]
     /\ reads (snd (main Scenario.with_merge Scenario.repopath initial))
        = (reads initial
           + List.length
               (filter representable
                  (non_merges
                     (firstn k [Scenario.merged; Scenario.alice]))))%nat
     /\ (is_ok (fst (collect Scenario.with_merge Scenario.repopath initial))
         = true ->
         forallb representable
           (non_merges (firstn k [Scenario.merged; Scenario.alice])) = true
         /\ reads (snd (main Scenario.with_merge Scenario.repopath initial))
            = (reads initial
               + List.length
                   (non_merges
                      (firstn k [Scenario.merged; Scenario.alice])))%nat))
  /\ reads (snd (main Scenario.with_merge Scenario.repopath initial)) = 1%nat
  /\ reads (snd (main Cases.with_far_future Scenario.repopath initial))
     = 0%nat.
Proof.
  split; [|split; reflexivity].
  apply (clock_read_for_each_commit Scenario.with_merge Scenario.repopath
           initial [Scenario.merged; Scenario.alice]); reflexivity.
Defined.
